(** * The SWIMA software-inventory collector and the SM2 key exchange

    A shallow embedding of [swima_collector.c] (identifier extraction, the
    two stream readers, the generator invoker, the recursive tag walker and
    the two public operations) and of [gmalg_ec_diffie_hellman.c]
    ([set_private_key]), followed by the properties the specification
    states about them.

    Bytes are [ascii] (eight bits), a [chunk_t] is the list of its bytes,
    a C pointer into a buffer is the suffix of the buffer that starts
    there.  The collector object is threaded through a small state monad
    together with the list of calls it makes to the operating system and to
    the database. *)

From Stdlib Require Import Ascii String List Bool Arith NArith ZArith Lia.
From Stdlib Require Import Sorted Permutation.
Import ListNotations.

Set Implicit Arguments.

Module Swima.

(** ** Bytes, chunks and C strings *)

Definition chunk_t := list ascii.
Definition chunk_empty : chunk_t := [].

Definition lit (s : string) : chunk_t := list_ascii_of_string s.
Arguments lit s%_string.

Definition NUL : ascii := "000"%char.
Definition LF : ascii := "010"%char.
Definition DQUOTE : ascii := "034"%char.

(** [strlen]: the number of bytes before the first NUL.  A buffer is given
    without its terminator, so the end of the list terminates as well. *)
Fixpoint strlen (s : list ascii) : nat :=
  match s with
  | [] => 0
  | c :: rest => if Ascii.eqb c NUL then 0 else S (strlen rest)
  end.

(** The C string a [char *] denotes. *)
Definition c_str (s : list ascii) : list ascii := firstn (strlen s) s.

(** [strndup(ptr, len)]: at most [len] bytes, cut at the first NUL. *)
Definition strndup (ptr : list ascii) (len : nat) : list ascii :=
  c_str (firstn len ptr).

Fixpoint is_prefix (needle hay : list ascii) : bool :=
  match needle, hay with
  | [], _ => true
  | _ :: _, [] => false
  | a :: needle', b :: hay' => Ascii.eqb a b && is_prefix needle' hay'
  end.

(** [strstr(hay, needle)] on C strings: the suffix of [hay] that starts at
    the first occurrence of [needle], [None] for a NULL result. *)
Fixpoint strstr (hay needle : list ascii) : option (list ascii) :=
  if is_prefix needle hay then Some hay
  else match hay with
       | [] => None
       | _ :: hay' => strstr hay' needle
       end.

(** [strchr(s, c)] for a character [c] other than NUL. *)
Fixpoint strchr (s : list ascii) (c : ascii) : option (list ascii) :=
  match s with
  | [] => None
  | x :: rest => if Ascii.eqb x c then Some s else strchr rest c
  end.

(** Modelled from the spec: [chunk_equals] is declared outside this file;
    two chunks are equal when they hold the same bytes.  (The library's
    function is false when a pointer is NULL; the file applies it to an
    extracted identifier, which has at least its two underscores.) *)
Fixpoint chunk_equals (a b : chunk_t) : bool :=
  match a, b with
  | [], [] => true
  | x :: a', y :: b' => Ascii.eqb x y && chunk_equals a' b'
  | _, _ => false
  end.

(** [streq(a, b)]: [strcmp] of the two C strings is zero. *)
Definition streq (a b : list ascii) : bool := chunk_equals (c_str a) (c_str b).

(** [snprintf(buf, size, ...)] keeps at most [size - 1] bytes of the formatted
    text; [fmt_s] is what a [%s] argument contributes. *)
Definition snprintf (size : nat) (formatted : list ascii) : list ascii :=
  firstn (size - 1) formatted.
Definition fmt_s (arg : list ascii) : list ascii := c_str arg.

(** [%.*s] with precision [len]: at most [len] bytes, cut at a NUL. *)
Definition fmt_s_prec (len : nat) (arg : list ascii) : list ascii :=
  c_str (firstn len arg).

(** ** Status codes and the data model *)

(** Modelled from the spec: [status_t] is declared outside this file; these
    are the four codes the collector returns (section 7). *)
Inductive status_t : Type :=
| SUCCESS
| FAILED
| NOT_SUPPORTED
| NOT_FOUND.

Definition status_eqb (a b : status_t) : bool :=
  match a, b with
  | SUCCESS, SUCCESS | FAILED, FAILED
  | NOT_SUPPORTED, NOT_SUPPORTED | NOT_FOUND, NOT_FOUND => true
  | _, _ => false
  end.

Definition SOURCE_ID_GENERATOR : N := 1.
Definition SOURCE_ID_COLLECTOR : N := 2.
Definition SWID_GENERATOR : chunk_t := lit "/usr/local/bin/swid_generator".

Definition skip_directories : list (list ascii) :=
  [ lit "/usr/share/doc";
    lit "/usr/share/help";
    lit "/usr/share/icons";
    lit "/usr/share/gnome/help" ].

(** Modelled from the spec: the record, inventory and event objects are
    implemented outside this file; section 3 gives their contents.  The
    numeric fields are unsigned 32-bit values that the collector only
    stores and passes on. *)
Record swima_record_t : Type := {
  record_id : N;
  sw_id : chunk_t;
  sw_locator : chunk_t;
  source_id : N;
  record : chunk_t
}.

(** [swima_record_create]: no source and no tag payload yet. *)
Definition swima_record_create (id : N) (swid locator : chunk_t)
  : swima_record_t :=
  {| record_id := id; sw_id := swid; sw_locator := locator;
     source_id := 0; record := chunk_empty |}.

Definition set_source_id (r : swima_record_t) (src : N) : swima_record_t :=
  {| record_id := record_id r; sw_id := sw_id r; sw_locator := sw_locator r;
     source_id := src; record := record r |}.

Definition set_record (r : swima_record_t) (tag : chunk_t) : swima_record_t :=
  {| record_id := record_id r; sw_id := sw_id r; sw_locator := sw_locator r;
     source_id := source_id r; record := tag |}.

(** Modelled from the spec: an inventory is the records in insertion order
    and the watermark; [add] appends, [clear] empties the list and keeps
    the watermark. *)
Record swima_inventory_t : Type := {
  inv_list : list swima_record_t;
  inv_last_eid : N;
  inv_eid_epoch : N
}.

Definition inv_add (i : swima_inventory_t) (r : swima_record_t)
  : swima_inventory_t :=
  {| inv_list := inv_list i ++ [r];
     inv_last_eid := inv_last_eid i; inv_eid_epoch := inv_eid_epoch i |}.

Definition inv_clear (i : swima_inventory_t) : swima_inventory_t :=
  {| inv_list := [];
     inv_last_eid := inv_last_eid i; inv_eid_epoch := inv_eid_epoch i |}.

Definition inv_get_count (i : swima_inventory_t) : nat := length (inv_list i).
Definition inv_get_eid (i : swima_inventory_t) : N := inv_last_eid i.

(** Modelled from the spec: an event and the event log, as in section 3. *)
Record swima_event_t : Type := {
  ev_eid : N;
  ev_timestamp : chunk_t;
  ev_action : N;
  ev_sw_record : swima_record_t
}.

Definition swima_event_create (eid : N) (ts : chunk_t) (action : N)
  (r : swima_record_t) : swima_event_t :=
  {| ev_eid := eid; ev_timestamp := ts; ev_action := action;
     ev_sw_record := r |}.

Record swima_events_t : Type := {
  evs_list : list swima_event_t;
  evs_last_eid : N;
  evs_eid_epoch : N
}.

Definition evs_add (e : swima_events_t) (ev : swima_event_t) : swima_events_t :=
  {| evs_list := evs_list e ++ [ev];
     evs_last_eid := evs_last_eid e; evs_eid_epoch := evs_eid_epoch e |}.

Definition evs_clear (e : swima_events_t) : swima_events_t :=
  {| evs_list := [];
     evs_last_eid := evs_last_eid e; evs_eid_epoch := evs_eid_epoch e |}.

(** ** The sw-collector database

    Modelled from the spec: the store is external; section 6 gives its
    three tables.  A table that is [None] does not exist, which makes every
    query that reads it fail.  The two queries are evaluated as their SQL
    text in [retrieve_inventory] and [retrieve_events] says. *)

Record sw_identifiers_row : Type := {
  i_id : N; i_name : list ascii; i_source : N; i_installed : N
}.
Record events_row : Type := {
  e_id : N; e_timestamp : list ascii; e_epoch : N
}.
Record sw_events_row : Type := {
  s_eid : N; s_sw_id : N; s_action : N
}.

Record database_t : Type := {
  tbl_sw_identifiers : option (list sw_identifiers_row);
  tbl_events : option (list events_row);
  tbl_sw_events : option (list sw_events_row)
}.

(** Text is compared bytewise, as in the default collation. *)
Fixpoint text_leb (a b : list ascii) : bool :=
  match a, b with
  | [], _ => true
  | _ :: _, [] => false
  | x :: a', y :: b' =>
      if Ascii.eqb x y then text_leb a' b'
      else (nat_of_ascii x <? nat_of_ascii y)
  end.

Section OrderBy.
Variable row : Type.
Variable leb : row -> row -> bool.

Fixpoint insert_row (r : row) (sorted : list row) : list row :=
  match sorted with
  | [] => [r]
  | x :: rest => if leb r x then r :: sorted else x :: insert_row r rest
  end.

Fixpoint order_by (rows : list row) : list row :=
  match rows with
  | [] => []
  | r :: rest => insert_row r (order_by rest)
  end.
End OrderBy.

(** [SELECT id, name, source FROM sw_identifiers WHERE installed = 1
     ORDER BY name ASC] *)
Definition installed_leb (a b : sw_identifiers_row) : bool :=
  text_leb (i_name a) (i_name b).

Definition query_installed (db : database_t)
  : option (list (N * list ascii * N)) :=
  match tbl_sw_identifiers db with
  | None => None
  | Some ids =>
      Some (map (fun i => (i_id i, i_name i, i_source i))
              (order_by installed_leb
                 (filter (fun i => N.eqb (i_installed i) 1) ids)))
  end.

(** A row of the event query:
    [e.id, e.timestamp, i.id, i.name, i.source, s.action]. *)
Record event_row : Type := {
  q_eid : N; q_timestamp : list ascii;
  q_record_id : N; q_name : list ascii; q_source : N; q_action : N
}.

(** [ORDER BY s.eid, i.name, s.action ASC]; [s.eid = e.id] in a joined row. *)
Definition event_row_leb (a b : event_row) : bool :=
  if N.eqb (q_eid a) (q_eid b) then
    if chunk_equals (q_name a) (q_name b) then N.leb (q_action a) (q_action b)
    else text_leb (q_name a) (q_name b)
  else N.ltb (q_eid a) (q_eid b).

(** [FROM sw_events AS s JOIN events AS e ON s.eid = e.id
     JOIN sw_identifiers AS i ON s.sw_id = i.id] *)
Definition join_sw_events (ss : list sw_events_row) (es : list events_row)
  (ids : list sw_identifiers_row) : list event_row :=
  flat_map (fun s =>
    flat_map (fun e =>
      map (fun i =>
             {| q_eid := e_id e; q_timestamp := e_timestamp e;
                q_record_id := i_id i; q_name := i_name i;
                q_source := i_source i; q_action := s_action s |})
          (filter (fun i => N.eqb (s_sw_id s) (i_id i)) ids))
      (filter (fun e => N.eqb (s_eid s) (e_id e)) es))
    ss.

(** The event query with its parameter, [WHERE s.eid >= ?]. *)
Definition query_sw_events (db : database_t) (earliest_eid : N)
  : option (list event_row) :=
  match tbl_sw_events db, tbl_events db, tbl_sw_identifiers db with
  | Some ss, Some es, Some ids =>
      Some (order_by event_row_leb
              (filter (fun r => N.leb earliest_eid (q_eid r))
                 (join_sw_events ss es ids)))
  | _, _, _ => None
  end.

(** ** The collector object, its host and the state monad *)

Record private_swima_collector_t : Type := {
  sw_id_only : bool;
  db : option database_t;
  inventory : swima_inventory_t;
  events : swima_events_t
}.

(** A directory entry as the walker sees it: its name, for a directory the
    listing [enumerator_create_directory] yields ([None] when it cannot be
    opened), and what [chunk_map] returns for the entry ([None] when it
    fails).  A directory has a [mapped] too: the walker does not skip to
    the next entry after descending, so in tag mode it goes on to treat a
    directory whose name contains [.swidtag] as a tag file. *)
#[warnings="-register-all"]
Inductive fs_node : Type :=
| Regular (rel_name : list ascii) (mapped : option chunk_t)
| Directory (rel_name : list ascii) (opened : option (list fs_node))
            (mapped : option chunk_t).

(** What the collector finds around it: the settings, the commands that
    can be run, the tree under the configured directory, the size of the
    general-purpose buffers ([BUF_LEN], declared outside this file) and the
    byte that precedes the line buffer of [read_swid_tags] on the stack. *)
Record host_t : Type := {
  conf_swid_directory : option (list ascii);
  conf_swid_generator : option (list ascii);
  conf_swid_pretty : bool;
  conf_swid_full : bool;
  BUF_LEN : nat;
  popen : list ascii -> option (list ascii);
  fs_root : fs_node;
  stack_byte : ascii
}.

Inductive query_t : Type :=
| q_installed
| q_events (earliest_eid : N).

(** The calls the collector makes, in the order it makes them: queries,
    commands, files mapped, and the calls of [collect_tags], which opens
    the directory it is called on. *)
Inductive action : Type :=
| act_db_query (q : query_t)
| act_popen (command : list ascii)
| act_collect_tags (pathname : list ascii) (is_swidtag_dir : bool)
| act_chunk_map (abs_name : list ascii).

Record state : Type := {
  this : private_swima_collector_t;
  trace : list action
}.

Definition M (A : Type) : Type := state -> A * state.

Definition ret {A : Type} (a : A) : M A := fun st => (a, st).

Definition bind {A B : Type} (m : M A) (k : A -> M B) : M B :=
  fun st => let (a, st') := m st in k a st'.

Notation "x <- m ;; k" := (bind m (fun x => k))
  (at level 61, m at next level, right associativity).
Notation "m ;;; k" := (bind m (fun _ => k))
  (at level 61, right associativity).

Definition log (a : action) : M unit :=
  fun st => (tt, {| this := this st; trace := trace st ++ [a] |}).

Definition get_this : M private_swima_collector_t := fun st => (this st, st).

(** [this->inventory->add(this->inventory, sw_record)] *)
Definition inventory_add (r : swima_record_t) : M unit :=
  fun st =>
    let t := this st in
    (tt, {| this := {| sw_id_only := sw_id_only t; db := db t;
                       inventory := inv_add (inventory t) r;
                       events := events t |};
            trace := trace st |}).

(** [this->events->add(this->events, sw_event)] *)
Definition events_add (ev : swima_event_t) : M unit :=
  fun st =>
    let t := this st in
    (tt, {| this := {| sw_id_only := sw_id_only t; db := db t;
                       inventory := inventory t;
                       events := evs_add (events t) ev |};
            trace := trace st |}).

(** ** [extract_sw_id]

    The result pairs the status with the chunk stored through [sw_id];
    nothing is stored on failure, shown as the empty chunk.  The updates of
    [len] after the copy are never read and are left out. *)
Definition extract_sw_id (swid_tag : chunk_t) : status_t * chunk_t :=
  let len := Nat.min 1023 (length swid_tag) in
  let tag := strndup swid_tag len in
  let pos := tag in
  match strstr pos (lit "tagId=" ++ [DQUOTE]) with
  | None => (NOT_FOUND, chunk_empty)
  | Some tagid =>
      let tagid := skipn 7 tagid in
      match strchr tagid DQUOTE with
      | None => (NOT_FOUND, chunk_empty)
      | Some pos =>
          let tagid_len := length tagid - length pos in
          match strstr pos (lit "regid=" ++ [DQUOTE]) with
          | None => (NOT_FOUND, chunk_empty)
          | Some regid =>
              let regid := skipn 7 regid in
              match strchr regid DQUOTE with
              | None => (NOT_FOUND, chunk_empty)
              | Some pos =>
                  let regid_len := length regid - length pos in
                  (SUCCESS,
                   firstn regid_len regid ++ lit "__"
                     ++ firstn tagid_len tagid)
              end
          end
      end
  end.

(** ** Reading the generator's output *)

(** [sizeof(line)] in [read_swid_tags]. *)
Definition sizeof_line : nat := 8 * 1024.

(** [fgets(line, size, file)] reads at most [size - 1] bytes and stops after
    a line feed; it returns NULL only when no byte is left. *)
Fixpoint fgets_bytes (room : nat) (file : list ascii)
  : list ascii * list ascii :=
  match room, file with
  | 0, _ => ([], file)
  | _, [] => ([], [])
  | S room', c :: rest =>
      if Ascii.eqb c LF then ([c], rest)
      else let (line, file') := fgets_bytes room' rest in (c :: line, file')
  end.

Definition fgets (size : nat) (file : list ascii)
  : option (list ascii * list ascii) :=
  match file with
  | [] => None
  | _ :: _ => Some (fgets_bytes (size - 1) file)
  end.

(** [line[0]]: the first byte read, or the terminator. *)
Definition first_char (line : list ascii) : ascii := nth 0 line NUL.

(** [line[len - 1]]; for [len = 0] the index wraps and the byte in front of
    the buffer is read. *)
Definition char_before (before : ascii) (line : list ascii) (len : nat)
  : ascii :=
  match len with
  | 0 => before
  | S k => nth k line NUL
  end.

(** The inner loop of [read_swid_tags]: lines are appended to the writer
    until an empty line follows a terminated one or the stream ends.  The
    result is [more_tags], the writer's buffer and the rest of the stream.
    Every round consumes a byte, so [length file] rounds are enough. *)
Fixpoint read_tag_lines (host : host_t) (fuel : nat) (last_newline : bool)
  (writer : chunk_t) (file : list ascii) : bool * chunk_t * list ascii :=
  match fuel with
  | 0 => (false, writer, file)
  | S fuel' =>
      match fgets sizeof_line file with
      | None => (false, writer, file)
      | Some (line, file') =>
          let len := strlen line in
          if last_newline && Ascii.eqb (first_char line) LF
          then (true, writer, file')
          else read_tag_lines host fuel'
                 (Ascii.eqb (char_before (stack_byte host) line len) LF)
                 (writer ++ firstn len line) file'
      end
  end.

Definition generator_record (swid tag : chunk_t) : swima_record_t :=
  set_record
    (set_source_id (swima_record_create 0 swid chunk_empty)
       SOURCE_ID_GENERATOR)
    tag.

(** The body of [if (swid_tag.len > 1)]: strip one trailing line feed,
    extract, add the record.  A status other than [SUCCESS] is the one
    [read_swid_tags] returns at once. *)
Definition add_swid_tag (swid_tag : chunk_t) : M status_t :=
  if 1 <? length swid_tag then
    let swid_tag :=
      if Ascii.eqb (nth (length swid_tag - 1) swid_tag NUL) LF
      then firstn (length swid_tag - 1) swid_tag
      else swid_tag in
    match extract_sw_id swid_tag with
    | (SUCCESS, swid) => inventory_add (generator_record swid swid_tag) ;;;
                         ret SUCCESS
    | (status, _) => ret status
    end
  else ret SUCCESS.

Fixpoint read_swid_tags_loop (host : host_t) (fuel : nat) (file : list ascii)
  : M status_t :=
  match fuel with
  | 0 => ret SUCCESS
  | S fuel' =>
      let '(more_tags, swid_tag, file') :=
        read_tag_lines host (length file) true [] file in
      status <- add_swid_tag swid_tag ;;
      if negb (status_eqb status SUCCESS) then ret status
      else if more_tags then read_swid_tags_loop host fuel' file'
      else ret SUCCESS
  end.

(** Every round but the last consumes a byte. *)
Definition read_swid_tags (host : host_t) (file : list ascii) : M status_t :=
  read_swid_tags_loop host (S (length file)) file.

Fixpoint read_swid_tag_ids_loop (host : host_t) (fuel : nat)
  (file : list ascii) : M status_t :=
  match fuel with
  | 0 => ret SUCCESS
  | S fuel' =>
      match fgets (BUF_LEN host) file with
      | None => ret SUCCESS
      | Some (line, file') =>
          let len := strlen line in
          let len :=
            if (0 <? len) && Ascii.eqb (nth (len - 1) line NUL) LF
            then len - 1 else len in
          let swid := firstn len line in
          inventory_add
            (set_source_id (swima_record_create 0 swid chunk_empty)
               SOURCE_ID_GENERATOR) ;;;
          read_swid_tag_ids_loop host fuel' file'
      end
  end.

Definition read_swid_tag_ids (host : host_t) (file : list ascii)
  : M status_t :=
  read_swid_tag_ids_loop host (length file) file.

(** ** The persistence adapter *)

Definition chunk_from_str (s : list ascii) : chunk_t := c_str s.

(** A [DB_UINT] column stored into a [uint32_t] variable: the low 32 bits
    of the stored integer. *)
Definition uint32_of_db (n : N) : N := N.modulo n (2 ^ 32).

Fixpoint enumerate_installed (rows : list (N * list ascii * N)) : M unit :=
  match rows with
  | [] => ret tt
  | (id, name, source) :: rest =>
      let record_id := uint32_of_db id in
      let source := uint32_of_db source in
      inventory_add
        (set_source_id
           (swima_record_create record_id (chunk_from_str name) chunk_empty)
           source) ;;;
      enumerate_installed rest
  end.

(** [this->db] is the database [d]; the caller has checked it. *)
Definition retrieve_inventory (d : database_t) (targets : swima_inventory_t)
  : M status_t :=
  log (act_db_query q_installed) ;;;
  match query_installed d with
  | None => ret FAILED
  | Some rows => enumerate_installed rows ;;; ret SUCCESS
  end.

Definition event_of_row (r : event_row) : swima_event_t :=
  let eid := uint32_of_db (q_eid r) in
  let record_id := uint32_of_db (q_record_id r) in
  let source := uint32_of_db (q_source r) in
  let action := uint32_of_db (q_action r) in
  swima_event_create eid (chunk_from_str (q_timestamp r)) action
    (set_source_id
       (swima_record_create record_id (chunk_from_str (q_name r))
          chunk_empty)
       source).

Fixpoint enumerate_events (rows : list event_row) : M unit :=
  match rows with
  | [] => ret tt
  | r :: rest => events_add (event_of_row r) ;;; enumerate_events rest
  end.

Definition retrieve_events (d : database_t) (targets : swima_inventory_t)
  : M status_t :=
  let earliest_eid := inv_get_eid targets in
  log (act_db_query (q_events earliest_eid)) ;;;
  match query_sw_events d earliest_eid with
  | None => ret FAILED
  | Some rows => enumerate_events rows ;;; ret SUCCESS
  end.

(** ** [generate_tags] *)

Definition doc_separator : list ascii := lit "'" ++ [LF; LF] ++ lit "'".

Definition flag (b : bool) (text : list ascii) : list ascii :=
  if b then text else [].

(** The loop over the targets; [status] is [SUCCESS] when it ends. *)
Fixpoint generate_target_tags (host : host_t) (generator : list ascii)
  (pretty full : bool) (targets : list swima_record_t) : M status_t :=
  match targets with
  | [] => ret SUCCESS
  | target :: rest =>
      let swid := sw_id target in
      let command :=
        snprintf (BUF_LEN host)
          (fmt_s generator ++ lit " swid --software-id "
             ++ fmt_s_prec (length swid) swid
             ++ flag pretty (lit " --pretty") ++ flag full (lit " --full")) in
      log (act_popen command) ;;;
      match popen host command with
      | None => ret NOT_SUPPORTED
      | Some file =>
          status <- read_swid_tags host file ;;
          if negb (status_eqb status SUCCESS) then ret status
          else generate_target_tags host generator pretty full rest
      end
  end.

Definition generate_tags (host : host_t) (generator : list ascii)
  (targets : swima_inventory_t) (pretty full : bool) : M status_t :=
  t <- get_this ;;
  if inv_get_count targets =? 0 then
    let command :=
      if sw_id_only t
      then snprintf (BUF_LEN host) (fmt_s generator ++ lit " software-id")
      else snprintf (BUF_LEN host)
             (fmt_s generator ++ lit " swid --doc-separator "
                ++ fmt_s doc_separator
                ++ flag pretty (lit " --pretty") ++ flag full (lit " --full"))
    in
    log (act_popen command) ;;;
    match popen host command with
    | None => ret NOT_SUPPORTED
    | Some file =>
        if sw_id_only t then read_swid_tag_ids host file
        else read_swid_tags host file
    end
  else if negb (sw_id_only t) then
    generate_target_tags host generator pretty full (inv_list targets)
  else ret SUCCESS.

(** ** [collect_tags] *)

Definition node_name (n : fs_node) : list ascii :=
  match n with
  | Regular name _ => name
  | Directory name _ _ => name
  end.

Definition node_mapped (n : fs_node) : option chunk_t :=
  match n with
  | Regular _ m => m
  | Directory _ _ m => m
  end.

(** [S_ISDIR(st.st_mode)] *)
Definition S_ISDIR (n : fs_node) : bool :=
  match n with
  | Regular _ _ => false
  | Directory _ _ _ => true
  end.

(** Modelled from the spec: the directory enumerator is not part of this
    file; the entry's absolute path is the path of the directory as a C
    string, a slash unless that path ends in one already, and the entry's
    name. *)
Definition abs_name_of (pathname rel_name : list ascii) : list ascii :=
  let full := c_str pathname in
  (if Ascii.eqb (last full NUL) "/" then full else full ++ lit "/")
    ++ c_str rel_name.

Definition skipped (abs_name : list ascii) : bool :=
  existsb (fun d => streq abs_name d) skip_directories.

Definition matches_target (targets : swima_inventory_t) (swid : chunk_t)
  : bool :=
  existsb (fun target => chunk_equals (sw_id target) swid) (inv_list targets).

Definition collector_record (sw_id_only : bool) (pathname : list ascii)
  (swid swid_tag : chunk_t) : swima_record_t :=
  let sw_locator :=
    match strstr (c_str pathname) (lit "/swidtag") with
    | Some pos => firstn (length (c_str pathname) - length pos) pathname
    | None => chunk_empty
    end in
  let sw_record :=
    set_source_id (swima_record_create 0 swid sw_locator)
      SOURCE_ID_COLLECTOR in
  if negb sw_id_only then set_record sw_record swid_tag else sw_record.

(** The part of the loop body below the directory block.  [true] stands
    for reaching the next entry ([continue] or the end of the body),
    [false] for the jump to [end]. *)
Definition collect_tag_file (pathname : list ascii) (entry : fs_node)
  (targets : swima_inventory_t) (is_swidtag_dir : bool) : M bool :=
  if negb is_swidtag_dir then ret true
  else
    match strstr (c_str (node_name entry)) (lit ".swidtag") with
    | None => ret true
    | Some _ =>
        let abs_name := abs_name_of pathname (node_name entry) in
        log (act_chunk_map abs_name) ;;;
        match node_mapped entry with
        | None => ret false
        | Some swid_tag =>
            match extract_sw_id swid_tag with
            | (SUCCESS, swid) =>
                if negb (inv_get_count targets =? 0)
                   && negb (matches_target targets swid)
                then ret true
                else
                  t <- get_this ;;
                  inventory_add
                    (collector_record (sw_id_only t) pathname swid swid_tag) ;;;
                  ret true
            | (_, _) => ret false
            end
        end
    end.

Section Enumerate.
(** [descend entry abs_name mode] is the recursive call. *)
Variable descend : fs_node -> list ascii -> bool -> M bool.
Variable pathname : list ascii.
Variable targets : swima_inventory_t.
Variable is_swidtag_dir : bool.

(** The [while (enumerator->enumerate(...))] loop; the result is
    [success]. *)
Fixpoint enumerate_entries (entries : list fs_node) : M bool :=
  match entries with
  | [] => ret true
  | entry :: rest =>
      let rel_name := node_name entry in
      let abs_name := abs_name_of pathname rel_name in
      if S_ISDIR entry && skipped abs_name then enumerate_entries rest
      else
        ok <- (if S_ISDIR entry
               then descend entry abs_name
                      (is_swidtag_dir || streq rel_name (lit "swidtag"))
               else ret true) ;;
        if negb ok then ret false
        else
          ok <- collect_tag_file pathname entry targets is_swidtag_dir ;;
          if negb ok then ret false else enumerate_entries rest
  end.
End Enumerate.

(** [node] is what [pathname] names on the host. *)
Fixpoint collect_tags (node : fs_node) (pathname : option (list ascii))
  (targets : swima_inventory_t) (is_swidtag_dir : bool) {struct node}
  : M bool :=
  match pathname with
  | None => ret true
  | Some pathname =>
      log (act_collect_tags pathname is_swidtag_dir) ;;;
      match node with
      | Directory _ (Some entries) _ =>
          enumerate_entries
            (fun entry abs_name mode =>
               collect_tags entry (Some abs_name) targets mode)
            pathname targets is_swidtag_dir entries
      | _ => ret false
      end
  end.

(** ** The two public operations *)

(** [this->sw_id_only = sw_id_only] *)
Definition set_sw_id_only (only : bool) : M unit :=
  fun st =>
    let t := this st in
    (tt, {| this := {| sw_id_only := only; db := db t;
                       inventory := inventory t; events := events t |};
            trace := trace st |}).

(** [this->inventory->clear(this->inventory)] *)
Definition inventory_clear : M unit :=
  fun st =>
    let t := this st in
    (tt, {| this := {| sw_id_only := sw_id_only t; db := db t;
                       inventory := inv_clear (inventory t);
                       events := events t |};
            trace := trace st |}).

(** [this->events->clear(this->events)] *)
Definition events_clear : M unit :=
  fun st =>
    let t := this st in
    (tt, {| this := {| sw_id_only := sw_id_only t; db := db t;
                       inventory := inventory t;
                       events := evs_clear (events t) |};
            trace := trace st |}).

Definition collect_inventory (host : host_t) (only : bool)
  (targets : swima_inventory_t) : M (option swima_inventory_t) :=
  let directory := conf_swid_directory host in
  let generator :=
    match conf_swid_generator host with
    | Some g => g
    | None => SWID_GENERATOR
    end in
  let pretty := conf_swid_pretty host in
  let full := conf_swid_full host in
  set_sw_id_only only ;;;
  inventory_clear ;;;
  t <- get_this ;;
  status <- match only, db t with
            | true, Some d => retrieve_inventory d targets
            | _, _ => generate_tags host generator targets pretty full
            end ;;
  collect_tags (fs_root host) directory targets false ;;;
  t <- get_this ;;
  ret (if status_eqb status SUCCESS then Some (inventory t) else None).

Definition collect_events (only : bool) (targets : swima_inventory_t)
  : M (option swima_events_t) :=
  t <- get_this ;;
  match only, db t with
  | true, Some d =>
      set_sw_id_only only ;;;
      events_clear ;;;
      status <- retrieve_events d targets ;;
      t <- get_this ;;
      ret (if status_eqb status SUCCESS then Some (events t) else None)
  | _, _ => ret None
  end.

(** ** [swima_collector_create] *)

(** What the constructor consults: the two settings it reads and the
    database plugin behind [lib->db->create], which yields a connection or
    NULL for a connection string. *)
Record create_env_t : Type := {
  conf_swid_database : option (list ascii);
  conf_eid_epoch : option Z;
  db_create : list ascii -> option database_t
}.

(** An [int] stored into a [uint32_t]. *)
Definition uint32_of_int (z : Z) : N := Z.to_N (z mod 2 ^ 32).

(** [SELECT id, epoch FROM events ORDER BY timestamp DESC] *)
Definition latest_first (a b : events_row) : bool :=
  text_leb (e_timestamp b) (e_timestamp a).

Definition query_last_event (d : database_t) : option (list (N * N)) :=
  match tbl_events d with
  | None => None
  | Some es => Some (map (fun e => (e_id e, e_epoch e))
                       (order_by latest_first es))
  end.

(** Modelled from the spec: a new inventory or event log is empty;
    [set_eid] stores the watermark. *)
Definition swima_inventory_create : swima_inventory_t :=
  {| inv_list := []; inv_last_eid := 0; inv_eid_epoch := 0 |}.

Definition inv_set_eid (i : swima_inventory_t) (eid epoch : N)
  : swima_inventory_t :=
  {| inv_list := inv_list i; inv_last_eid := eid; inv_eid_epoch := epoch |}.

Definition swima_events_create : swima_events_t :=
  {| evs_list := []; evs_last_eid := 0; evs_eid_epoch := 0 |}.

Definition evs_set_eid (e : swima_events_t) (eid epoch : N) : swima_events_t :=
  {| evs_list := evs_list e; evs_last_eid := eid; evs_eid_epoch := epoch |}.

(** The database the collector keeps, with the last event id and the
    epoch read from it; without one, the values the two variables were
    initialised with. *)
Definition attach_database (env : create_env_t)
  : option database_t * N * N :=
  let last_eid := 1%N in
  let eid_epoch := 287454020%N in
  match conf_swid_database env with
  | Some database =>
      match db_create env database with
      | Some d =>
          match query_last_event d with
          | Some ((id, epoch) :: _) =>
              (Some d, uint32_of_db id, uint32_of_db epoch)
          | _ => (None, last_eid, eid_epoch)
          end
      | None => (None, last_eid, eid_epoch)
      end
  | None => (None, last_eid, eid_epoch)
  end.

Definition swima_collector_create (env : create_env_t)
  : private_swima_collector_t :=
  let '(d, last_eid, eid_epoch) := attach_database env in
  let eid_epoch :=
    match d with
    | Some _ => eid_epoch
    | None =>
        match conf_eid_epoch env with
        | Some z => uint32_of_int z
        | None => uint32_of_int (Z.of_N eid_epoch)
        end
    end in
  {| sw_id_only := false; db := d;
     inventory := inv_set_eid swima_inventory_create last_eid eid_epoch;
     events := evs_set_eid swima_events_create last_eid eid_epoch |}.

End Swima.

Module Gmalg.

(** ** [gmalg_ec_diffie_hellman.c]

    The key length [ECCref_MAX_LEN] and the key structures come from the
    header of the device library; the length is a parameter.  A chunk is a
    pointer and a length: [ptr i] is the byte found [i] places after the
    pointer, whatever [len] says.  The group and the device handle play no
    part in [set_private_key] and are left out. *)

Record chunk_t : Type := {
  ptr : nat -> ascii;
  len : nat
}.

Record ECCrefPublicKey : Type := { x : list ascii; y : list ascii }.
Record ECCrefPrivateKey : Type := { K : list ascii }.

Record private_gmalg_ec_diffie_hellman_t : Type := {
  shared_secret : list ascii;
  pubKey : ECCrefPublicKey;
  priKey : ECCrefPrivateKey;
  otherPubKey : ECCrefPublicKey;
  computed : bool
}.

(** [memcpy(dst, src, n)]: the first [n] bytes of [dst] are replaced. *)
Definition memcpy (dst : list ascii) (src : nat -> ascii) (n : nat)
  : list ascii :=
  map src (seq 0 n) ++ skipn n dst.

Section KeyLength.
Variable ECCref_MAX_LEN : nat.

(** The result is the returned [bool], the object after the call and the
    lines written with [DBG1]. *)
Definition set_private_key (this : private_gmalg_ec_diffie_hellman_t)
  (value : chunk_t)
  : bool * private_gmalg_ec_diffie_hellman_t * list string :=
  let ret := false in
  let dbg :=
    if negb (len value =? ECCref_MAX_LEN)
    then ["SM2 set private value failed"%string] else [] in
  let this' :=
    {| shared_secret := shared_secret this;
       pubKey := pubKey this;
       priKey :=
         {| K := memcpy (K (priKey this)) (ptr value) ECCref_MAX_LEN |};
       otherPubKey := otherPubKey this;
       computed := computed this |} in
  (ret, this', dbg).
End KeyLength.

(** A key exchange object with an all-zero private key of 32 bytes, and a
    value of 32 bytes. *)
Definition sample_object : private_gmalg_ec_diffie_hellman_t :=
  {| shared_secret := [];
     pubKey := {| x := repeat "000"%char 32; y := repeat "000"%char 32 |};
     priKey := {| K := repeat "000"%char 32 |};
     otherPubKey := {| x := repeat "000"%char 32;
                       y := repeat "000"%char 32 |};
     computed := false |}.

Definition sample_key : chunk_t := {| ptr := fun _ => "*"%char; len := 32 |}.

(** ** The other methods of the key exchange

    The device library is a parameter: the handle [GMALG_OpenDevice]
    stores, the key pair [GMALG_GenerateKeyPair_ECC] leaves in the two key
    structures it is given, and the point [GMALG_pointMul_ECC] leaves in
    its last argument.  None of the three results is checked by the
    file. *)

(** [n] bytes read from an array. *)
Definition read_array (a : list ascii) (n : nat) : list ascii :=
  map (fun i => nth i a "000"%char) (seq 0 n).

Section KeyExchange.
Variable ECCref_MAX_LEN : nat.
Variable CURVE_SM2 : N.
Variable handle_t : Type.
Variable GMALG_OpenDevice : handle_t.
Variable GMALG_GenerateKeyPair_ECC :
  handle_t -> ECCrefPublicKey -> ECCrefPrivateKey ->
  ECCrefPublicKey * ECCrefPrivateKey.
Variable GMALG_pointMul_ECC :
  handle_t -> ECCrefPublicKey -> ECCrefPrivateKey -> ECCrefPublicKey.

(** The whole object: the group, the device handle, and the fields
    [set_private_key] works on. *)
Record ke_t : Type := {
  group : N;
  hDeviceHandle : handle_t;
  fields : private_gmalg_ec_diffie_hellman_t
}.

Definition with_fields (this : ke_t) (f : private_gmalg_ec_diffie_hellman_t)
  : ke_t :=
  {| group := group this; hDeviceHandle := hDeviceHandle this; fields := f |}.

(** The result is the returned [bool] and the chunk stored through
    [shared_secret]. *)
Definition compute_shared_key (this : ke_t) : bool * list ascii :=
  let P := GMALG_pointMul_ECC (hDeviceHandle this)
             (otherPubKey (fields this)) (priKey (fields this)) in
  let ret := true in
  (ret, read_array (x P) ECCref_MAX_LEN ++ read_array (y P) ECCref_MAX_LEN).

Definition set_public_key (this : ke_t) (value : chunk_t) : bool * ke_t :=
  let f := fields this in
  let other :=
    {| x := memcpy (x (otherPubKey f)) (ptr value) ECCref_MAX_LEN;
       y := memcpy (y (otherPubKey f))
              (fun i => ptr value (ECCref_MAX_LEN + i)) ECCref_MAX_LEN |} in
  let this1 :=
    with_fields this
      {| shared_secret := []; pubKey := pubKey f; priKey := priKey f;
         otherPubKey := other; computed := computed f |} in
  let (ok, secret) := compute_shared_key this1 in
  let this2 :=
    with_fields this
      {| shared_secret := secret; pubKey := pubKey f; priKey := priKey f;
         otherPubKey := other; computed := computed f |} in
  if negb ok then (false, this2)
  else
    (true,
     with_fields this
       {| shared_secret := secret; pubKey := pubKey f; priKey := priKey f;
          otherPubKey := other; computed := true |}).

Definition get_public_key (this : ke_t) : bool * list ascii :=
  (true,
   read_array (x (pubKey (fields this))) ECCref_MAX_LEN
     ++ read_array (y (pubKey (fields this))) ECCref_MAX_LEN).

(** [set_private_key] on the whole object. *)
Definition set_private_key_of (this : ke_t) (value : chunk_t)
  : bool * ke_t :=
  let '(ret, f, _) := set_private_key ECCref_MAX_LEN (fields this) value in
  (ret, with_fields this f).

(** Nothing is stored through [secret] when the result is [FALSE], shown
    as the empty chunk. *)
Definition get_shared_secret (this : ke_t) : bool * list ascii :=
  if negb (computed (fields this)) then (false, [])
  else (true, shared_secret (fields this)).

Definition get_method (this : ke_t) : N := group this.

(** The object [INIT] leaves: every byte zero. *)
Definition zeroed_public : ECCrefPublicKey :=
  {| x := repeat "000"%char ECCref_MAX_LEN;
     y := repeat "000"%char ECCref_MAX_LEN |}.
Definition zeroed_private : ECCrefPrivateKey :=
  {| K := repeat "000"%char ECCref_MAX_LEN |}.

(** [None] stands for NULL. *)
Definition gmalg_ec_diffie_hellman_create (g : N) : option ke_t :=
  if negb (N.eqb g CURVE_SM2) then None
  else
    let h := GMALG_OpenDevice in
    let (pub, pri) :=
      GMALG_GenerateKeyPair_ECC h zeroed_public zeroed_private in
    Some {| group := g; hDeviceHandle := h;
            fields := {| shared_secret := []; pubKey := pub; priKey := pri;
                         otherPubKey := zeroed_public;
                         computed := false |} |}.
End KeyExchange.

End Gmalg.

(** * Vocabulary of the statements *)

Import Swima.

(** The byte [c] does not occur in [s]. *)
Definition free_of (c : ascii) (s : list ascii) : bool :=
  negb (existsb (Ascii.eqb c) s).

Definition nul_free (s : list ascii) : bool := free_of NUL s.
Definition quote_free (s : list ascii) : bool := free_of DQUOTE s.

(** [needle] occurs somewhere in [s]. *)
Definition occursb (needle s : list ascii) : bool :=
  existsb (fun i => is_prefix needle (skipn i s)) (seq 0 (S (length s))).

Definition occurs (needle s : list ascii) : Prop :=
  exists a b, s = a ++ needle ++ b.

Definition prefix_of (h s : list ascii) : Prop := exists t, s = h ++ t.

(** The two attribute tokens. *)
Definition TAGID : list ascii := lit "tagId=" ++ [DQUOTE].
Definition REGID : list ascii := lit "regid=" ++ [DQUOTE].

(** A tag text in which the value [T] follows a [tagId] token and, after
    its closing quote, the value [R] follows a [regid] token. *)
Definition tag_text (pre T mid R post : list ascii) : list ascii :=
  pre ++ TAGID ++ T ++ DQUOTE :: mid ++ REGID ++ R ++ DQUOTE :: post.

(** [st] after the records and the calls have been appended to the
    inventory and to the trace; nothing else changes. *)
Definition push (st : state) (records : list swima_record_t)
  (calls : list action) : state :=
  {| this :=
       {| sw_id_only := sw_id_only (this st);
          db := db (this st);
          inventory :=
            {| inv_list := inv_list (inventory (this st)) ++ records;
               inv_last_eid := inv_last_eid (inventory (this st));
               inv_eid_epoch := inv_eid_epoch (inventory (this st)) |};
          events := events (this st) |};
     trace := trace st ++ calls |}.

(** The lines that successive calls of [fgets] with a buffer of [size]
    bytes deliver. *)
Fixpoint fgets_lines (size fuel : nat) (file : list ascii)
  : list (list ascii) :=
  match fuel with
  | 0 => []
  | S fuel' =>
      match fgets size file with
      | None => []
      | Some (line, file') => line :: fgets_lines size fuel' file'
      end
  end.

Definition lines_read (size : nat) (file : list ascii) : list (list ascii) :=
  fgets_lines size (length file) file.

(** A line without its line feed, if it ends in one. *)
Definition chomp (s : list ascii) : list ascii :=
  match s with
  | [] => []
  | _ :: _ => if Ascii.eqb (last s NUL) LF then removelast s else s
  end.

(** The record of an identifier the generator printed. *)
Definition id_record (swid : chunk_t) : swima_record_t :=
  {| record_id := 0; sw_id := swid; sw_locator := chunk_empty;
     source_id := SOURCE_ID_GENERATOR; record := chunk_empty |}.

(** A line of text that fits the buffer together with its line feed and
    the terminator. *)
Definition text_line (size : nat) (l : list ascii) : Prop :=
  free_of LF l = true /\ nul_free l = true /\ length l + 2 <= size.

(** The stream in which every line is followed by a line feed. *)
Definition unlines (ls : list (list ascii)) : list ascii :=
  concat (map (fun l => l ++ [LF]) ls).

(** No line feed of [s] directly follows a line feed; [after_lf] tells
    whether a line feed, or the start of a document, precedes [s]. *)
Fixpoint no_blank (after_lf : bool) (s : list ascii) : bool :=
  match s with
  | [] => true
  | c :: rest =>
      if Ascii.eqb c LF then negb after_lf && no_blank true rest
      else no_blank false rest
  end.

(** A tag document as the generator prints it: text without NUL that has
    no empty line once its line terminator is added (so it is not empty,
    does not start or end with a line feed and has no two line feeds in a
    row), longer than one byte, from which an identifier can be extracted. *)
Definition tag_document (d : list ascii) : Prop :=
  nul_free d = true /\ no_blank true (d ++ [LF]) = true /\
  1 < length d /\ fst (extract_sw_id d) = SUCCESS.


(** A line of text of any length. *)
Definition plain_line (l : list ascii) : Prop :=
  free_of LF l = true /\ nul_free l = true.

(** The record [read_swid_tags] makes of a document. *)
Definition tag_record (d : list ascii) : swima_record_t :=
  {| record_id := 0; sw_id := snd (extract_sw_id d);
     sw_locator := chunk_empty; source_id := SOURCE_ID_GENERATOR;
     record := d |}.

(** A document with the number of empty lines that follow the empty line
    after it. *)
Definition spaced_document : Type := (list ascii * nat)%type.

(** The boundary after a document: its line feed, an empty line, and
    [more] further empty lines. *)
Definition boundary (more : nat) : list ascii := LF :: LF :: repeat LF more.


(** The documents, each followed by a boundary. *)
Definition separated (docs : list spaced_document) : list ascii :=
  concat (map (fun d => fst d ++ boundary (snd d)) docs).

(** What [add_swid_tag] does with the text [d] that is left when the line
    feed that may end the buffer is gone. *)
Definition added (d : list ascii) (st : state) : status_t * state :=
  match extract_sw_id d with
  | (SUCCESS, swid) => (SUCCESS, push st [generator_record swid d] [])
  | (status, _) => (status, st)
  end.

(** ** The walker *)

(** The records a targeted request keeps. *)
Definition keep (targets : swima_inventory_t) (rs : list swima_record_t)
  : list swima_record_t :=
  if inv_get_count targets =? 0 then rs
  else filter (fun r => matches_target targets (sw_id r)) rs.

(** Two states whose collectors agree on [sw_id_only]. *)
Definition tied (st1 st2 : state) : Prop :=
  sw_id_only (this st1) = sw_id_only (this st2).

(** The path of the entry reached from [root] through [names]. *)
Definition descend_path (root : list ascii) (names : list (list ascii))
  : list ascii :=
  fold_left abs_name_of names root.

Definition named_swidtag (name : list ascii) : bool :=
  streq name (lit "swidtag").

(** [names] are the names of nested entries of [node], outermost first. *)
Inductive leads_to : fs_node -> list (list ascii) -> Prop :=
| leads_here node : leads_to node []
| leads_below name entries m entry names :
    In entry entries -> leads_to entry names ->
    leads_to (Directory name (Some entries) m) (node_name entry :: names).

(** A call of [collect_tags] made during the walk of [node], which is
    found at [root], is a call on an entry nested in [node], and its mode
    is the mode of the walk's first call, or [true] if an entry on the
    way is named [swidtag]. *)
Definition mode_inherited (node : fs_node) (root : list ascii) (mode : bool)
  (a : action) : Prop :=
  match a with
  | act_collect_tags pathname m =>
      exists names,
        leads_to node names /\
        pathname = descend_path root names /\
        m = mode || existsb named_swidtag names
  | _ => True
  end.

(** What is shown of the walk of a node by induction on the tree: the
    walk only appends records and calls, a targeted walk makes the same
    calls and has the same result as the walk without targets and keeps
    the records that match a target, and every call has the mode its path
    gives it. *)
Definition walk_spec (node : fs_node) : Prop :=
  forall root targets0 targets mode st1 st2,
    inv_list targets0 = [] -> tied st1 st2 ->
    exists ok rs cs,
      collect_tags node (Some root) targets0 mode st1 = (ok, push st1 rs cs) /\
      collect_tags node (Some root) targets mode st2
        = (ok, push st2 (keep targets rs) cs) /\
      Forall (mode_inherited node root mode) cs.

Section TreeInduction.
Variable P : fs_node -> Prop.
Hypothesis Hregular : forall name m, P (Regular name m).
Hypothesis Hclosed : forall name m, P (Directory name None m).
Hypothesis Hopened :
  forall name entries m,
    Forall P entries -> P (Directory name (Some entries) m).

Fixpoint fs_node_induction (node : fs_node) : P node :=
  match node with
  | Regular name m => Hregular name m
  | Directory name None m => Hclosed name m
  | Directory name (Some entries) m =>
      Hopened name m
        ((fix all (l : list fs_node) : Forall P l :=
            match l with
            | [] => Forall_nil P
            | e :: l' => Forall_cons e (fs_node_induction e) (all l')
            end) entries)
  end.
End TreeInduction.

(** An action is a call of [collect_tags] in tag mode, or another call. *)
Definition in_tag_mode (a : action) : Prop :=
  match a with
  | act_collect_tags _ m => m = true
  | _ => True
  end.

(** A regular file the walker takes for a tag in tag mode: its name
    contains [.swidtag], it can be mapped and an identifier can be
    extracted from it. *)
Definition tag_file (entry : fs_node) : Prop :=
  match entry with
  | Regular name (Some content) =>
      strstr (c_str name) (lit ".swidtag") <> None /\
      fst (extract_sw_id content) = SUCCESS
  | _ => False
  end.

(** A regular file with [.swidtag] in its name that cannot be mapped or
    from which no identifier can be extracted. *)
Definition broken_tag_file (entry : fs_node) : Prop :=
  match entry with
  | Regular name mapped =>
      strstr (c_str name) (lit ".swidtag") <> None /\
      match mapped with
      | None => True
      | Some content => fst (extract_sw_id content) <> SUCCESS
      end
  | Directory _ _ _ => False
  end.

(** The record the walker makes of a tag file found in [pathname]. *)
Definition file_record (only : bool) (pathname : list ascii)
  (entry : fs_node) : swima_record_t :=
  match node_mapped entry with
  | Some content =>
      collector_record only pathname (snd (extract_sw_id content)) content
  | None => collector_record only pathname chunk_empty chunk_empty
  end.

Definition chunk_map_call (pathname : list ascii) (entry : fs_node) : action :=
  act_chunk_map (abs_name_of pathname (node_name entry)).

(** ** The orchestrator *)

(** The command [generate_tags] runs for a target. *)
Definition target_command (host : host_t) (generator : list ascii)
  (pretty full : bool) (target : swima_record_t) : list ascii :=
  snprintf (BUF_LEN host)
    (fmt_s generator ++ lit " swid --software-id "
       ++ fmt_s_prec (length (sw_id target)) (sw_id target)
       ++ flag pretty (lit " --pretty") ++ flag full (lit " --full")).

Definition popen_call (a : action) : Prop :=
  match a with
  | act_popen _ => True
  | _ => False
  end.

(** The configured generator, or the default one. *)
Definition generator_of (host : host_t) : list ascii :=
  match conf_swid_generator host with
  | Some g => g
  | None => SWID_GENERATOR
  end.

(** The state [collect_inventory] starts from: the request's mode is
    stored and the inventory is empty. *)
Definition restarted (only : bool) (st : state) : state :=
  {| this := {| sw_id_only := only; db := db (this st);
                inventory := inv_clear (inventory (this st));
                events := events (this st) |};
     trace := trace st |}.

(** Source 1 in the words of the specification: the query of the store
    when identifiers only are requested and a store is connected, the
    generator otherwise. *)
Definition source_1 (host : host_t) (only : bool)
  (targets : swima_inventory_t) : M status_t :=
  fun st =>
    match db (this st) with
    | Some d =>
        if only then retrieve_inventory d targets st
        else generate_tags host (generator_of host) targets
               (conf_swid_pretty host) (conf_swid_full host) st
    | None =>
        generate_tags host (generator_of host) targets
          (conf_swid_pretty host) (conf_swid_full host) st
    end.

(** The record of a row of the inventory query. *)
Definition installed_record (row : N * list ascii * N) : swima_record_t :=
  let '(id, name, source) := row in
  {| record_id := uint32_of_db id; sw_id := c_str name;
     sw_locator := chunk_empty;
     source_id := uint32_of_db source; record := chunk_empty |}.

Definition store_connected (st : state) : bool :=
  match db (this st) with
  | Some _ => true
  | None => false
  end.

(** ** Events *)

(** The order a comparison function decides. *)
Definition ordered_by (row : Type) (leb : row -> row -> bool) (a b : row)
  : Prop :=
  leb a b = true.



(** A value of the store that a [uint32_t] holds unchanged. *)
Definition fits_uint32 (n : N) : Prop := (n < 2 ^ 32)%N.



(** ** Sample values *)

(** A host without configuration, commands or files, and a collector
    fresh from [swima_collector_create] without a database. *)
Definition bare_host : host_t :=
  {| conf_swid_directory := None; conf_swid_generator := None;
     conf_swid_pretty := false; conf_swid_full := false;
     BUF_LEN := 512; popen := fun _ => None;
     fs_root := Directory [] None None; stack_byte := NUL |}.

Definition fresh_collector : private_swima_collector_t :=
  {| sw_id_only := false; db := None;
     inventory := {| inv_list := []; inv_last_eid := 1;
                     inv_eid_epoch := 287454020 |};
     events := {| evs_list := []; evs_last_eid := 1;
                  evs_eid_epoch := 287454020 |} |}.

Definition fresh : state := {| this := fresh_collector; trace := [] |}.

Definition no_targets : swima_inventory_t :=
  {| inv_list := []; inv_last_eid := 0; inv_eid_epoch := 0 |}.

(** [<a tagId="T1" regid="R"/>] and [<b tagId="T2" regid="R"/>], the
    second over two lines. *)
Definition sample_tag_1 : list ascii :=
  tag_text (lit "<a ") (lit "T1") (lit " ") (lit "R") (lit "/>").
Definition sample_tag_2 : list ascii :=
  tag_text (lit "<b ") (lit "T2") [LF] (lit "R") (lit "/>").

(** The tree [root/a/swidtag/x.swidtag], [root/b/y.swidtag]. *)
Definition sample_tree : fs_node :=
  Directory (lit "root")
    (Some [ Directory (lit "a")
              (Some [ Directory (lit "swidtag")
                        (Some [ Regular (lit "x.swidtag")
                                  (Some sample_tag_1) ])
                        None ])
              None;
            Directory (lit "b")
              (Some [ Regular (lit "y.swidtag") (Some sample_tag_2) ])
              None ])
    None.

(** A [swidtag] directory with the tags [R__T1] and [R__T2]. *)
Definition sample_swidtag_dir : fs_node :=
  Directory (lit "swidtag")
    (Some [ Regular (lit "one.swidtag") (Some sample_tag_1);
            Regular (lit "two.swidtag") (Some sample_tag_2) ])
    None.

Definition targets_of (ids : list chunk_t) : swima_inventory_t :=
  {| inv_list := map (fun i => swima_record_create 0 i chunk_empty) ids;
     inv_last_eid := 0; inv_eid_epoch := 0 |}.

(** A directory [top] that holds the sample [swidtag] directory. *)
Definition sample_top : fs_node :=
  Directory (lit "top") (Some [sample_swidtag_dir]) None.

(** Text that looks like a document and holds no identifier. *)
Definition sample_broken : list ascii := lit "<broken/>".


Definition sample_connected (d : database_t) : state :=
  {| this := {| sw_id_only := false; db := Some d;
                inventory := inventory fresh_collector;
                events := events fresh_collector |};
     trace := [] |}.

(** Two installations and a removal, recorded out of order. *)
Definition sample_db : database_t :=
  {| tbl_sw_identifiers :=
       Some [ {| i_id := 1; i_name := lit "R__T1"; i_source := 1;
                 i_installed := 1 |};
              {| i_id := 2; i_name := lit "R__T2"; i_source := 1;
                 i_installed := 0 |} ];
     tbl_events :=
       Some [ {| e_id := 1; e_timestamp := lit "2017-05-01T10:00:00Z";
                 e_epoch := 7 |};
              {| e_id := 2; e_timestamp := lit "2017-05-02T10:00:00Z";
                 e_epoch := 7 |};
              {| e_id := 3; e_timestamp := lit "2017-05-03T10:00:00Z";
                 e_epoch := 7 |} ];
     tbl_sw_events :=
       Some [ {| s_eid := 3; s_sw_id := 2; s_action := 2 |};
              {| s_eid := 1; s_sw_id := 1; s_action := 1 |};
              {| s_eid := 2; s_sw_id := 2; s_action := 1 |} ] |}.

(** Targets that carry the watermark [eid] and name no software. *)
Definition targets_of_eid (eid : N) : swima_inventory_t :=
  {| inv_list := []; inv_last_eid := eid; inv_eid_epoch := 0 |}.

(** A store whose numbers need more than 32 bits: the identifier has the
    id [2^32 + 2] and the source [2^32 + 3], the single event the id
    [2^32 + 1] and the epoch [2^32 + 7]. *)
Definition sample_db_wide : database_t :=
  {| tbl_sw_identifiers :=
       Some [ {| i_id := 4294967298; i_name := lit "R__T1";
                 i_source := 4294967299; i_installed := 1 |} ];
     tbl_events :=
       Some [ {| e_id := 4294967297;
                 e_timestamp := lit "2017-05-01T10:00:00Z";
                 e_epoch := 4294967303 |} ];
     tbl_sw_events :=
       Some [ {| s_eid := 4294967297; s_sw_id := 4294967298;
                 s_action := 1 |} ] |}.

(** ** Further vocabulary *)

(** The bytes [extract_sw_id] looks at: the first 1023, up to a NUL. *)
Definition searched (s : list ascii) : list ascii := c_str (firstn 1023 s).

(** A directory named [swidtag] lies somewhere below [node]. *)
Fixpoint has_swidtag (node : fs_node) : bool :=
  match node with
  | Directory _ (Some entries) _ =>
      existsb (fun e => (S_ISDIR e && named_swidtag (node_name e))
                        || has_swidtag e)
        entries
  | _ => false
  end.

(** A record as the walker makes it: not persisted, from the collector,
    without the tag when identifiers only are requested, and with an
    identifier that holds the two underscores. *)
Definition collector_made (only : bool) (r : swima_record_t) : Prop :=
  record_id r = 0%N /\ source_id r = SOURCE_ID_COLLECTOR /\
  (only = true -> record r = chunk_empty) /\
  occurs (lit "__") (sw_id r).

(** A call the walk may make when it started at [root]: [collect_tags] on
    the root or on a path that is not excluded, and [chunk_map] on an entry
    of such a directory. *)
Definition visit_allowed (root : list ascii) (a : action) : Prop :=
  match a with
  | act_collect_tags p _ => p = root \/ skipped p = false
  | act_chunk_map p =>
      exists dir name,
        p = abs_name_of dir name /\ (dir = root \/ skipped dir = false)
  | _ => False
  end.

(** The path of a directory as the enumerator keeps it: the C string,
    with a slash at its end. *)
Definition with_slash (p : list ascii) : list ascii :=
  if Ascii.eqb (last (c_str p) NUL) "/" then c_str p
  else c_str p ++ lit "/".

(** The path [p] lies below the directory [d]. *)
Definition beneath (d p : list ascii) : Prop := prefix_of (d ++ lit "/") p.

(** A call that does not touch the directory [d]: [collect_tags] on a path
    that is neither [d] nor below it, or [chunk_map] on a path that is not
    below it. *)
Definition outside (d : list ascii) (a : action) : Prop :=
  match a with
  | act_collect_tags p _ => ~ beneath d (c_str p ++ lit "/")
  | act_chunk_map p => ~ beneath d p
  | _ => False
  end.

(** No entry below [node] has a slash in its name. *)
Fixpoint plain_names (node : fs_node) : bool :=
  match node with
  | Directory _ (Some entries) _ =>
      forallb (fun e => free_of "/"%char (node_name e) && plain_names e)
        entries
  | _ => true
  end.


(** The tree [usr/share/doc/swidtag/x.swidtag] below the root. *)
Definition sample_doc_tree : fs_node :=
  Directory []
    (Some [ Directory (lit "usr")
              (Some [ Directory (lit "share")
                        (Some [ Directory (lit "doc")
                                  (Some [ Directory (lit "swidtag")
                                            (Some [ Regular (lit "x.swidtag")
                                                      (Some sample_tag_1) ])
                                            None ])
                                  None ])
                        None ])
              None ])
    None.

Definition collect_call (a : action) : Prop :=
  match a with
  | act_collect_tags _ _ => True
  | _ => False
  end.

(** In every collector whose [sw_id_only] is [only], the computation [m]
    returns [a] and appends the records [rs] and the calls [cs]. *)
Definition appends {A : Type} (only : bool) (m : M A) (a : A)
  (rs : list swima_record_t) (cs : list action) : Prop :=
  forall st, sw_id_only (this st) = only -> m st = (a, push st rs cs).

(** What a second induction on the tree shows of the walk of a node. *)
Definition walk_facts (node : fs_node) : Prop :=
  forall root targets mode only,
  exists ok rs cs,
    appends only (collect_tags node (Some root) targets mode) ok rs cs /\
    Forall (collector_made only) rs /\
    Forall (visit_allowed root) cs /\
    (mode = false -> has_swidtag node = false ->
     rs = [] /\ Forall collect_call cs).

(** What a third induction on the tree shows of the walk of a node with
    respect to the directory [d]. *)
Definition walk_outside (d : list ascii) (node : fs_node) : Prop :=
  plain_names node = true ->
  forall root targets mode only,
    ~ beneath d (c_str root ++ lit "/") ->
    exists ok rs cs,
      appends only (collect_tags node (Some root) targets mode) ok rs cs /\
      Forall (outside d) cs.

(** A record as the generator reader makes it. *)
Definition generator_made (only : bool) (r : swima_record_t) : Prop :=
  record_id r = 0%N /\ source_id r = SOURCE_ID_GENERATOR /\
  sw_locator r = chunk_empty /\
  (only = true -> record r = chunk_empty).

(** A command that was started, and one that could not be. *)
Definition started (host : host_t) (a : action) : Prop :=
  exists command file, a = act_popen command /\ popen host command = Some file.

Definition not_started (host : host_t) (a : action) : Prop :=
  exists command, a = act_popen command /\ popen host command = None.

(** What [generate_tags] returns and leaves behind in a collector whose
    [sw_id_only] is [only]. *)
Definition generated (host : host_t) (only : bool) (status : status_t)
  (rs : list swima_record_t) (cs : list action) : Prop :=
  Forall (generator_made only) rs /\
  (only = true -> status <> NOT_FOUND) /\
  match status with
  | SUCCESS | NOT_FOUND => Forall (started host) cs
  | NOT_SUPPORTED =>
      exists before last,
        cs = before ++ [last] /\ Forall (started host) before /\
        not_started host last
  | FAILED => False
  end.

(** The chunk a peer receives. *)
Definition chunk_of (bytes : list ascii) : Gmalg.chunk_t :=
  {| Gmalg.ptr := fun i => nth i bytes "000"%char;
     Gmalg.len := length bytes |}.

(** Key structures whose arrays have the length of a key. *)
Definition public_sized (n : nat) (k : Gmalg.ECCrefPublicKey) : Prop :=
  length (Gmalg.x k) = n /\ length (Gmalg.y k) = n.

Definition sized (n : nat) (f : Gmalg.private_gmalg_ec_diffie_hellman_t)
  : Prop :=
  public_sized n (Gmalg.pubKey f) /\
  length (Gmalg.K (Gmalg.priKey f)) = n /\
  public_sized n (Gmalg.otherPubKey f).

(** A point as the file encodes it: [n] bytes of [x], then [n] of [y]. *)
Definition encoded (n : nat) (k : Gmalg.ECCrefPublicKey) : list ascii :=
  Gmalg.read_array (Gmalg.x k) n ++ Gmalg.read_array (Gmalg.y k) n.

(** A call other than a query of the store. *)
Definition no_query (a : action) : Prop :=
  match a with
  | act_db_query _ => False
  | _ => True
  end.

(** A collector as the constructor leaves it, with the calls made so far. *)
Definition created (env : create_env_t) (calls : list action) : state :=
  {| this := swima_collector_create env; trace := calls |}.

(** No database is configured; the store of the second environment is the
    sample database. *)
Definition sample_env_bare : create_env_t :=
  {| conf_swid_database := None; conf_eid_epoch := Some (-1)%Z;
     db_create := fun _ => None |}.

Definition sample_env_store : create_env_t :=
  {| conf_swid_database := Some (lit "sqlite:///collector.db");
     conf_eid_epoch := None;
     db_create := fun _ => Some sample_db |}.

Definition sample_env_wide : create_env_t :=
  {| conf_swid_database := Some (lit "sqlite:///collector.db");
     conf_eid_epoch := None;
     db_create := fun _ => Some sample_db_wide |}.

(** A device for the examples: keys of 32 bytes, and a point
    multiplication that returns a fixed point. *)
Definition sample_pair : Gmalg.ECCrefPublicKey * Gmalg.ECCrefPrivateKey :=
  ({| Gmalg.x := repeat "001"%char 32; Gmalg.y := repeat "002"%char 32 |},
   {| Gmalg.K := repeat "003"%char 32 |}).

Definition sample_generate (h : unit) (pub : Gmalg.ECCrefPublicKey)
  (pri : Gmalg.ECCrefPrivateKey)
  : Gmalg.ECCrefPublicKey * Gmalg.ECCrefPrivateKey := sample_pair.

Definition sample_point_mul (h : unit) (pub : Gmalg.ECCrefPublicKey)
  (pri : Gmalg.ECCrefPrivateKey) : Gmalg.ECCrefPublicKey :=
  {| Gmalg.x := repeat "004"%char 32; Gmalg.y := repeat "005"%char 32 |}.

Definition sample_exchange : Gmalg.ke_t unit :=
  {| Gmalg.group := 1; Gmalg.hDeviceHandle := tt;
     Gmalg.fields :=
       {| Gmalg.shared_secret := [];
          Gmalg.pubKey := fst sample_pair; Gmalg.priKey := snd sample_pair;
          Gmalg.otherPubKey := Gmalg.zeroed_public 32;
          Gmalg.computed := false |} |}.

(** The other end of the examples. *)
Definition sample_peer : Gmalg.ke_t unit :=
  {| Gmalg.group := 1; Gmalg.hDeviceHandle := tt;
     Gmalg.fields :=
       {| Gmalg.shared_secret := [];
          Gmalg.pubKey :=
            {| Gmalg.x := repeat "006"%char 32;
               Gmalg.y := repeat "007"%char 32 |};
          Gmalg.priKey := {| Gmalg.K := repeat "008"%char 32 |};
          Gmalg.otherPubKey := Gmalg.zeroed_public 32;
          Gmalg.computed := false |} |}.

(** * Properties *)

(** ** C strings *)

Section CStrings.

Lemma free_of_app c s t :
  free_of c (s ++ t) = free_of c s && free_of c t.
Proof.
  unfold free_of. rewrite existsb_app. now rewrite negb_orb.
Qed.

Lemma free_of_cons c x s :
  free_of c (x :: s) = negb (Ascii.eqb c x) && free_of c s.
Proof. unfold free_of. simpl. now rewrite negb_orb. Qed.

Lemma strlen_app s t :
  nul_free s = true -> strlen (s ++ t) = length s + strlen t.
Proof.
  unfold nul_free. induction s as [|c s IH]; simpl; intros H; auto.
  rewrite free_of_cons in H. apply andb_true_iff in H as [Hc Hs].
  rewrite Ascii.eqb_sym. apply negb_true_iff in Hc. rewrite Hc.
  f_equal. now apply IH.
Qed.

Lemma strlen_nul_free s : nul_free s = true -> strlen s = length s.
Proof.
  intros H. rewrite <- (app_nil_r s) at 1.
  rewrite strlen_app by assumption. simpl. lia.
Qed.

Lemma strlen_le s : strlen s <= length s.
Proof.
  induction s as [|c s IH]; simpl; auto.
  destruct (Ascii.eqb c NUL); lia.
Qed.

Lemma c_str_app s t : nul_free s = true -> c_str (s ++ t) = s ++ c_str t.
Proof.
  intros H. unfold c_str. rewrite strlen_app by assumption.
  now rewrite firstn_app_2.
Qed.

Lemma c_str_nul_free s : nul_free s = true -> c_str s = s.
Proof.
  intros H. unfold c_str. rewrite strlen_nul_free by assumption.
  apply firstn_all.
Qed.

Lemma c_str_prefix s : prefix_of (c_str s) s.
Proof.
  exists (skipn (strlen s) s). unfold c_str.
  now rewrite firstn_skipn.
Qed.

Lemma firstn_prefix n (s : list ascii) : prefix_of (firstn n s) s.
Proof. exists (skipn n s). now rewrite firstn_skipn. Qed.

Lemma prefix_of_trans a b c : prefix_of a b -> prefix_of b c -> prefix_of a c.
Proof.
  intros [t ->] [u ->]. exists (t ++ u). now rewrite app_assoc.
Qed.

Lemma strndup_prefix s n : prefix_of (strndup s n) s.
Proof.
  unfold strndup. eapply prefix_of_trans.
  - apply c_str_prefix.
  - apply firstn_prefix.
Qed.

Lemma prefix_of_app_cases h a b :
  prefix_of h (a ++ b) ->
  (exists t, t <> [] /\ a = h ++ t) \/ (exists x, h = a ++ x /\ prefix_of x b).
Proof.
  intros [t Ht]. apply app_eq_app in Ht as [l [[-> ->]|[-> ->]]].
  - destruct l as [|c l].
    + right. exists []. split; [now rewrite !app_nil_r|now exists b].
    + left. exists (c :: l). split; [discriminate|reflexivity].
  - right. exists l. split; [reflexivity|now exists t].
Qed.

Lemma prefix_of_free c h s :
  prefix_of h s -> free_of c s = true -> free_of c h = true.
Proof.
  intros [t ->]. rewrite free_of_app. intros H.
  now apply andb_true_iff in H as [H _].
Qed.

Lemma is_prefix_true needle hay :
  is_prefix needle hay = true <-> exists r, hay = needle ++ r.
Proof.
  revert hay. induction needle as [|a n IH]; intros hay; simpl.
  - split; [intros _; now exists hay | auto].
  - destruct hay as [|b hay].
    + split; [discriminate | intros [r Hr]; discriminate].
    + rewrite andb_true_iff, IH. split.
      * intros [Hab [r ->]]. apply Ascii.eqb_eq in Hab. subst. now exists r.
      * intros [r Hr]. injection Hr as -> ->. split.
        -- apply Ascii.eqb_refl.
        -- now exists r.
Qed.

Lemma is_prefix_app needle r : is_prefix needle (needle ++ r) = true.
Proof. apply is_prefix_true. now exists r. Qed.

Lemma occursb_spec needle s : occursb needle s = true <-> occurs needle s.
Proof.
  unfold occursb, occurs. rewrite existsb_exists. split.
  - intros [i [_ Hi]]. apply is_prefix_true in Hi as [r Hr].
    exists (firstn i s), r. now rewrite <- Hr, firstn_skipn.
  - intros [a [b ->]]. exists (length a). split.
    + apply in_seq. rewrite length_app. lia.
    + rewrite skipn_app, skipn_all, Nat.sub_diag. simpl.
      apply is_prefix_app.
Qed.

Lemma occursb_false needle s : occursb needle s = false <-> ~ occurs needle s.
Proof.
  rewrite <- occursb_spec. destruct (occursb needle s); split; intros H;
    try discriminate; auto. exfalso. now apply H.
Qed.

Lemma occurs_prefix needle h s :
  prefix_of h s -> occurs needle h -> occurs needle s.
Proof.
  intros [t ->] [a [b ->]]. exists a, (b ++ t).
  now rewrite <- !app_assoc.
Qed.

Lemma occurs_suffix needle a s : occurs needle s -> occurs needle (a ++ s).
Proof.
  intros [x [y ->]]. exists (a ++ x), y. now rewrite <- app_assoc.
Qed.

(** A successful [strstr] returns a suffix that starts with the needle. *)
Lemma strstr_some hay needle p :
  strstr hay needle = Some p ->
  exists a r, hay = a ++ p /\ p = needle ++ r.
Proof.
  induction hay as [|c hay IH]; simpl.
  - destruct (is_prefix needle []) eqn:E; [|discriminate].
    intros [= <-]. apply is_prefix_true in E as [r Hr]. now exists [], r.
  - destruct (is_prefix needle (c :: hay)) eqn:E.
    + intros [= <-]. apply is_prefix_true in E as [r Hr]. now exists [], r.
    + intros H. apply IH in H as [a [r [-> ->]]]. now exists (c :: a), r.
Qed.

Lemma strstr_none hay needle : strstr hay needle = None -> ~ occurs needle hay.
Proof.
  induction hay as [|c hay IH]; simpl.
  - destruct (is_prefix needle []) eqn:E; [discriminate|].
    intros _ [a [b H]]. symmetry in H.
    apply app_eq_nil in H as [-> H]. apply app_eq_nil in H as [-> ->].
    discriminate.
  - destruct (is_prefix needle (c :: hay)) eqn:E; [discriminate|].
    intros H [a [b Hab]]. destruct a as [|c' a].
    + simpl in Hab. rewrite Hab, is_prefix_app in E. discriminate.
    + injection Hab as -> ->. apply (IH H). now exists a, b.
Qed.

Lemma strstr_eq hay needle :
  strstr hay needle =
  if is_prefix needle hay then Some hay
  else match hay with
       | [] => None
       | _ :: hay' => strstr hay' needle
       end.
Proof. destruct hay; reflexivity. Qed.

Lemma is_prefix_within needle a b :
  is_prefix needle (a ++ b) = true -> length needle <= length a ->
  exists r, a = needle ++ r.
Proof.
  intros H Hlen. apply is_prefix_true in H as [r Hr].
  apply app_eq_app in Hr as [l [[H1 H2]|[H1 H2]]].
  - now exists l.
  - assert (l = []) as ->.
    { apply (f_equal (@length ascii)) in H1. rewrite length_app in H1.
      destruct l; [reflexivity|simpl in H1; lia]. }
    exists []. now rewrite app_nil_r in *.
Qed.

Lemma split_last (needle : list ascii) :
  needle <> [] -> needle = removelast needle ++ [last needle NUL].
Proof. intros H. now apply app_removelast_last. Qed.

Lemma length_removelast (needle : list ascii) :
  needle <> [] -> length needle = S (length (removelast needle)).
Proof.
  intros H. rewrite (split_last H) at 1. rewrite length_app. simpl. lia.
Qed.

(** The first occurrence is the one [strstr] finds. *)
Lemma strstr_first needle pre rest :
  needle <> [] ->
  ~ occurs needle (pre ++ removelast needle) ->
  strstr (pre ++ needle ++ rest) needle = Some (needle ++ rest).
Proof.
  intros Hne. induction pre as [|c pre IH]; intros Hfirst.
  - simpl. rewrite strstr_eq. now rewrite is_prefix_app.
  - rewrite strstr_eq.
    destruct (is_prefix needle ((c :: pre) ++ needle ++ rest)) eqn:E.
    + exfalso. apply Hfirst.
      assert ((c :: pre) ++ needle ++ rest =
              ((c :: pre) ++ removelast needle)
                ++ [last needle NUL] ++ rest) as Hsplit.
      { rewrite (split_last Hne) at 1. now rewrite <- !app_assoc. }
      rewrite Hsplit in E. apply is_prefix_within in E as [r Hr].
      * exists [], r. exact Hr.
      * rewrite length_app, (length_removelast Hne). simpl. lia.
    + simpl. apply IH. intros Hocc. apply Hfirst.
      now apply (occurs_suffix [c]) in Hocc.
Qed.

(** The same for a buffer that is cut somewhere: if [strstr] finds the
    needle at all, it finds it at its first occurrence. *)
Lemma strstr_prefix_first needle pre rest h p :
  needle <> [] ->
  ~ occurs needle (pre ++ removelast needle) ->
  prefix_of h (pre ++ needle ++ rest) ->
  strstr h needle = Some p ->
  exists r, h = pre ++ needle ++ r /\ p = needle ++ r /\ prefix_of r rest.
Proof.
  intros Hne Hfirst Hpre Hfound.
  rewrite app_assoc in Hpre.
  apply prefix_of_app_cases in Hpre as [[t [Ht Hcut]]|[r [-> Hr]]].
  - exfalso. apply Hfirst.
    apply strstr_some in Hfound as [a [r [Ha Hp]]]. subst p.
    assert (prefix_of h (pre ++ removelast needle)) as Hshort.
    { rewrite (split_last Hne) in Hcut at 1. rewrite app_assoc in Hcut.
      destruct (exists_last Ht) as [t' [z Hz]]. subst t.
      rewrite app_assoc in Hcut. apply app_inj_tail in Hcut as [Hcut _].
      exists t'. exact Hcut. }
    eapply occurs_prefix; [exact Hshort|]. exists a, r. exact Ha.
  - rewrite <- app_assoc in Hfound.
    rewrite strstr_first in Hfound by assumption.
    injection Hfound as <-. exists r. rewrite <- app_assoc. auto.
Qed.

Lemma strchr_free s c : free_of c s = true -> strchr s c = None.
Proof.
  induction s as [|x s IH]; simpl; auto.
  rewrite free_of_cons. intros H. apply andb_true_iff in H as [Hx Hs].
  rewrite Ascii.eqb_sym. apply negb_true_iff in Hx. rewrite Hx. auto.
Qed.

Lemma strchr_first value c rest :
  free_of c value = true ->
  strchr (value ++ c :: rest) c = Some (c :: rest).
Proof.
  induction value as [|x v IH]; simpl.
  - intros _. now rewrite Ascii.eqb_refl.
  - rewrite free_of_cons. intros H. apply andb_true_iff in H as [Hx Hs].
    rewrite Ascii.eqb_sym. apply negb_true_iff in Hx. rewrite Hx. auto.
Qed.

Lemma strchr_prefix_first value c rest h p :
  free_of c value = true ->
  prefix_of h (value ++ c :: rest) ->
  strchr h c = Some p ->
  exists r, h = value ++ c :: r /\ p = c :: r /\ prefix_of r rest.
Proof.
  intros Hfree Hpre Hfound.
  apply prefix_of_app_cases in Hpre as [[t [Ht Hcut]]|[r [-> Hr]]].
  - exfalso. rewrite strchr_free in Hfound; [discriminate|].
    eapply prefix_of_free; [|exact Hfree]. now exists t.
  - destruct r as [|x r].
    + exfalso. rewrite app_nil_r in Hfound.
      rewrite strchr_free in Hfound; [discriminate|assumption].
    + destruct Hr as [u Hu]. injection Hu as <- ->.
      rewrite strchr_first in Hfound by assumption.
      injection Hfound as <-. exists r. repeat split. now exists u.
Qed.

End CStrings.

(** ** [extract_sw_id] *)

Section Extraction.

Lemma TAGID_nonempty : TAGID <> [].
Proof. discriminate. Qed.

Lemma REGID_nonempty : REGID <> [].
Proof. discriminate. Qed.

Lemma firstn_app_exact (a b : list ascii) :
  firstn (length (a ++ b) - length b) (a ++ b) = a.
Proof.
  rewrite length_app, Nat.add_sub.
  rewrite firstn_app, Nat.sub_diag, firstn_all. simpl. apply app_nil_r.
Qed.

(** A [regid] token does not start at a double quote. *)
Lemma regid_after_quote l :
  ~ occurs REGID l -> ~ occurs REGID (DQUOTE :: l).
Proof.
  intros H [a [b Hab]]. destruct a as [|c a].
  - discriminate.
  - injection Hab as _ ->. apply H. now exists a, b.
Qed.

Lemma strchr_some s c p : strchr s c = Some p -> exists a, s = a ++ p.
Proof.
  induction s as [|x s IH]; simpl; [discriminate|].
  destruct (Ascii.eqb x c).
  - intros [= <-]. now exists [].
  - intros H. apply IH in H as [a ->]. now exists (x :: a).
Qed.

(** What [extract_sw_id] does once the copy of the tag is known. *)
Lemma extract_found s pre T mid R rest :
  strndup s (Nat.min 1023 (length s))
    = pre ++ TAGID ++ T ++ DQUOTE :: mid ++ REGID ++ R ++ DQUOTE :: rest ->
  quote_free T = true -> quote_free R = true ->
  occursb TAGID (pre ++ lit "tagId=") = false ->
  occursb REGID (mid ++ lit "regid=") = false ->
  extract_sw_id s = (SUCCESS, R ++ lit "__" ++ T).
Proof.
  intros Htag HT HR Htagid Hregid.
  apply occursb_false in Htagid, Hregid.
  unfold extract_sw_id. rewrite Htag.
  change (lit "tagId=" ++ [DQUOTE]) with TAGID.
  change (lit "regid=" ++ [DQUOTE]) with REGID.
  rewrite strstr_first by (auto using TAGID_nonempty).
  change (skipn 7 (TAGID ++ ?x)) with x.
  cbv beta zeta.
  change (skipn 7 (TAGID ++ T ++ DQUOTE :: mid ++ REGID ++ R ++ DQUOTE :: rest))
    with (T ++ DQUOTE :: mid ++ REGID ++ R ++ DQUOTE :: rest).
  rewrite strchr_first by exact HT.
  change (DQUOTE :: mid ++ REGID ++ R ++ DQUOTE :: rest)
    with ((DQUOTE :: mid) ++ REGID ++ R ++ DQUOTE :: rest).
  rewrite strstr_first.
  - change (skipn 7 (REGID ++ R ++ DQUOTE :: rest))
      with (R ++ DQUOTE :: rest).
    rewrite strchr_first by exact HR.
    now rewrite !firstn_app_exact.
  - apply REGID_nonempty.
  - apply regid_after_quote. exact Hregid.
Qed.

Lemma nul_free_app a b :
  nul_free (a ++ b) = nul_free a && nul_free b.
Proof. apply free_of_app. Qed.

(** A tag text without NUL up to the closing quote of [R], and with that
    quote among the first 1023 bytes, is copied at least that far. *)
Lemma strndup_tag_text pre T mid R post :
  nul_free (pre ++ T ++ mid ++ R) = true ->
  length (tag_text pre T mid R []) <= 1023 ->
  exists rest,
    strndup (tag_text pre T mid R post)
            (Nat.min 1023 (length (tag_text pre T mid R post)))
    = tag_text pre T mid R rest.
Proof.
  intros Hnul Hlen.
  rewrite !nul_free_app in Hnul.
  apply andb_true_iff in Hnul as [Hpre Hnul].
  apply andb_true_iff in Hnul as [HT Hnul].
  apply andb_true_iff in Hnul as [Hmid HR].
  set (front := pre ++ TAGID ++ T ++ DQUOTE :: mid ++ REGID ++ R ++ [DQUOTE]).
  assert (forall z, tag_text pre T mid R z = front ++ z) as Hfront.
  { intros z. unfold tag_text, front.
    repeat (rewrite <- ?app_assoc, <- ?app_comm_cons). reflexivity. }
  assert (nul_free front = true) as Hfree.
  { unfold front, nul_free in *.
    repeat (rewrite free_of_app || rewrite free_of_cons).
    rewrite Hpre, HT, Hmid, HR. reflexivity. }
  rewrite (Hfront []), app_nil_r in Hlen.
  rewrite !Hfront. unfold strndup.
  rewrite firstn_app, firstn_all2.
  - rewrite c_str_app by exact Hfree. eexists. rewrite Hfront. reflexivity.
  - rewrite length_app. lia.
Qed.

Lemma extract_status s :
  extract_sw_id s = (NOT_FOUND, chunk_empty) \/
  exists swid, extract_sw_id s = (SUCCESS, swid).
Proof.
  unfold extract_sw_id.
  repeat match goal with
         | |- context [match ?x with Some _ => _ | None => _ end] =>
             destruct x
         end; eauto.
Qed.

(** Nothing is found without a [tagId] token. *)
Lemma extract_no_tagid s :
  occursb TAGID s = false -> extract_sw_id s = (NOT_FOUND, chunk_empty).
Proof.
  intros H. apply occursb_false in H. unfold extract_sw_id.
  change (lit "tagId=" ++ [DQUOTE]) with TAGID.
  destruct (strstr _ TAGID) as [p|] eqn:E; [|reflexivity].
  exfalso. apply H. apply strstr_some in E as [a [r [Ha ->]]].
  eapply occurs_prefix; [apply strndup_prefix|].
  exists a, r. exact Ha.
Qed.

Lemma occurs_skipn needle n (s : list ascii) :
  occurs needle (skipn n s) -> occurs needle s.
Proof.
  intros H. rewrite <- (firstn_skipn n s). now apply occurs_suffix.
Qed.

(** Nothing is found without a [regid] token. *)
Lemma extract_no_regid s :
  occursb REGID s = false -> extract_sw_id s = (NOT_FOUND, chunk_empty).
Proof.
  intros H. apply occursb_false in H. unfold extract_sw_id.
  change (lit "regid=" ++ [DQUOTE]) with REGID.
  destruct (strstr _ (lit "tagId=" ++ [DQUOTE])) as [p|] eqn:E1;
    [|reflexivity].
  destruct (strchr (skipn 7 p) DQUOTE) as [q|] eqn:E2; [|reflexivity].
  destruct (strstr q REGID) as [p'|] eqn:E3; [|reflexivity].
  exfalso. apply H.
  eapply occurs_prefix; [apply strndup_prefix|].
  apply strstr_some in E1 as [a [r [-> _]]]. apply occurs_suffix.
  apply (@occurs_skipn _ 7).
  apply strchr_some in E2 as [b ->]. apply occurs_suffix.
  apply strstr_some in E3 as [c [r' [-> ->]]]. now exists c, r'.
Qed.

(** Nothing is found when no double quote follows the first [tagId]
    token. *)
Lemma extract_no_tagid_quote pre rest :
  occursb TAGID (pre ++ lit "tagId=") = false ->
  quote_free rest = true ->
  extract_sw_id (pre ++ TAGID ++ rest) = (NOT_FOUND, chunk_empty).
Proof.
  intros Hfirst Hrest. apply occursb_false in Hfirst.
  unfold extract_sw_id.
  change (lit "tagId=" ++ [DQUOTE]) with TAGID.
  destruct (strstr _ TAGID) as [p|] eqn:E1; [|reflexivity].
  eapply strstr_prefix_first in E1
      as [r [_ [-> Hr]]];
    [|apply TAGID_nonempty|exact Hfirst|apply strndup_prefix].
  change (skipn 7 (TAGID ++ r)) with r.
  rewrite strchr_free; [reflexivity|].
  eapply prefix_of_free; eassumption.
Qed.

(** Nothing is found when no double quote follows the first [regid]
    token after the value of [tagId]. *)
Lemma extract_no_regid_quote pre T mid rest :
  occursb TAGID (pre ++ lit "tagId=") = false ->
  quote_free T = true ->
  occursb REGID (mid ++ lit "regid=") = false ->
  quote_free rest = true ->
  extract_sw_id (pre ++ TAGID ++ T ++ DQUOTE :: mid ++ REGID ++ rest)
    = (NOT_FOUND, chunk_empty).
Proof.
  intros Hfirst HT Hregid Hrest.
  apply occursb_false in Hfirst, Hregid.
  unfold extract_sw_id.
  change (lit "tagId=" ++ [DQUOTE]) with TAGID.
  change (lit "regid=" ++ [DQUOTE]) with REGID.
  destruct (strstr _ TAGID) as [p|] eqn:E1; [|reflexivity].
  eapply strstr_prefix_first in E1
      as [r [_ [-> Hr]]];
    [|apply TAGID_nonempty|exact Hfirst|apply strndup_prefix].
  change (skipn 7 (TAGID ++ r)) with r.
  destruct (strchr r DQUOTE) as [q|] eqn:E2; [|reflexivity].
  eapply strchr_prefix_first in E2 as [r2 [-> [-> Hr2]]];
    [|exact HT|exact Hr].
  destruct (strstr (DQUOTE :: r2) REGID) as [p'|] eqn:E3; [|reflexivity].
  apply (@strstr_prefix_first REGID (DQUOTE :: mid) rest) in E3
      as [r3 [_ [-> Hr3]]].
  - change (skipn 7 (REGID ++ r3)) with r3.
    rewrite strchr_free; [reflexivity|].
    eapply prefix_of_free; eassumption.
  - apply REGID_nonempty.
  - apply regid_after_quote. exact Hregid.
  - destruct Hr2 as [u Hu]. exists u.
    change (DQUOTE :: (mid ++ REGID ++ rest) = DQUOTE :: (r2 ++ u)).
    now f_equal.
Qed.

End Extraction.

(** C1, as the specification words it: whatever surrounds the two
    attributes, extraction yields [R__T].  The statement is false: of
    several [regid] attributes after the [tagId] value the first one is
    taken.  In [tagId="a" regid="x" regid="r"] the value [r] follows a
    [regid] token after the closing quote of [a], and the result is [x__a],
    not [r__a]. *)
Lemma C1_later_regid_not_taken :
  ~ (forall pre T mid R post,
        quote_free T = true -> quote_free R = true ->
        length (tag_text pre T mid R post) <= 1023 ->
        extract_sw_id (tag_text pre T mid R post)
          = (SUCCESS, R ++ lit "__" ++ T)).
Proof.
  intros H.
  specialize (H [] (lit "a")
                (lit " regid=" ++ [DQUOTE] ++ lit "x" ++ [DQUOTE] ++ lit " ")
                (lit "r") []).
  assert (extract_sw_id
            (tag_text [] (lit "a")
               (lit " regid=" ++ [DQUOTE] ++ lit "x" ++ [DQUOTE] ++ lit " ")
               (lit "r") [])
          = (SUCCESS, lit "x__a")) as E by (vm_compute; reflexivity).
  rewrite E in H.
  assert ((SUCCESS, lit "x__a") = (SUCCESS, lit "r" ++ lit "__" ++ lit "a"))
    as Habs.
  { apply H; try reflexivity. apply Nat.leb_le. reflexivity. }
  discriminate Habs.
Qed.

(** C1, amended: extraction takes the first [tagId] token and the first
    [regid] token after the closing quote of its value.  When these are
    followed by the quote-free values [T] and [R] and their closing quotes,
    no NUL byte precedes the closing quote of [R] and that quote lies
    within the first 1023 bytes, the result is [R__T].  Extraction fails
    with [NOT_FOUND] on an input without a [tagId] token, without a [regid]
    token, without a double quote after the first [tagId] token, or without
    a double quote after the first [regid] token that follows the value of
    [tagId], and on the empty input. *)
Theorem C1_extract_first_occurrences :
  (forall pre T mid R post,
      occursb TAGID (pre ++ lit "tagId=") = false ->
      occursb REGID (mid ++ lit "regid=") = false ->
      quote_free T = true -> quote_free R = true ->
      nul_free (pre ++ T ++ mid ++ R) = true ->
      length (tag_text pre T mid R []) <= 1023 ->
      extract_sw_id (tag_text pre T mid R post)
        = (SUCCESS, R ++ lit "__" ++ T))
  /\ (forall s, occursb TAGID s = false ->
                extract_sw_id s = (NOT_FOUND, chunk_empty))
  /\ (forall s, occursb REGID s = false ->
                extract_sw_id s = (NOT_FOUND, chunk_empty))
  /\ (forall pre rest,
         occursb TAGID (pre ++ lit "tagId=") = false ->
         quote_free rest = true ->
         extract_sw_id (pre ++ TAGID ++ rest) = (NOT_FOUND, chunk_empty))
  /\ (forall pre T mid rest,
         occursb TAGID (pre ++ lit "tagId=") = false ->
         quote_free T = true ->
         occursb REGID (mid ++ lit "regid=") = false ->
         quote_free rest = true ->
         extract_sw_id (pre ++ TAGID ++ T ++ DQUOTE :: mid ++ REGID ++ rest)
           = (NOT_FOUND, chunk_empty))
  /\ extract_sw_id [] = (NOT_FOUND, chunk_empty).
Proof.
  split; [|split; [|split; [|split; [|split]]]].
  - intros pre T mid R post Htagid Hregid HT HR Hnul Hlen.
    destruct (@strndup_tag_text pre T mid R post Hnul Hlen) as [rest Hrest].
    eapply extract_found; eauto.
  - apply extract_no_tagid.
  - apply extract_no_regid.
  - apply extract_no_tagid_quote.
  - apply extract_no_regid_quote.
  - reflexivity.
Qed.

(** The copy of the tag ends at a NUL byte: nothing is found behind one. *)
Example extract_stops_at_nul :
  extract_sw_id (NUL :: tag_text [] (lit "T") (lit " ") (lit "R") [])
  = (NOT_FOUND, chunk_empty).
Proof. vm_compute. reflexivity. Qed.

(** The amended statement at
    [<x tagId="T1" y regid="R" z>]. *)
Lemma C1_extract_witness :
  extract_sw_id
    (tag_text (lit "<x ") (lit "T1") (lit " y ") (lit "R") (lit " z>"))
  = (SUCCESS, lit "R__T1").
Proof.
  apply (proj1 C1_extract_first_occurrences
           (lit "<x ") (lit "T1") (lit " y ") (lit "R") (lit " z>"));
    try reflexivity.
  apply Nat.leb_le. reflexivity.
Defined.

(** ** The state monad *)

Section Pushes.

Lemma push_nil st : push st [] [] = st.
Proof.
  destruct st as [[o d [l e p] evs] tr]. unfold push. simpl.
  now rewrite !app_nil_r.
Qed.

Lemma push_push st r1 c1 r2 c2 :
  push (push st r1 c1) r2 c2 = push st (r1 ++ r2) (c1 ++ c2).
Proof. unfold push. simpl. now rewrite <- !app_assoc. Qed.

Lemma inventory_add_push r st : inventory_add r st = (tt, push st [r] []).
Proof.
  unfold inventory_add, push, inv_add. now rewrite app_nil_r.
Qed.

Lemma log_push a st : log a st = (tt, push st [] [a]).
Proof.
  destruct st as [[o d [l e p] evs] tr]. unfold log, push. simpl.
  now rewrite app_nil_r.
Qed.

End Pushes.

(** ** Lines *)

Section Lines.

Lemma fgets_bytes_split room file :
  fst (fgets_bytes room file) ++ snd (fgets_bytes room file) = file.
Proof.
  revert file. induction room as [|room IH]; intros [|c file]; simpl; auto.
  destruct (Ascii.eqb c LF); simpl; auto.
  specialize (IH file). destruct (fgets_bytes room file). simpl in *.
  now rewrite IH.
Qed.

(** A call that does not return NULL consumes a byte. *)
Lemma fgets_progress size file line file' :
  2 <= size -> fgets size file = Some (line, file') ->
  file = line ++ file' /\ length file' < length file.
Proof.
  intros Hsize. unfold fgets. destruct file as [|c file]; [discriminate|].
  intros [= H]. pose proof (fgets_bytes_split (size - 1) (c :: file)) as Hs.
  rewrite H in Hs. simpl in Hs. split; [now symmetry|].
  destruct (size - 1) as [|room] eqn:E; [lia|].
  simpl in H. destruct (Ascii.eqb c LF).
  - injection H as <- <-. simpl. lia.
  - destruct (fgets_bytes room file) as [l r] eqn:E'. injection H as <- <-.
    rewrite <- Hs. simpl. rewrite length_app. lia.
Qed.

Lemma fgets_lines_concat size fuel file :
  2 <= size -> length file <= fuel ->
  concat (fgets_lines size fuel file) = file.
Proof.
  intros Hsize. revert file.
  induction fuel as [|fuel IH]; intros file Hlen; simpl.
  - destruct file; [reflexivity|simpl in Hlen; lia].
  - destruct (fgets size file) as [[line file']|] eqn:E.
    + apply fgets_progress in E as [-> Hlt]; [|assumption].
      simpl. rewrite IH; [reflexivity|lia].
    + destruct file; [reflexivity|discriminate].
Qed.

(** A line of text is delivered whole, with its line feed. *)
Lemma fgets_text_line size l rest :
  text_line size l ->
  fgets size (l ++ LF :: rest) = Some (l ++ [LF], rest).
Proof.
  intros [Hlf [_ Hlen]].
  assert (forall room, length l < room ->
            fgets_bytes room (l ++ LF :: rest) = (l ++ [LF], rest)) as H.
  { clear Hlen. induction l as [|c l IH]; intros room Hroom.
    - destruct room; [lia|]. reflexivity.
    - destruct room as [|room]; [simpl in Hroom; lia|].
      rewrite free_of_cons in Hlf. apply andb_true_iff in Hlf as [Hc Hl].
      simpl. rewrite Ascii.eqb_sym. apply negb_true_iff in Hc. rewrite Hc.
      rewrite IH; [reflexivity|assumption|simpl in Hroom; lia]. }
  unfold fgets. destruct (l ++ LF :: rest) eqn:E.
  - destruct l; discriminate.
  - rewrite H; [reflexivity|lia].
Qed.

Lemma fgets_lines_unlines size fuel ls :
  Forall (text_line size) ls -> length (unlines ls) <= fuel ->
  fgets_lines size fuel (unlines ls) = map (fun l => l ++ [LF]) ls.
Proof.
  intros Hls. revert fuel. induction Hls as [|l ls Hl Hls IH]; intros fuel.
  - destruct fuel; reflexivity.
  - unfold unlines. simpl. rewrite <- app_assoc. simpl.
    rewrite length_app. simpl. intros Hlen.
    destruct fuel as [|fuel]; [lia|]. simpl.
    rewrite fgets_text_line by assumption.
    f_equal. apply IH. unfold unlines. lia.
Qed.

Lemma nth_pred_last (s : list ascii) d :
  s <> [] -> nth (length s - 1) s d = last s d.
Proof.
  induction s as [|c s IH]; [congruence|]. intros _.
  destruct s as [|c' s]; [reflexivity|].
  change (nth (length (c' :: s)) (c :: c' :: s) d = last (c' :: s) d).
  rewrite <- IH by discriminate. simpl. now rewrite Nat.sub_0_r.
Qed.

Lemma nth_firstn_lt (s : list ascii) n k d :
  k < n -> nth k (firstn n s) d = nth k s d.
Proof.
  revert n k. induction s as [|c s IH]; intros [|n] [|k] H; simpl; auto;
    try lia. apply IH. lia.
Qed.

Lemma length_c_str s : length (c_str s) = strlen s.
Proof.
  unfold c_str. rewrite length_firstn. apply Nat.min_l. apply strlen_le.
Qed.

Lemma chomp_nonempty s :
  s <> [] ->
  chomp s = if Ascii.eqb (last s NUL) LF then removelast s else s.
Proof. destruct s; [congruence|reflexivity]. Qed.

(** The identifier [read_swid_tag_ids] takes from a line. *)
Lemma line_identifier line :
  firstn (if (0 <? strlen line)
             && Ascii.eqb (nth (strlen line - 1) line NUL) LF
          then strlen line - 1 else strlen line) line
  = chomp (c_str line).
Proof.
  pose proof (length_c_str line) as Hlen.
  pose proof (strlen_le line) as Hle.
  destruct (strlen line) as [|n] eqn:E.
  - simpl. unfold c_str. rewrite E. reflexivity.
  - assert (c_str line <> []) as Hne
        by (intros H; rewrite H in Hlen; discriminate).
    rewrite (chomp_nonempty Hne).
    rewrite <- (nth_pred_last NUL Hne), Hlen.
    unfold c_str. rewrite E, nth_firstn_lt by lia.
    replace (S n - 1) with n by lia.
    change (0 <? S n) with true. cbn [andb].
    destruct (Ascii.eqb (nth n line NUL) LF).
    + now rewrite removelast_firstn by lia.
    + reflexivity.
Qed.

Lemma chomp_text_line size l :
  text_line size l -> chomp (c_str (l ++ [LF])) = l.
Proof.
  intros [_ [Hnul _]].
  assert (nul_free (l ++ [LF]) = true) as H.
  { rewrite nul_free_app, Hnul. reflexivity. }
  rewrite c_str_nul_free by exact H.
  unfold chomp. destruct (l ++ [LF]) eqn:E; [destruct l; discriminate|].
  rewrite <- E, last_last, removelast_last. reflexivity.
Qed.

End Lines.

(** ** [read_swid_tag_ids] *)

Section Identifiers.

Lemma read_swid_tag_ids_loop_lines host fuel file st :
  read_swid_tag_ids_loop host fuel file st =
  (SUCCESS,
   push st
     (map (fun line => id_record (chomp (c_str line)))
        (fgets_lines (BUF_LEN host) fuel file))
     []).
Proof.
  revert file st. induction fuel as [|fuel IH]; intros file st; simpl.
  - unfold ret. now rewrite push_nil.
  - destruct (fgets (BUF_LEN host) file) as [[line file']|].
    + unfold bind. rewrite inventory_add_push, IH, push_push.
      rewrite line_identifier. reflexivity.
    + unfold ret. now rewrite push_nil.
Qed.

Lemma fgets_lines_fuel size fuel1 fuel2 file :
  2 <= size -> length file <= fuel1 -> length file <= fuel2 ->
  fgets_lines size fuel1 file = fgets_lines size fuel2 file.
Proof.
  intros Hsize. revert fuel2 file.
  induction fuel1 as [|fuel1 IH]; intros fuel2 file H1 H2.
  - destruct file; [|simpl in H1; lia]. now destruct fuel2.
  - destruct fuel2 as [|fuel2].
    + destruct file; [|simpl in H2; lia]. reflexivity.
    + simpl. destruct (fgets size file) as [[line rest]|] eqn:Hget;
        [|reflexivity].
      pose proof (@fgets_progress _ _ _ _ Hsize Hget) as [_ Hlt].
      f_equal. apply IH; lia.
Qed.

(** [read_swid_tag_ids] runs its loop to the end of the stream. *)
Lemma read_swid_tag_ids_total host fuel file st :
  2 <= BUF_LEN host -> length file <= fuel ->
  read_swid_tag_ids_loop host fuel file st = read_swid_tag_ids host file st.
Proof.
  intros Hsize Hlen. unfold read_swid_tag_ids.
  rewrite !read_swid_tag_ids_loop_lines.
  now rewrite (@fgets_lines_fuel _ fuel (length file) file Hsize Hlen).
Qed.

End Identifiers.

(** ** [read_swid_tags] *)

Section Documents.

Variable host : host_t.

Lemma sizeof_line_room : exists room, sizeof_line - 1 = S room.
Proof. exists (sizeof_line - 2). unfold sizeof_line. lia. Qed.

Lemma sizeof_line_ge : 2 <= sizeof_line.
Proof. unfold sizeof_line. lia. Qed.

Local Opaque sizeof_line.

Lemma read_tag_lines_eq fuel b w file :
  read_tag_lines host (S fuel) b w file =
  match fgets sizeof_line file with
  | None => (false, w, file)
  | Some (line, file') =>
      if b && Ascii.eqb (first_char line) LF then (true, w, file')
      else read_tag_lines host fuel
             (Ascii.eqb (char_before (stack_byte host) line (strlen line)) LF)
             (w ++ firstn (strlen line) line) file'
  end.
Proof. reflexivity. Qed.

Lemma read_tag_lines_nil fuel b w :
  read_tag_lines host fuel b w [] = (false, w, []).
Proof. destruct fuel; reflexivity. Qed.

(** Up to a line feed, [fgets] stays within the line. *)
Lemma fgets_bytes_within room x tail :
  prefix_of (fst (fgets_bytes room (x ++ LF :: tail))) (x ++ [LF]).
Proof.
  revert room. induction x as [|c x IH]; intros [|room]; simpl.
  - now exists [LF].
  - now exists [].
  - now exists (c :: x ++ [LF]).
  - destruct (Ascii.eqb_spec c LF) as [->|_].
    + exists (x ++ [LF]). reflexivity.
    + specialize (IH room).
      destruct (fgets_bytes room (x ++ LF :: tail)) as [l r].
      destruct IH as [t Ht]. exists t. simpl in *. now rewrite Ht.
Qed.

Lemma no_blank_app b l m :
  l <> [] -> no_blank b (l ++ m) = true ->
  no_blank (Ascii.eqb (last l NUL) LF) m = true.
Proof.
  revert b. induction l as [|c l IH]; [congruence|]. intros b _.
  destruct l as [|c' l].
  - simpl. destruct (Ascii.eqb c LF).
    + intros H. now apply andb_true_iff in H as [_ H].
    + auto.
  - change (last (c :: c' :: l) NUL) with (last (c' :: l) NUL).
    change ((c :: c' :: l) ++ m) with (c :: ((c' :: l) ++ m)).
    unfold no_blank at 1; fold no_blank.
    destruct (Ascii.eqb c LF).
    + intros H. apply andb_true_iff in H as [_ H].
      apply (IH true); [discriminate|exact H].
    + apply IH. discriminate.
Qed.

Lemma no_blank_first l m :
  l <> [] -> no_blank true (l ++ m) = true ->
  Ascii.eqb (first_char l) LF = false.
Proof.
  destruct l as [|c l]; [congruence|]. intros _. simpl.
  unfold first_char. simpl. destruct (Ascii.eqb c LF); [discriminate|auto].
Qed.

Lemma boundary_check b l m :
  l <> [] -> no_blank b (l ++ m) = true ->
  b && Ascii.eqb (first_char l) LF = false.
Proof.
  intros Hl H. destruct b; [|reflexivity].
  simpl. eapply no_blank_first; eassumption.
Qed.

Lemma char_before_last before line :
  line <> [] -> char_before before line (length line) = last line NUL.
Proof.
  intros H. rewrite <- (nth_pred_last NUL H).
  destruct line as [|c l]; [congruence|]. simpl. now rewrite Nat.sub_0_r.
Qed.

(** One round of the inner loop on a line without NUL that is not a
    boundary. *)
Lemma read_tag_lines_step fuel b w file line file' m :
  fgets sizeof_line file = Some (line, file') ->
  nul_free line = true -> no_blank b (line ++ m) = true ->
  read_tag_lines host (S fuel) b w file =
  read_tag_lines host fuel (Ascii.eqb (last line NUL) LF) (w ++ line) file'.
Proof.
  intros Hget Hnul Hblank.
  assert (line <> []) as Hne.
  { apply fgets_progress in Hget as [-> Hlt]; [|apply sizeof_line_ge].
    intros ->. simpl in Hlt. lia. }
  rewrite read_tag_lines_eq, Hget.
  rewrite (@boundary_check b line m Hne Hblank).
  rewrite (strlen_nul_free _ Hnul), firstn_all.
  now rewrite char_before_last.
Qed.

Lemma nul_free_prefix h s :
  prefix_of h s -> nul_free s = true -> nul_free h = true.
Proof. apply prefix_of_free. Qed.

(** The inner loop on a document that is followed by an empty line. *)
Lemma read_tag_lines_document fuel b w x rest :
  nul_free x = true -> no_blank b (x ++ [LF]) = true ->
  length (x ++ LF :: LF :: rest) <= fuel ->
  read_tag_lines host fuel b w (x ++ LF :: LF :: rest)
    = (true, w ++ x ++ [LF], rest).
Proof.
  revert b w x. induction fuel as [|fuel IH]; intros b w x Hnul Hblank Hlen.
  - rewrite length_app in Hlen. simpl in Hlen. lia.
  - destruct (fgets sizeof_line (x ++ LF :: LF :: rest))
      as [[line file']|] eqn:Hget;
      [|destruct x; discriminate].
    assert (prefix_of line (x ++ [LF])) as Hpre.
    { unfold fgets in Hget.
      destruct (x ++ LF :: LF :: rest) eqn:E; [discriminate|].
      rewrite <- E in Hget. injection Hget as Hget.
      pose proof (fgets_bytes_within (sizeof_line - 1) x (LF :: rest)) as H.
      now rewrite Hget in H. }
    pose proof (@fgets_progress _ _ _ _ sizeof_line_ge Hget) as [Hsplit Hlt].
    destruct Hpre as [y Hy].
    assert (nul_free (x ++ [LF]) = true) as Hnul'
        by (rewrite nul_free_app, Hnul; reflexivity).
    assert (file' = y ++ LF :: rest) as ->.
    { apply (app_inv_head line). rewrite <- Hsplit, app_assoc, <- Hy.
      now rewrite <- app_assoc. }
    rewrite Hy in Hblank, Hnul'.
    assert (line <> []) as Hne.
    { intros ->. rewrite length_app in Hlt. simpl in Hlt.
      simpl in Hsplit. rewrite Hsplit, length_app in Hlt. simpl in Hlt. lia. }
    rewrite (@read_tag_lines_step fuel b w _ _ _ y Hget);
      [| eapply nul_free_prefix; [now exists y|exact Hnul'] | exact Hblank].
    pose proof (@no_blank_app b line y Hne Hblank) as Hblank'.
    destruct y as [|a x' _] using rev_ind.
    + rewrite app_nil_r in Hy. subst line.
      rewrite last_last. change (Ascii.eqb LF LF) with true.
      destruct fuel as [|fuel].
      * rewrite length_app in Hlen. simpl in Hlen. lia.
      * rewrite read_tag_lines_eq. unfold fgets.
        destruct sizeof_line_room as [room ->]. simpl.
        reflexivity.
    + rewrite app_assoc in Hy. apply app_inj_tail in Hy as [-> <-].
      rewrite <- app_assoc. rewrite IH.
      * now rewrite <- !app_assoc.
      * rewrite nul_free_app in Hnul.
        now apply andb_true_iff in Hnul as [_ Hnul].
      * exact Hblank'.
      * rewrite !length_app in *. simpl in *.
        destruct line; [congruence|simpl in *; lia].
Qed.


(** The inner loop never gives bytes back, and a boundary costs one. *)
Lemma read_tag_lines_shrinks fuel b w file more tag file' :
  read_tag_lines host fuel b w file = (more, tag, file') ->
  length file' <= length file /\ (more = true -> length file' < length file).
Proof.
  revert b w file. induction fuel as [|fuel IH]; intros b w file.
  - simpl. intros [= <- <- <-]. split; [lia|discriminate].
  - rewrite read_tag_lines_eq.
    destruct (fgets sizeof_line file) as [[line rest]|] eqn:Hget.
    + pose proof (@fgets_progress _ _ _ _ sizeof_line_ge Hget) as [_ Hlt].
      destruct (b && Ascii.eqb (first_char line) LF).
      * intros [= <- <- <-]. split; intros; lia.
      * intros H. apply IH in H as [H1 H2]. split; intros; [lia|].
        specialize (H2 H). lia.
    + intros [= <- <- <-]. split; [lia|discriminate].
Qed.

(** Rounds beyond the length of the stream are never used. *)
Lemma read_tag_lines_fuel fuel1 fuel2 b w file :
  length file <= fuel1 -> length file <= fuel2 ->
  read_tag_lines host fuel1 b w file = read_tag_lines host fuel2 b w file.
Proof.
  revert fuel2 b w file.
  induction fuel1 as [|fuel1 IH]; intros fuel2 b w file H1 H2.
  - destruct file; [|simpl in H1; lia]. now rewrite !read_tag_lines_nil.
  - destruct fuel2 as [|fuel2].
    + destruct file; [|simpl in H2; lia]. now rewrite !read_tag_lines_nil.
    + rewrite !read_tag_lines_eq.
      destruct (fgets sizeof_line file) as [[line rest]|] eqn:Hget;
        [|reflexivity].
      pose proof (@fgets_progress _ _ _ _ sizeof_line_ge Hget) as [_ Hlt].
      destruct (b && Ascii.eqb (first_char line) LF); [reflexivity|].
      apply IH; lia.
Qed.

Lemma read_swid_tags_loop_fuel fuel1 fuel2 file st :
  length file < fuel1 -> length file < fuel2 ->
  read_swid_tags_loop host fuel1 file st
  = read_swid_tags_loop host fuel2 file st.
Proof.
  revert fuel2 file st.
  induction fuel1 as [|fuel1 IH]; intros fuel2 file st H1 H2; [lia|].
  destruct fuel2 as [|fuel2]; [lia|].
  cbn [read_swid_tags_loop].
  destruct (read_tag_lines host (length file) true [] file)
    as [[more tag] file'] eqn:Hread.
  apply read_tag_lines_shrinks in Hread as [Hle Hlt].
  unfold bind. destruct (add_swid_tag tag st) as [status st'].
  destruct (negb (status_eqb status SUCCESS)); [reflexivity|].
  destruct more; [|reflexivity].
  specialize (Hlt eq_refl). apply IH; lia.
Qed.

(** [read_swid_tags] runs its loop to the end of the stream: more rounds
    change nothing. *)
Lemma read_swid_tags_total fuel file st :
  length file < fuel ->
  read_swid_tags_loop host fuel file st = read_swid_tags host file st.
Proof.
  intros H. unfold read_swid_tags. apply read_swid_tags_loop_fuel; lia.
Qed.

End Documents.

Section Framing.

Variable host : host_t.

Lemma add_swid_tag_short doc st :
  length doc <= 1 -> add_swid_tag doc st = (SUCCESS, st).
Proof.
  intros H. unfold add_swid_tag.
  destruct (1 <? length doc) eqn:E; [|reflexivity].
  apply Nat.ltb_lt in E. lia.
Qed.

Lemma add_swid_tag_stripped doc d st :
  1 < length doc ->
  (if Ascii.eqb (nth (length doc - 1) doc NUL) LF
   then firstn (length doc - 1) doc else doc) = d ->
  add_swid_tag doc st = added d st.
Proof.
  intros Hlen Hd. unfold add_swid_tag, added.
  apply Nat.ltb_lt in Hlen. rewrite Hlen, Hd.
  destruct (extract_sw_id d) as [[] swid]; try reflexivity.
  unfold bind. now rewrite inventory_add_push.
Qed.

Lemma add_swid_tag_terminated d st :
  d <> [] -> add_swid_tag (d ++ [LF]) st = added d st.
Proof.
  intros Hd. apply add_swid_tag_stripped.
  - rewrite length_app. simpl. destruct d; [congruence|simpl; lia].
  - rewrite nth_pred_last by (destruct d; discriminate).
    rewrite last_last. change (Ascii.eqb LF LF) with true.
    rewrite length_app. simpl. rewrite Nat.add_sub.
    rewrite firstn_app, Nat.sub_diag, firstn_all. simpl. apply app_nil_r.
Qed.


Lemma added_tag_document d st :
  tag_document d -> added d st = (SUCCESS, push st [tag_record d] []).
Proof.
  intros [_ [_ [_ H]]]. unfold added, tag_record.
  destruct (extract_sw_id d) as [status swid]. simpl in H. now subst.
Qed.

Lemma no_blank_nonempty d : no_blank true (d ++ [LF]) = true -> d <> [].
Proof. intros H ->. discriminate. Qed.



(** One round of the outer loop on a document followed by an empty
    line. *)
Lemma read_swid_tags_loop_document fuel d rest st :
  nul_free d = true -> no_blank true (d ++ [LF]) = true ->
  read_swid_tags_loop host (S fuel) (d ++ LF :: LF :: rest) st =
  (let (status, st') := added d st in
   if negb (status_eqb status SUCCESS) then (status, st')
   else read_swid_tags_loop host fuel rest st').
Proof.
  intros Hnul Hblank.
  unfold read_swid_tags_loop; fold read_swid_tags_loop.
  rewrite read_tag_lines_document by auto. unfold bind. simpl app.
  rewrite add_swid_tag_terminated by (eapply no_blank_nonempty; eauto).
  destruct (added d st) as [status st'].
  destruct (negb (status_eqb status SUCCESS)); reflexivity.
Qed.


(** An empty line where a document could start is a boundary with nothing
    before it: a round that adds nothing. *)
Lemma read_swid_tags_loop_blank fuel rest st :
  read_swid_tags_loop host (S (S fuel)) (LF :: rest) st
  = read_swid_tags_loop host (S fuel) rest st.
Proof.
  cbn [read_swid_tags_loop].
  change (length (LF :: rest)) with (S (length rest)).
  rewrite read_tag_lines_eq. unfold fgets.
  destruct sizeof_line_room as [room ->]. cbn [fgets_bytes].
  change (Ascii.eqb LF LF) with true. cbv iota.
  change (first_char [LF]) with LF. change (Ascii.eqb LF LF) with true.
  cbn [andb]. cbv iota. unfold bind.
  rewrite add_swid_tag_short by (simpl; lia). reflexivity.
Qed.

Lemma read_swid_tags_loop_blanks more rest fuel st :
  length (repeat LF more ++ rest) <= fuel ->
  exists fuel',
    length rest <= fuel' /\
    read_swid_tags_loop host (S fuel) (repeat LF more ++ rest) st
    = read_swid_tags_loop host (S fuel') rest st.
Proof.
  revert fuel. induction more as [|more IH]; intros fuel Hlen.
  - exists fuel. auto.
  - simpl in Hlen. destruct fuel as [|fuel]; [lia|].
    destruct (IH fuel) as [fuel' [Hle Heq]]; [lia|].
    exists fuel'. split; [exact Hle|].
    simpl repeat. simpl app. now rewrite read_swid_tags_loop_blank.
Qed.

Lemma read_swid_tags_loop_separated docs rest fuel st :
  Forall tag_document (map fst docs) ->
  length (separated docs ++ rest) <= fuel ->
  exists fuel',
    length rest <= fuel' /\
    read_swid_tags_loop host (S fuel) (separated docs ++ rest) st =
    read_swid_tags_loop host (S fuel') rest
      (push st (map tag_record (map fst docs)) []).
Proof.
  revert fuel st.
  induction docs as [|[d more] docs IH]; intros fuel st Hdocs Hlen.
  - exists fuel. split; [exact Hlen|]. simpl. now rewrite push_nil.
  - apply Forall_cons_iff in Hdocs as [Hd Hdocs].
    unfold separated in *. simpl concat in *. cbn [fst snd] in *.
    unfold boundary in *.
    rewrite <- !app_assoc in *. simpl app in *.
    rewrite length_app in Hlen. simpl in Hlen.
    destruct fuel as [|fuel]; [lia|].
    destruct (@read_swid_tags_loop_blanks more
                (concat
                   (map (fun d0 => fst d0 ++ LF :: LF :: repeat LF (snd d0))
                      docs) ++ rest)
                fuel (push st [tag_record d] [])) as [fuel1 [Hle1 Heq1]];
      [lia|].
    destruct (IH fuel1 (push st [tag_record d] []) Hdocs Hle1)
      as [fuel' [Hle Heq]].
    exists fuel'. split; [exact Hle|].
    pose proof Hd as [Hnul [Hblank _]].
    rewrite read_swid_tags_loop_document by assumption.
    rewrite added_tag_document by assumption. simpl negb. cbv iota.
    rewrite Heq1, Heq, push_push. reflexivity.
Qed.




End Framing.





(** C9, as the specification words it: one record for each line of the
    stream.  The statement is false: a line that does not fit the buffer
    with its line feed is delivered in pieces, and each piece becomes a
    record.  With the buffer of 512 bytes, the single line of 511 bytes
    gives two records, the second with the empty identifier. *)
Lemma C9_long_line_gives_two_records :
  ~ (forall host st ls,
        Forall plain_line ls ->
        length (inv_list (inventory
                  (this (snd (read_swid_tag_ids host (unlines ls) st)))))
        = length (inv_list (inventory (this st))) + length ls).
Proof.
  intros H.
  assert (Forall plain_line [repeat "a"%char 511]) as Hls.
  { repeat constructor. }
  pose proof (H bare_host fresh [repeat "a"%char 511] Hls) as E.
  vm_compute in E. discriminate E.
Qed.

(** C9, amended: in identifiers-only mode every line [fgets] delivers
    becomes one record, whose identifier is the line without its line feed
    and whose source is the generator; the lines make up the whole stream.
    For a stream of text lines that fit the buffer with their line feed
    these are the lines themselves, the empty ones included: a bare line
    feed gives a record with the empty identifier, where full-tag mode
    adds no record. *)
Theorem C9_one_record_per_line :
  forall host st,
    2 <= BUF_LEN host ->
    (forall file,
        concat (lines_read (BUF_LEN host) file) = file /\
        read_swid_tag_ids host file st
        = (SUCCESS,
           push st
             (map (fun line => id_record (chomp (c_str line)))
                (lines_read (BUF_LEN host) file)) []))
    /\ (forall ls,
           Forall (text_line (BUF_LEN host)) ls ->
           read_swid_tag_ids host (unlines ls) st
           = (SUCCESS, push st (map id_record ls) []))
    /\ read_swid_tag_ids host [LF] st = (SUCCESS, push st [id_record []] [])
    /\ read_swid_tags host [LF] st = (SUCCESS, st).
Proof.
  intros host st Hsize.
  assert (forall ls, Forall (text_line (BUF_LEN host)) ls ->
            read_swid_tag_ids host (unlines ls) st
            = (SUCCESS, push st (map id_record ls) [])) as Htext.
  { intros ls Hls. unfold read_swid_tag_ids.
    rewrite read_swid_tag_ids_loop_lines.
    rewrite fgets_lines_unlines by auto.
    rewrite map_map. do 2 f_equal.
    induction Hls as [|l ls Hl Hls IH]; [reflexivity|].
    simpl. rewrite IH. now rewrite (chomp_text_line Hl). }
  split; [|split; [|split]].
  - intros file. split.
    + apply fgets_lines_concat; auto.
    + apply read_swid_tag_ids_loop_lines.
  - exact Htext.
  - apply (Htext [[]]). repeat constructor. simpl. lia.
  - unfold read_swid_tags, read_swid_tags_loop, bind.
    change (length [LF]) with 1.
    rewrite read_tag_lines_eq. unfold fgets.
    destruct sizeof_line_room as [room ->]. simpl.
    reflexivity.
Qed.

(** The statement of C9 at the three lines [a], the empty line and [b]. *)
Lemma C9_lines_witness :
  2 <= BUF_LEN bare_host /\
  read_swid_tag_ids bare_host (unlines [lit "a"; []; lit "b"]) fresh
  = (SUCCESS,
     push fresh [id_record (lit "a"); id_record []; id_record (lit "b")] []).
Proof.
  assert (2 <= BUF_LEN bare_host) as H by (apply Nat.leb_le; reflexivity).
  split; [exact H|].
  apply (proj1 (proj2 (@C9_one_record_per_line bare_host fresh H))
           [lit "a"; []; lit "b"]).
  repeat constructor; try reflexivity; apply Nat.leb_le; reflexivity.
Defined.

(** ** [collect_tags] *)

Section Walker.

Lemma keep_app targets rs1 rs2 :
  keep targets (rs1 ++ rs2) = keep targets rs1 ++ keep targets rs2.
Proof.
  unfold keep. destruct (inv_get_count targets =? 0); [reflexivity|].
  apply filter_app.
Qed.

Lemma keep_nil targets : keep targets [] = [].
Proof. unfold keep. now destruct (inv_get_count targets =? 0). Qed.

Lemma tied_push st1 st2 r1 c1 r2 c2 :
  tied st1 st2 -> tied (push st1 r1 c1) (push st2 r2 c2).
Proof. auto. Qed.

Lemma ret_push A (a : A) st : ret a st = (a, push st [] []).
Proof. unfold ret. now rewrite push_nil. Qed.

(** The loop body below the directory block. *)
Lemma collect_tag_file_spec pathname entry targets0 targets mode st1 st2 :
  inv_list targets0 = [] -> tied st1 st2 ->
  exists ok rs cs,
    collect_tag_file pathname entry targets0 mode st1 = (ok, push st1 rs cs) /\
    collect_tag_file pathname entry targets mode st2
      = (ok, push st2 (keep targets rs) cs) /\
    Forall (fun a => forall node root m, mode_inherited node root m a) cs.
Proof.
  intros H0 Htied. unfold collect_tag_file.
  destruct (negb mode).
  { exists true, [], []. rewrite keep_nil, !ret_push. auto. }
  destruct (strstr (c_str (node_name entry)) (lit ".swidtag")).
  2:{ exists true, [], []. rewrite keep_nil, !ret_push. auto. }
  unfold bind. rewrite !log_push.
  assert (Forall (fun a => forall node root m, mode_inherited node root m a)
            [act_chunk_map (abs_name_of pathname (node_name entry))]) as Hcalls.
  { repeat constructor. }
  destruct (node_mapped entry) as [swid_tag|].
  2:{ exists false, [],
        [act_chunk_map (abs_name_of pathname (node_name entry))].
      rewrite keep_nil. unfold ret. auto. }
  destruct (extract_sw_id swid_tag) as [status swid].
  destruct status;
    try solve [exists false, [],
                 [act_chunk_map (abs_name_of pathname (node_name entry))];
               rewrite keep_nil; unfold ret; auto].
  unfold inv_get_count at 1. rewrite H0.
  change (negb (length (@nil swima_record_t) =? 0)) with false.
  cbn [andb]. cbv beta iota. unfold get_this at 1. cbv beta iota.
  rewrite inventory_add_push. unfold ret at 1. rewrite push_push.
  set (call := act_chunk_map (abs_name_of pathname (node_name entry))).
  change (sw_id_only (this (push st1 [] [call]))) with (sw_id_only (this st1)).
  set (r := collector_record (sw_id_only (this st1)) pathname swid swid_tag).
  assert ((let (a, st') := get_this (push st2 [] [call]) in
           let (_, st'0) :=
             inventory_add
               (collector_record (sw_id_only a) pathname swid swid_tag) st' in
           ret true st'0) = (true, push st2 [r] [call])) as Hadd.
  { unfold get_this. rewrite inventory_add_push. unfold ret.
    rewrite push_push. unfold r.
    change (sw_id_only (this (push st2 [] [call])))
      with (sw_id_only (this st2)).
    now rewrite Htied. }
  assert (sw_id r = swid) as Hr.
  { unfold r, collector_record. destruct (negb _); reflexivity. }
  exists true, [r], [call].
  split; [reflexivity|]. split; [|exact Hcalls].
  unfold keep. destruct (inv_get_count targets =? 0) eqn:Hcount.
  - cbn [negb andb]. cbv beta iota. exact Hadd.
  - cbn [negb andb filter]. rewrite Hr.
    destruct (matches_target targets swid); cbn [negb].
    + cbv beta iota. exact Hadd.
    + reflexivity.
Qed.

Lemma mode_inherited_root node root mode :
  mode_inherited node root mode (act_collect_tags root mode).
Proof.
  exists []. split; [constructor|]. split; [reflexivity|].
  simpl. now rewrite orb_false_r.
Qed.

Lemma mode_inherited_step name entries m entry root mode a :
  In entry entries ->
  mode_inherited entry (abs_name_of root (node_name entry))
    (mode || named_swidtag (node_name entry)) a ->
  mode_inherited (Directory name (Some entries) m) root mode a.
Proof.
  intros Hin. destruct a as [q|c|p m'|p]; simpl; auto.
  intros [names [Hnames [-> ->]]]. exists (node_name entry :: names).
  split; [now constructor|]. split; [reflexivity|].
  simpl. now rewrite orb_assoc.
Qed.

Lemma collect_tags_eq node pathname targets mode st :
  collect_tags node (Some pathname) targets mode st =
  match node with
  | Directory _ (Some entries) _ =>
      enumerate_entries
        (fun entry abs_name m => collect_tags entry (Some abs_name) targets m)
        pathname targets mode entries
        (push st [] [act_collect_tags pathname mode])
  | _ => (false, push st [] [act_collect_tags pathname mode])
  end.
Proof.
  destruct node as [name m|name [entries|] m]; simpl; unfold bind;
    rewrite log_push; reflexivity.
Qed.

Lemma enumerate_entries_eq descend pathname targets mode entry rest st :
  enumerate_entries descend pathname targets mode (entry :: rest) st =
  if S_ISDIR entry && skipped (abs_name_of pathname (node_name entry))
  then enumerate_entries descend pathname targets mode rest st
  else
    let (ok, st') :=
      (if S_ISDIR entry
       then descend entry (abs_name_of pathname (node_name entry))
              (mode || named_swidtag (node_name entry))
       else ret true) st in
    if negb ok then (false, st')
    else
      let (ok, st'') := collect_tag_file pathname entry targets mode st' in
      if negb ok then (false, st'')
      else enumerate_entries descend pathname targets mode rest st''.
Proof.
  cbn [enumerate_entries].
  destruct (S_ISDIR entry
            && skipped (abs_name_of pathname (node_name entry)));
    [reflexivity|].
  unfold bind, named_swidtag.
  destruct (S_ISDIR entry).
  - destruct (descend entry (abs_name_of pathname (node_name entry))
                (mode || streq (node_name entry) (lit "swidtag")) st)
      as [ok st'].
    destruct (negb ok); [reflexivity|].
    destruct (collect_tag_file pathname entry targets mode st')
      as [ok' st''].
    destruct (negb ok'); reflexivity.
  - destruct (ret true st) as [ok st'].
    destruct (negb ok); [reflexivity|].
    destruct (collect_tag_file pathname entry targets mode st')
      as [ok' st''].
    destruct (negb ok'); reflexivity.
Qed.

(** The loop over entries of the directory [name] that satisfy
    [walk_spec]. *)
Lemma enumerate_entries_spec name all m entries pathname targets0 targets mode :
  Forall walk_spec entries -> incl entries all -> inv_list targets0 = [] ->
  forall st1 st2, tied st1 st2 ->
  exists ok rs cs,
    enumerate_entries
      (fun entry abs_name m => collect_tags entry (Some abs_name) targets0 m)
      pathname targets0 mode entries st1 = (ok, push st1 rs cs) /\
    enumerate_entries
      (fun entry abs_name m => collect_tags entry (Some abs_name) targets m)
      pathname targets mode entries st2
      = (ok, push st2 (keep targets rs) cs) /\
    Forall (mode_inherited (Directory name (Some all) m) pathname mode) cs.
Proof.
  intros Hentries Hincl H0. revert Hincl.
  induction Hentries as [|entry rest Hentry Hrest IH];
    intros Hincl st1 st2 Htied.
  - exists true, [], []. simpl. rewrite keep_nil, !ret_push. auto.
  - assert (In entry all) as Hin by (apply Hincl; now left).
    assert (incl rest all) as Hincl'
        by (intros e He; apply Hincl; now right).
    specialize (IH Hincl').
    rewrite !enumerate_entries_eq.
    destruct (S_ISDIR entry && skipped _); [now apply IH|].
    set (abs_name := abs_name_of pathname (node_name entry)).
    set (mode' := mode || named_swidtag (node_name entry)).
    assert (exists ok rs cs,
              (if S_ISDIR entry
               then collect_tags entry (Some abs_name) targets0 mode'
               else ret true) st1 = (ok, push st1 rs cs) /\
              (if S_ISDIR entry
               then collect_tags entry (Some abs_name) targets mode'
               else ret true) st2 = (ok, push st2 (keep targets rs) cs) /\
              Forall (mode_inherited (Directory name (Some all) m)
                        pathname mode) cs)
      as [ok1 [rs1 [cs1 [E1 [E2 Hcs1]]]]].
    { destruct (S_ISDIR entry).
      - destruct (Hentry abs_name targets0 targets mode' st1 st2 H0 Htied)
          as [ok [rs [cs [E1 [E2 Hcs]]]]].
        exists ok, rs, cs. repeat split; auto.
        eapply Forall_impl; [|exact Hcs].
        intros a. now apply mode_inherited_step.
      - exists true, [], []. rewrite keep_nil, !ret_push. auto. }
    rewrite E1, E2. destruct ok1; simpl negb; cbv iota.
    2:{ exists false, rs1, cs1. auto. }
    destruct (@collect_tag_file_spec pathname entry targets0 targets mode
                (push st1 rs1 cs1) (push st2 (keep targets rs1) cs1) H0)
      as [ok2 [rs2 [cs2 [F1 [F2 Hcs2]]]]]; [now apply tied_push|].
    rewrite F1, F2, !push_push, <- keep_app.
    destruct ok2; simpl negb; cbv iota.
    2:{ exists false, (rs1 ++ rs2), (cs1 ++ cs2). repeat split; auto.
        apply Forall_app. split; [exact Hcs1|].
        eapply Forall_impl; [|exact Hcs2]. intros a H. apply H. }
    destruct (IH (push st1 (rs1 ++ rs2) (cs1 ++ cs2))
                 (push st2 (keep targets (rs1 ++ rs2)) (cs1 ++ cs2)))
      as [ok3 [rs3 [cs3 [G1 [G2 Hcs3]]]]]; [now apply tied_push|].
    rewrite G1, G2, !push_push, <- keep_app.
    exists ok3, ((rs1 ++ rs2) ++ rs3), ((cs1 ++ cs2) ++ cs3).
    repeat split; auto.
    repeat (apply Forall_app; split); auto.
    eapply Forall_impl; [|exact Hcs2]. intros a H. apply H.
Qed.

(** Every node satisfies [walk_spec]. *)
Lemma collect_tags_spec node : walk_spec node.
Proof.
  induction node as [name m|name m|name entries m IH] using fs_node_induction;
    intros root targets0 targets mode st1 st2 H0 Htied;
    rewrite !collect_tags_eq.
  - exists false, [], [act_collect_tags root mode]. rewrite keep_nil.
    repeat split. repeat constructor. apply mode_inherited_root.
  - exists false, [], [act_collect_tags root mode]. rewrite keep_nil.
    repeat split. repeat constructor. apply mode_inherited_root.
  - destruct (@enumerate_entries_spec name entries m entries root targets0
                targets mode IH (incl_refl entries) H0
                (push st1 [] [act_collect_tags root mode])
                (push st2 [] [act_collect_tags root mode]))
      as [ok [rs [cs [E1 [E2 Hcs]]]]]; [now apply tied_push|].
    rewrite E1, E2, !push_push. simpl app.
    exists ok, rs, (act_collect_tags root mode :: cs). repeat split.
    constructor; [apply mode_inherited_root|exact Hcs].
Qed.

End Walker.

Section TagFiles.

Lemma chunk_equals_eq a b : chunk_equals a b = true <-> a = b.
Proof.
  revert b. induction a as [|x a IH]; intros [|y b]; simpl;
    try (split; [discriminate|congruence]); try tauto.
  rewrite andb_true_iff, IH, Ascii.eqb_eq. split.
  - intros [-> ->]. reflexivity.
  - intros [= -> ->]. auto.
Qed.

Lemma matches_target_spec targets swid :
  matches_target targets swid = true <->
  exists target, In target (inv_list targets) /\ sw_id target = swid.
Proof.
  unfold matches_target. rewrite existsb_exists.
  split; intros [t [Hin Ht]]; exists t; split; auto;
    now apply chunk_equals_eq.
Qed.

Lemma add_collector_record pathname swid content st :
  (t <- get_this ;;
   inventory_add (collector_record (sw_id_only t) pathname swid content) ;;;
   ret true) st
  = (true,
     push st [collector_record (sw_id_only (this st)) pathname swid content]
       []).
Proof.
  unfold bind, get_this. rewrite inventory_add_push. reflexivity.
Qed.

(** The loop body on a tag file in tag mode. *)
Lemma collect_tag_file_tag pathname entry targets st :
  tag_file entry ->
  collect_tag_file pathname entry targets true st =
  (true,
   push st
     (keep targets [file_record (sw_id_only (this st)) pathname entry])
     [chunk_map_call pathname entry]).
Proof.
  destruct entry as [name [content|]|]; unfold tag_file; try tauto.
  intros [Hname Hid]. unfold collect_tag_file, file_record, chunk_map_call.
  cbn [node_name node_mapped negb].
  destruct (strstr (c_str name) (lit ".swidtag")); [|congruence].
  unfold bind. rewrite log_push.
  destruct (extract_sw_id content) as [status swid]. simpl in Hid. subst.
  assert (sw_id (collector_record (sw_id_only (this st)) pathname swid content)
          = swid) as Hr.
  { unfold collector_record. destruct (negb _); reflexivity. }
  pose proof (add_collector_record pathname swid content
                (push st [] [act_chunk_map (abs_name_of pathname name)]))
    as Hadd.
  rewrite push_push in Hadd. cbn [app] in Hadd.
  change (sw_id_only (this (push st [] _))) with (sw_id_only (this st))
    in Hadd.
  cbn [snd].
  unfold keep. destruct (inv_get_count targets =? 0); cbn [negb andb filter].
  - exact Hadd.
  - rewrite Hr. destruct (matches_target targets swid); cbn [negb].
    + exact Hadd.
    + reflexivity.
Qed.

(** The loop body on a broken tag file in tag mode. *)
Lemma collect_tag_file_broken pathname entry targets st :
  broken_tag_file entry ->
  collect_tag_file pathname entry targets true st =
  (false, push st [] [chunk_map_call pathname entry]).
Proof.
  destruct entry as [name mapped|]; unfold broken_tag_file; try tauto.
  intros [Hname Hbad]. unfold collect_tag_file, chunk_map_call.
  cbn [node_name node_mapped negb].
  destruct (strstr (c_str name) (lit ".swidtag")); [|congruence].
  unfold bind. rewrite log_push.
  destruct mapped as [content|]; [|reflexivity].
  destruct (extract_sw_id content) as [status swid]. simpl in Hbad.
  destruct status; try reflexivity. congruence.
Qed.

(** The loop over tag files that ends at a broken one: whatever follows
    is not looked at. *)
Lemma enumerate_entries_broken descend pathname targets before bad after st :
  Forall tag_file before -> broken_tag_file bad ->
  enumerate_entries descend pathname targets true (before ++ bad :: after) st
  = (false,
     push st
       (keep targets
          (map (file_record (sw_id_only (this st)) pathname) before))
       (map (chunk_map_call pathname) (before ++ [bad]))).
Proof.
  intros Hbefore Hbad. revert st.
  induction Hbefore as [|entry before Hentry Hbefore IH]; intros st.
  - simpl app. rewrite enumerate_entries_eq.
    assert (S_ISDIR bad = false) as -> by (destruct bad; simpl in *; tauto).
    simpl andb. cbv iota. unfold ret at 1. simpl negb. cbv iota.
    rewrite collect_tag_file_broken by assumption. simpl negb. cbv iota.
    now rewrite keep_nil.
  - change ((entry :: before) ++ bad :: after)
      with (entry :: (before ++ bad :: after)).
    rewrite enumerate_entries_eq.
    assert (S_ISDIR entry = false) as ->
        by (destruct entry as [? [?|]|]; simpl in *; tauto).
    simpl andb. cbv iota. unfold ret at 1. simpl negb. cbv iota.
    rewrite collect_tag_file_tag by assumption. simpl negb. cbv iota.
    rewrite IH, push_push.
    change (sw_id_only (this (push st _ _))) with (sw_id_only (this st)).
    change (map (file_record (sw_id_only (this st)) pathname)
              (entry :: before))
      with ([file_record (sw_id_only (this st)) pathname entry]
              ++ map (file_record (sw_id_only (this st)) pathname) before).
    now rewrite keep_app.
Qed.

End TagFiles.

(** C4: every call of [collect_tags] made during a walk is a call on an
    entry nested in the root, and its mode is the mode of the walk's first
    call, or [true] when an entry on the way from the root to it is named
    [swidtag]; so the mode of a call is its parent's mode or that its own
    name is [swidtag], and below a call in tag mode every call is in tag
    mode.  Outside tag mode the loop body
    leaves a file alone.  On the tree [root/a/swidtag/x.swidtag],
    [root/b/y.swidtag] without targets the walk adds the one record of
    [x.swidtag] and never maps [y.swidtag]. *)
Theorem C4_mode_inheritance :
  (forall node root targets mode st,
      exists ok rs cs,
        collect_tags node (Some root) targets mode st = (ok, push st rs cs) /\
        Forall (mode_inherited node root mode) cs)
  /\ (forall node root targets st,
         exists ok rs cs,
           collect_tags node (Some root) targets true st
             = (ok, push st rs cs) /\
           Forall in_tag_mode cs)
  /\ (forall pathname entry targets st,
         collect_tag_file pathname entry targets false st = (true, st))
  /\ collect_tags sample_tree (Some (lit "root")) no_targets false fresh
     = (true,
        push fresh
          [ {| record_id := 0; sw_id := lit "R__T1";
               sw_locator := lit "root/a";
               source_id := SOURCE_ID_COLLECTOR;
               record := sample_tag_1 |} ]
          [ act_collect_tags (lit "root") false;
            act_collect_tags (lit "root/a") false;
            act_collect_tags (lit "root/a/swidtag") true;
            act_chunk_map (lit "root/a/swidtag/x.swidtag");
            act_collect_tags (lit "root/b") false ]).
Proof.
  assert (forall node root targets mode st,
      exists ok rs cs,
        collect_tags node (Some root) targets mode st = (ok, push st rs cs) /\
        Forall (mode_inherited node root mode) cs) as Hcalls.
  { intros node root targets mode st.
    destruct (@collect_tags_spec node root no_targets targets mode st st
                eq_refl eq_refl) as [ok [rs [cs [_ [E Hcs]]]]].
    exists ok, (keep targets rs), cs. auto. }
  split; [exact Hcalls|]. split; [|split].
  - intros node root targets st.
    destruct (Hcalls node root targets true st) as [ok [rs [cs [E Hcs]]]].
    exists ok, rs, cs. split; [exact E|].
    eapply Forall_impl; [|exact Hcs].
    intros [q|c|p m|p]; simpl; auto. now intros [names [_ [_ ->]]].
  - reflexivity.
  - vm_compute. reflexivity.
Qed.

Lemma add_swid_tag_pushes doc st :
  exists status rs, add_swid_tag doc st = (status, push st rs []).
Proof.
  unfold add_swid_tag. destruct (1 <? length doc).
  - match goal with
    | |- context [extract_sw_id ?t] =>
        destruct (extract_sw_id t) as [status swid]
    end.
    destruct status; try (eexists _, []; apply ret_push).
    unfold bind. rewrite inventory_add_push. unfold ret.
    eexists _, _. reflexivity.
  - eexists _, []. apply ret_push.
Qed.

Lemma read_swid_tags_loop_pushes host fuel file st :
  exists status rs,
    read_swid_tags_loop host fuel file st = (status, push st rs []).
Proof.
  revert file st. induction fuel as [|fuel IH]; intros file st.
  - eexists _, []. apply ret_push.
  - cbn [read_swid_tags_loop].
    destruct (read_tag_lines host (length file) true [] file)
      as [[more_tags swid_tag] file'].
    unfold bind.
    destruct (add_swid_tag_pushes swid_tag st) as [status [rs ->]].
    destruct (negb (status_eqb status SUCCESS)).
    + eexists _, _. reflexivity.
    + destruct more_tags.
      * destruct (IH file' (push st rs [])) as [status' [rs' ->]].
        rewrite push_push. eexists _, _. reflexivity.
      * eexists _, _. reflexivity.
Qed.

(** C5: a stream in which tag documents are followed by text without an
    identifier is read up to that text; the read returns [NOT_FOUND] and
    the records of the documents before it stay in the inventory.  A
    directory in tag mode whose tag files are followed by a file that
    cannot be mapped or holds no identifier is walked up to that file; the
    walk returns [FALSE], the records of the files before it stay, the
    entries after it are not visited, and a failed walk of a subdirectory
    ends the walk of its parent at once.  Whatever the result, a read or a
    walk only appends to the inventory. *)
Theorem C5_no_rollback :
  (forall host docs bad rest st,
      Forall tag_document (map fst docs) ->
      nul_free bad = true -> no_blank true (bad ++ [LF]) = true ->
      fst (extract_sw_id bad) <> SUCCESS ->
      read_swid_tags host (separated docs ++ bad ++ LF :: LF :: rest) st
        = (NOT_FOUND, push st (map tag_record (map fst docs)) []))
  /\ (forall host file st,
         exists status rs,
           read_swid_tags host file st = (status, push st rs []))
  /\ (forall name m root targets before bad after st,
         Forall tag_file before -> broken_tag_file bad ->
         collect_tags (Directory name (Some (before ++ bad :: after)) m)
           (Some root) targets true st
         = (false,
            push st
              (keep targets
                 (map (file_record (sw_id_only (this st)) root) before))
              (act_collect_tags root true
                 :: map (chunk_map_call root) (before ++ [bad]))))
  /\ (forall name m root targets mode sub rest st st',
         S_ISDIR sub = true ->
         skipped (abs_name_of root (node_name sub)) = false ->
         collect_tags sub (Some (abs_name_of root (node_name sub))) targets
           (mode || named_swidtag (node_name sub))
           (push st [] [act_collect_tags root mode]) = (false, st') ->
         collect_tags (Directory name (Some (sub :: rest)) m) (Some root)
           targets mode st = (false, st'))
  /\ (forall node root targets mode st,
         exists ok rs cs,
           collect_tags node (Some root) targets mode st
             = (ok, push st rs cs)).
Proof.
  split; [|split; [|split; [|split]]].
  - intros host docs bad rest st Hdocs Hnul Hblank Hbad.
    unfold read_swid_tags.
    destruct (@read_swid_tags_loop_separated host docs
                (bad ++ LF :: LF :: rest)
                (length (separated docs ++ bad ++ LF :: LF :: rest)) st Hdocs)
      as [fuel' [_ ->]]; [lia|].
    rewrite read_swid_tags_loop_document by assumption.
    unfold added. destruct (extract_status bad) as [E|[swid E]];
      rewrite E in *; [reflexivity|].
    simpl in Hbad. congruence.
  - intros host file st. apply read_swid_tags_loop_pushes.
  - intros name m root targets before bad after st Hbefore Hbad.
    rewrite collect_tags_eq, enumerate_entries_broken by assumption.
    rewrite push_push. reflexivity.
  - intros name m root targets mode sub rest st st' Hdir Hskip Hsub.
    rewrite collect_tags_eq, enumerate_entries_eq, Hdir, Hskip.
    cbn [andb]. cbv iota. rewrite Hsub. reflexivity.
  - intros node root targets mode st.
    destruct (@collect_tags_spec node root no_targets targets mode st st
                eq_refl eq_refl) as [ok [rs [cs [_ [E _]]]]].
    eauto.
Qed.

(** The statement of C5 at a stream and at a directory that hold a tag,
    something broken and another tag. *)
Lemma C5_no_rollback_witness :
  read_swid_tags bare_host
    (separated [(sample_tag_1, 0)] ++ sample_broken
       ++ LF :: LF :: sample_tag_2)
    fresh
  = (NOT_FOUND, push fresh [tag_record sample_tag_1] [])
  /\ collect_tags
       (Directory (lit "swidtag")
          (Some ([Regular (lit "one.swidtag") (Some sample_tag_1)]
                   ++ Regular (lit "bad.swidtag") (Some sample_broken)
                   :: [Regular (lit "two.swidtag") (Some sample_tag_2)]))
          None)
       (Some (lit "/swidtag")) no_targets true fresh
     = (false,
        push fresh
          (keep no_targets
             (map (file_record false (lit "/swidtag"))
                [Regular (lit "one.swidtag") (Some sample_tag_1)]))
          (act_collect_tags (lit "/swidtag") true
             :: map (chunk_map_call (lit "/swidtag"))
                  ([Regular (lit "one.swidtag") (Some sample_tag_1)]
                     ++ [Regular (lit "bad.swidtag") (Some sample_broken)]))).
Proof.
  split.
  - apply (proj1 C5_no_rollback bare_host [(sample_tag_1, 0)] sample_broken
             sample_tag_2 fresh).
    + repeat constructor; try reflexivity; apply Nat.ltb_lt; reflexivity.
    + reflexivity.
    + reflexivity.
    + vm_compute. discriminate.
  - apply (proj1 (proj2 (proj2 C5_no_rollback))).
    + repeat constructor; vm_compute; discriminate || reflexivity.
    + split; vm_compute; discriminate.
Defined.

(** C7: a walk for a non-empty set of targets makes the calls and has the
    result of the walk without targets, and of the records that walk adds
    it adds those whose identifier is the identifier of a target.  A tag
    file found in tag mode is added exactly when its identifier matches;
    when it does not, the loop goes on to the next entry.  With the target
    [R__T1] and tags [R__T1] and [R__T2] only the record of [R__T1] is
    kept. *)
Theorem C7_target_filter :
  (forall node root targets0 targets mode st,
      inv_list targets0 = [] -> inv_get_count targets <> 0 ->
      exists ok rs cs,
        collect_tags node (Some root) targets0 mode st = (ok, push st rs cs) /\
        collect_tags node (Some root) targets mode st
          = (ok,
             push st
               (filter (fun r => matches_target targets (sw_id r)) rs) cs))
  /\ (forall targets swid,
         matches_target targets swid = true <->
         exists target, In target (inv_list targets) /\ sw_id target = swid)
  /\ (forall pathname entry targets st,
         inv_get_count targets <> 0 -> tag_file entry ->
         collect_tag_file pathname entry targets true st
         = (true,
            push st
              (if matches_target targets
                    (sw_id (file_record (sw_id_only (this st)) pathname entry))
               then [file_record (sw_id_only (this st)) pathname entry]
               else [])
              [chunk_map_call pathname entry]))
  /\ collect_tags sample_top (Some (lit "/top"))
       (targets_of [lit "R__T1"]) false fresh
     = (true,
        push fresh
          [ {| record_id := 0; sw_id := lit "R__T1";
               sw_locator := lit "/top";
               source_id := SOURCE_ID_COLLECTOR;
               record := sample_tag_1 |} ]
          [ act_collect_tags (lit "/top") false;
            act_collect_tags (lit "/top/swidtag") true;
            act_chunk_map (lit "/top/swidtag/one.swidtag");
            act_chunk_map (lit "/top/swidtag/two.swidtag") ]).
Proof.
  split; [|split; [|split]].
  - intros node root targets0 targets mode st H0 Hcount.
    destruct (@collect_tags_spec node root targets0 targets mode st st
                H0 eq_refl) as [ok [rs [cs [E1 [E2 _]]]]].
    exists ok, rs, cs. split; [exact E1|]. rewrite E2. unfold keep.
    apply Nat.eqb_neq in Hcount. now rewrite Hcount.
  - apply matches_target_spec.
  - intros pathname entry targets st Hcount Hentry.
    rewrite collect_tag_file_tag by assumption.
    unfold keep. apply Nat.eqb_neq in Hcount. rewrite Hcount. reflexivity.
  - vm_compute. reflexivity.
Qed.

(** The first part of C7 at the sample directory and the target [R__T1]. *)
Lemma C7_target_filter_witness :
  inv_list no_targets = [] /\
  inv_get_count (targets_of [lit "R__T1"]) <> 0 /\
  exists ok rs cs,
    collect_tags sample_top (Some (lit "/top")) no_targets false fresh
      = (ok, push fresh rs cs) /\
    collect_tags sample_top (Some (lit "/top")) (targets_of [lit "R__T1"])
      false fresh
      = (ok,
         push fresh
           (filter
              (fun r => matches_target (targets_of [lit "R__T1"]) (sw_id r))
              rs)
           cs).
Proof.
  split; [reflexivity|]. split; [discriminate|].
  apply (proj1 C7_target_filter sample_top (lit "/top") no_targets
           (targets_of [lit "R__T1"]) false fresh).
  - reflexivity.
  - discriminate.
Defined.

(** ** [generate_tags] and the persistence adapter *)

Section Sources.

Lemma status_eqb_eq a : status_eqb a SUCCESS = true <-> a = SUCCESS.
Proof. destruct a; simpl; split; congruence. Qed.

Lemma read_swid_tags_pushes host file st :
  exists status rs, read_swid_tags host file st = (status, push st rs []).
Proof. apply read_swid_tags_loop_pushes. Qed.

Lemma read_swid_tag_ids_pushes host file st :
  exists status rs, read_swid_tag_ids host file st = (status, push st rs []).
Proof.
  unfold read_swid_tag_ids. rewrite read_swid_tag_ids_loop_lines.
  eexists _, _. reflexivity.
Qed.

(** The loop over the targets runs one command for each target, in order,
    until a command cannot be started or a read fails. *)
Lemma generate_target_tags_spec host generator pretty full targets st :
  exists status rs n,
    generate_target_tags host generator pretty full targets st
    = (status,
       push st rs
         (map (fun t => act_popen (target_command host generator pretty full t))
            (firstn n targets))) /\
    (status = SUCCESS -> n = length targets).
Proof.
  revert st. induction targets as [|target rest IH]; intros st.
  - exists SUCCESS, [], 0. simpl. rewrite ret_push. auto.
  - cbn [generate_target_tags].
    fold (target_command host generator pretty full target).
    unfold bind. rewrite log_push.
    destruct (popen host (target_command host generator pretty full target))
      as [file|].
    + destruct (read_swid_tags_pushes host file
                  (push st [] [act_popen
                     (target_command host generator pretty full target)]))
        as [status [rs ->]].
      rewrite push_push. simpl app.
      destruct (negb (status_eqb status SUCCESS)) eqn:E.
      * exists status, rs, 1. split; [reflexivity|].
        intros ->. discriminate.
      * destruct (IH (push st rs [act_popen
                        (target_command host generator pretty full target)]))
          as [status' [rs' [n [-> Hn]]]].
        rewrite push_push.
        exists status', (rs ++ rs'), (S n). split; [reflexivity|].
        intros H. simpl. f_equal. auto.
    + exists NOT_SUPPORTED, [], 1. split; [reflexivity|].
      discriminate.
Qed.

Lemma generate_tags_pushes host generator targets pretty full st :
  exists status rs cs,
    generate_tags host generator targets pretty full st
    = (status, push st rs cs) /\ Forall popen_call cs.
Proof.
  unfold generate_tags, bind, get_this.
  destruct (inv_get_count targets =? 0).
  - rewrite log_push.
    match goal with
    | |- context [popen host ?c] => set (command := c)
    end.
    destruct (popen host command) as [file|].
    + destruct (sw_id_only (this st)).
      * destruct (read_swid_tag_ids_pushes host file
                    (push st [] [act_popen command])) as [status [rs ->]].
        rewrite push_push. exists status, rs, [act_popen command].
        split; [reflexivity|]. repeat constructor.
      * destruct (read_swid_tags_pushes host file
                    (push st [] [act_popen command])) as [status [rs ->]].
        rewrite push_push. exists status, rs, [act_popen command].
        split; [reflexivity|]. repeat constructor.
    + exists NOT_SUPPORTED, [], [act_popen command].
      split; [reflexivity|]. repeat constructor.
  - destruct (negb (sw_id_only (this st))).
    + destruct (generate_target_tags_spec host generator pretty full
                  (inv_list targets) st) as [status [rs [n [-> _]]]].
      eexists _, _, _. split; [reflexivity|].
      apply Forall_forall. intros a Ha. apply in_map_iff in Ha as [t [<- _]].
      exact I.
    + exists SUCCESS, [], []. rewrite ret_push. auto.
Qed.

Lemma enumerate_installed_push rows st :
  enumerate_installed rows st = (tt, push st (map installed_record rows) []).
Proof.
  revert st. induction rows as [|[[id name] source] rows IH]; intros st.
  - apply ret_push.
  - cbn [enumerate_installed]. unfold bind.
    rewrite inventory_add_push, IH, push_push. reflexivity.
Qed.

Lemma retrieve_inventory_pushes d targets st :
  exists status rs,
    retrieve_inventory d targets st
    = (status, push st rs [act_db_query q_installed]).
Proof.
  unfold retrieve_inventory, bind. rewrite log_push.
  destruct (query_installed d) as [rows|].
  - rewrite enumerate_installed_push, push_push. unfold ret.
    eexists _, _. reflexivity.
  - unfold ret. eexists _, _. reflexivity.
Qed.

End Sources.

(** C8: with targets and identifiers only requested, [generate_tags] returns
    [SUCCESS] and leaves the state as it is: no command is run and no
    record is added.  With targets and full tags requested it runs one
    command per target, in the order of the targets, up to the first one
    that cannot be started or whose output cannot be read. *)
Theorem C8_targets_identifiers_only :
  (forall host generator targets pretty full st,
      inv_get_count targets <> 0 -> sw_id_only (this st) = true ->
      generate_tags host generator targets pretty full st = (SUCCESS, st))
  /\ (forall host generator targets pretty full st,
         inv_get_count targets <> 0 -> sw_id_only (this st) = false ->
         exists status rs n,
           generate_tags host generator targets pretty full st
           = (status,
              push st rs
                (map (fun t =>
                        act_popen
                          (target_command host generator pretty full t))
                   (firstn n (inv_list targets)))) /\
           (status = SUCCESS -> n = inv_get_count targets)).
Proof.
  split.
  - intros host generator targets pretty full st Hcount Honly.
    unfold generate_tags, bind, get_this.
    apply Nat.eqb_neq in Hcount. rewrite Hcount, Honly. reflexivity.
  - intros host generator targets pretty full st Hcount Honly.
    unfold generate_tags, bind, get_this.
    apply Nat.eqb_neq in Hcount. rewrite Hcount, Honly. cbn [negb].
    apply generate_target_tags_spec.
Qed.

(** The statement of C8 at the target [R__T1], on a host where every
    command prints a tag. *)
Lemma C8_targets_witness :
  generate_tags
    {| conf_swid_directory := None; conf_swid_generator := None;
       conf_swid_pretty := false; conf_swid_full := false;
       BUF_LEN := 512; popen := fun _ => Some sample_tag_1;
       fs_root := Directory [] None None; stack_byte := NUL |}
    SWID_GENERATOR (targets_of [lit "R__T1"]) false false
    (restarted true fresh)
  = (SUCCESS, restarted true fresh).
Proof.
  apply (proj1 C8_targets_identifiers_only).
  - discriminate.
  - reflexivity.
Defined.

(** ** [collect_inventory] *)

Section Inventory.

Lemma source_1_pushes host only targets st :
  exists status rs cs,
    source_1 host only targets st = (status, push st rs cs) /\
    (if only && store_connected st
     then cs = [act_db_query q_installed]
     else Forall popen_call cs).
Proof.
  unfold source_1, store_connected.
  destruct (db (this st)) as [d|]; [destruct only|].
  - destruct (retrieve_inventory_pushes d targets st) as [status [rs ->]].
    exists status, rs, [act_db_query q_installed]. split; reflexivity.
  - cbn [andb]. apply generate_tags_pushes.
  - rewrite andb_false_r. apply generate_tags_pushes.
Qed.

Lemma collect_tags_pushes node pathname targets mode st :
  exists ok rs cs,
    collect_tags node pathname targets mode st = (ok, push st rs cs).
Proof.
  destruct pathname as [root|].
  - destruct (@collect_tags_spec node root no_targets targets mode st st
                eq_refl eq_refl) as [ok [rs [cs [_ [E _]]]]].
    eauto.
  - exists true, [], []. destruct node; apply ret_push.
Qed.

Lemma collect_inventory_eq host only targets st :
  collect_inventory host only targets st =
  (let (status, st1) := source_1 host only targets (restarted only st) in
   let (_, st2) :=
     collect_tags (fs_root host) (conf_swid_directory host) targets false st1
   in
   (if status_eqb status SUCCESS then Some (inventory (this st2)) else None,
    st2)).
Proof.
  unfold collect_inventory, source_1, bind, get_this, generator_of.
  unfold set_sw_id_only, inventory_clear. cbv beta iota zeta.
  cbn [this trace sw_id_only db inventory events].
  fold (restarted only st).
  change (db (this (restarted only st))) with (db (this st)).
  destruct only; destruct (db (this st)); reflexivity.
Qed.

End Inventory.

(** C2: [collect_inventory] empties the inventory, runs source 1, which is
    the query of the store exactly when identifiers only are requested and
    a store is connected and the generator otherwise, then walks the
    configured directory whatever source 1 returned, and returns the
    inventory, which holds the records of source 1 followed by those of
    the walk, if and only if source 1 returned [SUCCESS]; the result of
    the walk is not looked at. *)
Theorem C2_collect_inventory :
  forall host only targets st,
  exists status rs1 cs1 ok rs2 cs2,
    let st0 := restarted only st in
    let st2 := push st0 (rs1 ++ rs2) (cs1 ++ cs2) in
    source_1 host only targets st0 = (status, push st0 rs1 cs1) /\
    (if only && store_connected st
     then cs1 = [act_db_query q_installed]
     else Forall popen_call cs1) /\
    collect_tags (fs_root host) (conf_swid_directory host) targets false
      (push st0 rs1 cs1) = (ok, st2) /\
    collect_inventory host only targets st
      = (if status_eqb status SUCCESS then Some (inventory (this st2))
         else None, st2) /\
    inv_list (inventory (this st2)) = rs1 ++ rs2 /\
    (fst (collect_inventory host only targets st) <> None
     <-> status = SUCCESS).
Proof.
  intros host only targets st.
  destruct (source_1_pushes host only targets (restarted only st))
    as [status [rs1 [cs1 [E1 Hcs1]]]].
  destruct (collect_tags_pushes (fs_root host) (conf_swid_directory host)
              targets false (push (restarted only st) rs1 cs1))
    as [ok [rs2 [cs2 E2]]].
  rewrite push_push in E2.
  exists status, rs1, cs1, ok, rs2, cs2. cbv zeta.
  assert (collect_inventory host only targets st
          = (if status_eqb status SUCCESS
             then Some (inventory
                          (this (push (restarted only st) (rs1 ++ rs2)
                                   (cs1 ++ cs2))))
             else None,
             push (restarted only st) (rs1 ++ rs2) (cs1 ++ cs2))) as E.
  { rewrite collect_inventory_eq, E1, E2. reflexivity. }
  repeat split; auto.
  - rewrite E. simpl fst. intros H.
    destruct (status_eqb status SUCCESS) eqn:Hs; [|congruence].
    now apply status_eqb_eq.
  - intros ->. rewrite E. simpl. discriminate.
Qed.

(** ** The event query *)

Section Sorting.

Variable row : Type.
Variable leb : row -> row -> bool.
Hypothesis leb_total : forall a b, leb a b = true \/ leb b a = true.

Lemma insert_row_perm r l : Permutation (insert_row leb r l) (r :: l).
Proof.
  induction l as [|x l IH]; simpl; [reflexivity|].
  destruct (leb r x); [reflexivity|].
  rewrite IH. apply perm_swap.
Qed.

Lemma order_by_perm rows : Permutation (order_by leb rows) rows.
Proof.
  induction rows as [|r rows IH]; simpl; [reflexivity|].
  rewrite insert_row_perm. now constructor.
Qed.

Lemma insert_row_hd x r l :
  ordered_by leb x r -> HdRel (ordered_by leb) x l ->
  HdRel (ordered_by leb) x (insert_row leb r l).
Proof.
  intros Hxr Hl. destruct l as [|y l]; simpl.
  - now constructor.
  - destruct (leb r y); constructor; auto. now inversion Hl.
Qed.

Lemma insert_row_sorted r l :
  Sorted (ordered_by leb) l -> Sorted (ordered_by leb) (insert_row leb r l).
Proof.
  induction 1 as [|x l Hl IH Hhd]; simpl.
  - repeat constructor.
  - destruct (leb r x) eqn:E.
    + repeat constructor; auto.
    + constructor; [exact IH|].
      apply insert_row_hd; [|exact Hhd].
      destruct (leb_total r x); [congruence|assumption].
Qed.

Lemma order_by_sorted rows : Sorted (ordered_by leb) (order_by leb rows).
Proof.
  induction rows as [|r rows IH]; simpl; [constructor|].
  now apply insert_row_sorted.
Qed.

End Sorting.

Section EventOrder.



Lemma nat_of_ascii_inj x y : nat_of_ascii x = nat_of_ascii y -> x = y.
Proof.
  intros H. rewrite <- (ascii_nat_embedding x), <- (ascii_nat_embedding y).
  now rewrite H.
Qed.

Lemma text_leb_total a b : text_leb a b = true \/ text_leb b a = true.
Proof.
  revert b. induction a as [|x a IH]; intros [|y b]; simpl; auto.
  rewrite (Ascii.eqb_sym y x).
  destruct (Ascii.eqb_spec x y) as [->|Hxy]; [apply IH|].
  destruct (Nat.ltb_spec (nat_of_ascii x) (nat_of_ascii y)); [now left|].
  right. apply Nat.ltb_lt.
  assert (nat_of_ascii x <> nat_of_ascii y)
    by (intros H'; now apply nat_of_ascii_inj in H').
  lia.
Qed.





End EventOrder.

(** ** [collect_events] *)

Section Events.


End Events.


Section EventsMore.

Lemma uint32_of_db_fits n : fits_uint32 n -> uint32_of_db n = n.
Proof. intros H. now apply N.mod_small. Qed.


End EventsMore.



(** On the sample database the events 2 and 3 are returned for the
    watermark 2, in this order. *)
Example collect_events_sample :
  option_map (fun evs => map ev_eid (evs_list evs))
    (fst (collect_events true (targets_of_eid 2)
            (sample_connected sample_db)))
  = Some [2; 3]%N.
Proof. vm_compute. reflexivity. Qed.

(** C10: [set_private_key] returns [FALSE] whatever the value is; when
    the value has the length of a key it has copied the value into the
    private key and written nothing to the log, and returns [FALSE] all
    the same. *)
Theorem C10_set_private_key_fails :
  forall ECCref_MAX_LEN this value,
    fst (fst (Gmalg.set_private_key ECCref_MAX_LEN this value)) = false
    /\ Gmalg.K (Gmalg.priKey
                  (snd (fst (Gmalg.set_private_key ECCref_MAX_LEN this value))))
       = map (Gmalg.ptr value) (seq 0 ECCref_MAX_LEN)
           ++ skipn ECCref_MAX_LEN (Gmalg.K (Gmalg.priKey this))
    /\ (Gmalg.len value = ECCref_MAX_LEN ->
        Gmalg.set_private_key ECCref_MAX_LEN this value
        = (false,
           {| Gmalg.shared_secret := Gmalg.shared_secret this;
              Gmalg.pubKey := Gmalg.pubKey this;
              Gmalg.priKey :=
                {| Gmalg.K :=
                     map (Gmalg.ptr value) (seq 0 ECCref_MAX_LEN)
                       ++ skipn ECCref_MAX_LEN (Gmalg.K (Gmalg.priKey this)) |};
              Gmalg.otherPubKey := Gmalg.otherPubKey this;
              Gmalg.computed := Gmalg.computed this |},
           [])).
Proof.
  intros n this value. repeat split.
  intros Hlen. unfold Gmalg.set_private_key. rewrite Hlen, Nat.eqb_refl.
  reflexivity.
Qed.

(** The statement of C10 at a key of 32 bytes, all of them [*]: the key
    is stored, nothing is logged, and the call returns [FALSE]. *)
Lemma C10_set_private_key_witness :
  Gmalg.len Gmalg.sample_key = 32 /\
  fst (fst (Gmalg.set_private_key 32 Gmalg.sample_object Gmalg.sample_key))
  = false /\
  Gmalg.set_private_key 32 Gmalg.sample_object Gmalg.sample_key
  = (false,
     {| Gmalg.shared_secret := Gmalg.shared_secret Gmalg.sample_object;
        Gmalg.pubKey := Gmalg.pubKey Gmalg.sample_object;
        Gmalg.priKey := {| Gmalg.K := repeat "*"%char 32 |};
        Gmalg.otherPubKey := Gmalg.otherPubKey Gmalg.sample_object;
        Gmalg.computed := Gmalg.computed Gmalg.sample_object |},
     []).
Proof.
  split; [reflexivity|]. split.
  - exact (proj1 (C10_set_private_key_fails 32 Gmalg.sample_object
                    Gmalg.sample_key)).
  - rewrite (proj2 (proj2 (C10_set_private_key_fails 32 Gmalg.sample_object
                             Gmalg.sample_key)) eq_refl).
    reflexivity.
Defined.

(** * Further properties *)

(** ** [extract_sw_id], continued *)

Section ExtractionMore.

Lemma c_str_cons c s :
  c_str (c :: s) = if Ascii.eqb c NUL then [] else c :: c_str s.
Proof. unfold c_str. simpl. now destruct (Ascii.eqb c NUL). Qed.

Lemma c_str_is_nul_free s : nul_free (c_str s) = true.
Proof.
  induction s as [|c s IH]; [reflexivity|].
  rewrite c_str_cons. destruct (Ascii.eqb c NUL) eqn:E; [reflexivity|].
  unfold nul_free in *. rewrite free_of_cons, IH, Ascii.eqb_sym, E.
  reflexivity.
Qed.

Lemma firstn_min_length n (s : list ascii) :
  firstn (Nat.min n (length s)) s = firstn n s.
Proof.
  destruct (Nat.le_ge_cases n (length s)) as [H|H].
  - now rewrite Nat.min_l.
  - rewrite Nat.min_r by assumption.
    now rewrite firstn_all, firstn_all2.
Qed.

Lemma strndup_searched s :
  strndup s (Nat.min 1023 (length s)) = searched s.
Proof. unfold strndup, searched. now rewrite firstn_min_length. Qed.

Lemma strchr_split s c p :
  strchr s c = Some p ->
  exists a r, s = a ++ c :: r /\ p = c :: r /\ free_of c a = true.
Proof.
  induction s as [|z s IH]; simpl; [discriminate|].
  destruct (Ascii.eqb_spec z c) as [->|Hz].
  - intros [= <-]. now exists [], s.
  - intros H. apply IH in H as [a [r [-> [-> Ha]]]].
    exists (z :: a), r. repeat split.
    rewrite free_of_cons, Ha, andb_true_r.
    apply negb_true_iff. destruct (Ascii.eqb_spec c z); congruence.
Qed.

Lemma free_of_sub c a b d :
  free_of c (a ++ b ++ d) = true -> free_of c b = true.
Proof.
  rewrite !free_of_app. intros H.
  apply andb_true_iff in H as [_ H]. now apply andb_true_iff in H as [H _].
Qed.

(** What a successful extraction found. *)
Lemma extract_success s swid :
  extract_sw_id s = (SUCCESS, swid) ->
  exists pre T mid R rest,
    searched s = tag_text pre T mid R rest /\
    swid = R ++ lit "__" ++ T /\
    quote_free T = true /\ quote_free R = true.
Proof.
  unfold extract_sw_id. rewrite strndup_searched.
  change (lit "tagId=" ++ [DQUOTE]) with TAGID.
  change (lit "regid=" ++ [DQUOTE]) with REGID.
  destruct (strstr (searched s) TAGID) as [p|] eqn:E1; [|discriminate].
  apply strstr_some in E1 as [pre [r [Hs ->]]].
  change (skipn 7 (TAGID ++ r)) with r.
  destruct (strchr r DQUOTE) as [q|] eqn:E2; [|discriminate].
  apply strchr_split in E2 as [T [r2 [-> [-> HT]]]].
  destruct (strstr (DQUOTE :: r2) REGID) as [p'|] eqn:E3; [|discriminate].
  apply strstr_some in E3 as [a [r3 [Ha ->]]].
  destruct a as [|z mid]; [discriminate|]. injection Ha as <- ->.
  change (skipn 7 (REGID ++ r3)) with r3.
  destruct (strchr r3 DQUOTE) as [q'|] eqn:E4; [|discriminate].
  apply strchr_split in E4 as [R [rest [-> [-> HR]]]].
  intros [= <-].
  exists pre, T, mid, R, rest. repeat split; auto.
  apply f_equal2; [exact (firstn_app_exact R (DQUOTE :: rest))|].
  apply (f_equal (app (lit "__"))).
  exact (firstn_app_exact T (DQUOTE :: mid ++ REGID ++ R ++ DQUOTE :: rest)).
Qed.

Lemma searched_length s : length (searched s) <= 1023.
Proof.
  unfold searched. rewrite length_c_str.
  eapply Nat.le_trans; [apply strlen_le|].
  rewrite length_firstn. apply Nat.le_min_l.
Qed.

End ExtractionMore.

(** X1: what a successful extraction returns.  When [extract_sw_id]
    returns [SUCCESS], the bytes it searched, the first 1023 up to a NUL,
    have the shape of a tag text with a tag identifier [T] and a
    registration identifier [R] that hold no quote, and the result is [R],
    two underscores and [T]; it holds no NUL and has at most 1009 bytes. *)
Theorem X1_extracted_identifier s swid :
  extract_sw_id s = (SUCCESS, swid) ->
  exists pre T mid R rest,
    searched s = tag_text pre T mid R rest /\
    swid = R ++ lit "__" ++ T /\
    quote_free T = true /\ quote_free R = true /\
    nul_free swid = true /\ length swid + 14 <= 1023.
Proof.
  intros H.
  destruct (extract_success s H) as [pre [T [mid [R [rest [Hs [-> [HT HR]]]]]]]].
  exists pre, T, mid, R, rest. repeat split; auto.
  - pose proof (c_str_is_nul_free (firstn 1023 s)) as Hn.
    fold (searched s) in Hn. rewrite Hs in Hn.
    unfold nul_free, tag_text in *.
    repeat (rewrite free_of_app in Hn || rewrite free_of_cons in Hn).
    repeat (rewrite free_of_app || rewrite free_of_cons).
    repeat match goal with
           | H : _ && _ = true |- _ => apply andb_true_iff in H as [? ?]
           end.
    repeat (apply andb_true_iff; split); auto.
  - pose proof (searched_length s) as Hl. rewrite Hs in Hl.
    unfold tag_text in Hl.
    change (DQUOTE :: mid ++ REGID ++ R ++ DQUOTE :: rest)
      with ([DQUOTE] ++ mid ++ REGID ++ R ++ [DQUOTE] ++ rest) in Hl.
    rewrite !length_app in *.
    change (length TAGID) with 7 in Hl. change (length REGID) with 7 in Hl.
    change (length [DQUOTE]) with 1 in Hl.
    change (length (lit "__")) with 2. lia.
Qed.

(** The statement of X1 at the first sample tag. *)
Lemma X1_extracted_witness :
  extract_sw_id sample_tag_1 = (SUCCESS, lit "R__T1") /\
  exists pre T mid R rest,
    searched sample_tag_1 = tag_text pre T mid R rest /\
    lit "R__T1" = R ++ lit "__" ++ T /\
    quote_free T = true /\ quote_free R = true /\
    nul_free (lit "R__T1") = true /\ length (lit "R__T1") + 14 <= 1023.
Proof.
  split; [reflexivity|].
  apply X1_extracted_identifier. reflexivity.
Defined.

(** X2: the result of [extract_sw_id] depends on the first 1023 bytes up
    to a NUL only: two inputs that agree there give the same status and
    the same identifier. *)
Theorem X2_extraction_window s t :
  searched s = searched t -> extract_sw_id s = extract_sw_id t.
Proof.
  intros H. unfold extract_sw_id. rewrite !strndup_searched, H.
  reflexivity.
Qed.

(** The statement of X2 at the first sample tag and the same bytes followed
    by a NUL and a second tag. *)
Lemma X2_extraction_window_witness :
  searched sample_tag_1 = searched (sample_tag_1 ++ [NUL] ++ sample_tag_2) /\
  extract_sw_id sample_tag_1
  = extract_sw_id (sample_tag_1 ++ [NUL] ++ sample_tag_2).
Proof.
  split; [reflexivity|].
  apply X2_extraction_window. reflexivity.
Defined.

(** ** The walker, continued *)

Section WalkerMore.

Lemma appends_ret A only (a : A) : appends only (ret a) a [] [].
Proof. intros st _. apply ret_push. Qed.

Lemma appends_bind A B only (m : M A) (k : A -> M B) a b r1 c1 r2 c2 :
  appends only m a r1 c1 -> appends only (k a) b r2 c2 ->
  appends only (bind m k) b (r1 ++ r2) (c1 ++ c2).
Proof.
  intros Hm Hk st Hst. unfold bind. rewrite (Hm st Hst).
  rewrite (Hk (push st r1 c1) Hst). now rewrite push_push.
Qed.

Lemma appends_log only a : appends only (log a) tt [] [a].
Proof. intros st _. apply log_push. Qed.

Lemma appends_add only r : appends only (inventory_add r) tt [r] [].
Proof. intros st _. apply inventory_add_push. Qed.

Lemma appends_this A only (k : private_swima_collector_t -> M A) a rs cs :
  (forall t, sw_id_only t = only -> appends only (k t) a rs cs) ->
  appends only (bind get_this k) a rs cs.
Proof. intros H st Hst. unfold bind, get_this. now apply H. Qed.

Lemma collector_record_made only pathname swid tag s :
  extract_sw_id s = (SUCCESS, swid) ->
  collector_made only (collector_record only pathname swid tag).
Proof.
  intros H. apply extract_success in H as [pre [T [mid [R [rest [_ [-> _]]]]]]].
  unfold collector_made, collector_record.
  destruct only; cbn; repeat split; try discriminate; try (now exists R, T).
Qed.

(** The loop body below the directory block, in the same terms. *)
Lemma collect_tag_file_facts pathname entry targets mode only :
  exists ok rs cs,
    appends only (collect_tag_file pathname entry targets mode) ok rs cs /\
    Forall (collector_made only) rs /\
    Forall (visit_allowed pathname) cs /\
    (mode = false -> rs = [] /\ cs = []) /\
    (cs = [] \/
     cs = [act_chunk_map (abs_name_of pathname (node_name entry))]).
Proof.
  unfold collect_tag_file. destruct mode; cbn [negb].
  2:{ exists true, [], []. split; [apply appends_ret|]. auto. }
  destruct (strstr (c_str (node_name entry)) (lit ".swidtag")).
  2:{ exists true, [], []. split; [apply appends_ret|].
      repeat split; auto; discriminate. }
  set (call := act_chunk_map (abs_name_of pathname (node_name entry))).
  assert (Forall (visit_allowed pathname) [call]) as Hcall.
  { repeat constructor. exists pathname, (node_name entry). auto. }
  assert (forall ok : bool,
            appends only (log call ;;; ret ok) ok [] [call]) as Hstop.
  { intros ok. apply (@appends_bind _ _ only (log call) (fun _ => ret ok)
                        tt ok [] [call] [] []
                        (@appends_log only call) (@appends_ret _ only ok)). }
  destruct (node_mapped entry) as [swid_tag|].
  2:{ exists false, [], [call]. repeat split; auto; discriminate. }
  destruct (extract_sw_id swid_tag) as [status swid] eqn:E.
  destruct status;
    try solve [exists false, [], [call]; repeat split; auto; discriminate].
  destruct (negb (inv_get_count targets =? 0)
            && negb (matches_target targets swid)).
  { exists true, [], [call]. repeat split; auto; discriminate. }
  exists true, [collector_record only pathname swid swid_tag], [call].
  split; [|split; [|split; [|split]]]; auto.
  - apply (@appends_bind _ _ only (log call) _ tt true [] [call] [_] []
             (@appends_log only call)).
    apply appends_this. intros t ->.
    apply (@appends_bind _ _ _ (inventory_add _) (fun _ => ret true)
             tt true [_] [] [] []
             (@appends_add _ _) (@appends_ret _ _ true)).
  - constructor; [|constructor]. now apply collector_record_made with swid_tag.
  - discriminate.
Qed.

Lemma visit_allowed_below pathname name a :
  skipped (abs_name_of pathname name) = false ->
  visit_allowed (abs_name_of pathname name) a -> visit_allowed pathname a.
Proof.
  intros Hs. destruct a as [q|c|p m|p]; simpl; auto.
  - intros [->|H]; auto.
  - intros [dir [n [-> H]]]. exists dir, n. split; [reflexivity|].
    destruct H as [->|H]; auto.
Qed.

Lemma appends_bind_nil A B only (m : M A) (k : A -> M B) a b rs cs :
  appends only m a [] [] -> appends only (k a) b rs cs ->
  appends only (bind m k) b rs cs.
Proof. intros Hm Hk. exact (@appends_bind A B only m k a b [] [] rs cs Hm Hk). Qed.

(** The loop over the entries of a directory. *)
Lemma enumerate_entries_facts entries pathname targets mode only :
  Forall walk_facts entries ->
  exists ok rs cs,
    appends only
      (enumerate_entries
         (fun entry abs_name m => collect_tags entry (Some abs_name) targets m)
         pathname targets mode entries) ok rs cs /\
    Forall (collector_made only) rs /\
    Forall (visit_allowed pathname) cs /\
    (mode = false ->
     existsb (fun e => (S_ISDIR e && named_swidtag (node_name e))
                       || has_swidtag e) entries = false ->
     rs = [] /\ Forall collect_call cs).
Proof.
  induction 1 as [|entry rest Hentry _ IH].
  { exists true, [], []. split; [apply appends_ret|]. auto. }
  destruct IH as [ok' [rs' [cs' [E' [Hr' [Hc' Hn']]]]]].
  set (abs_name := abs_name_of pathname (node_name entry)).
  destruct (S_ISDIR entry && skipped abs_name) eqn:Hskip.
  { exists ok', rs', cs'. split; [|split; [|split]]; auto.
    - intros st Hst. rewrite enumerate_entries_eq. fold abs_name.
      rewrite Hskip. now apply E'.
    - intros Hm Hx. cbn [existsb] in Hx.
      apply orb_false_iff in Hx as [_ Hx]. auto. }
  assert (exists ok1 r1 c1,
             appends only
               (if S_ISDIR entry
                then collect_tags entry (Some abs_name) targets
                       (mode || named_swidtag (node_name entry))
                else ret true) ok1 r1 c1 /\
             Forall (collector_made only) r1 /\
             Forall (visit_allowed pathname) c1 /\
             (mode = false ->
              (S_ISDIR entry && named_swidtag (node_name entry))
              || has_swidtag entry = false ->
              r1 = [] /\ Forall collect_call c1))
    as [ok1 [r1 [c1 [E1 [Hr1 [Hc1 Hn1]]]]]].
  { destruct (S_ISDIR entry) eqn:Hdir.
    - cbn [andb] in Hskip.
      destruct (Hentry abs_name targets
                  (mode || named_swidtag (node_name entry)) only)
        as [ok1 [r1 [c1 [E1 [Hr1 [Hc1 Hn1]]]]]].
      exists ok1, r1, c1. split; [|split; [|split]]; auto.
      + eapply Forall_impl; [|exact Hc1].
        intros a. now apply visit_allowed_below.
      + intros -> Hx. cbn [andb] in Hx.
        apply orb_false_iff in Hx as [Hname Hsub].
        apply Hn1; [now rewrite Hname|exact Hsub].
    - exists true, [], []. split; [apply appends_ret|]. auto. }
  destruct (collect_tag_file_facts pathname entry targets mode only)
    as [ok2 [r2 [c2 [E2 [Hr2 [Hc2 [Hn2 _]]]]]]].
  assert (forall st, sw_id_only (this st) = only ->
            enumerate_entries
              (fun entry abs_name m =>
                 collect_tags entry (Some abs_name) targets m)
              pathname targets mode (entry :: rest) st
            = if negb ok1 then (false, push st r1 c1)
              else if negb ok2 then (false, push st (r1 ++ r2) (c1 ++ c2))
              else (ok', push st (r1 ++ r2 ++ rs') (c1 ++ c2 ++ cs')))
    as E.
  { intros st Hst. rewrite enumerate_entries_eq. fold abs_name.
    rewrite Hskip. rewrite (E1 st Hst).
    destruct ok1; cbn [negb]; [|reflexivity].
    rewrite (E2 (push st r1 c1) Hst), push_push.
    destruct ok2; cbn [negb]; [|reflexivity].
    rewrite (E' (push st (r1 ++ r2) (c1 ++ c2)) Hst), push_push.
    now rewrite <- !app_assoc. }
  assert (mode = false ->
          existsb (fun e => (S_ISDIR e && named_swidtag (node_name e))
                            || has_swidtag e) (entry :: rest) = false ->
          (r1 = [] /\ Forall collect_call c1) /\ (r2 = [] /\ c2 = []) /\
          (rs' = [] /\ Forall collect_call cs')) as Hn.
  { intros Hm Hx. cbn [existsb] in Hx.
    apply orb_false_iff in Hx as [Hx1 Hx2]. auto. }
  destruct ok1; [destruct ok2|].
  - exists ok', (r1 ++ r2 ++ rs'), (c1 ++ c2 ++ cs').
    split; [exact E|].
    split; [now rewrite !Forall_app|].
    split; [now rewrite !Forall_app|].
    intros Hm Hx.
    destruct (Hn Hm Hx) as [[-> H1] [[-> ->] [-> H3]]].
    split; [reflexivity|]. now rewrite !Forall_app.
  - exists false, (r1 ++ r2), (c1 ++ c2).
    split; [exact E|].
    split; [now rewrite !Forall_app|].
    split; [now rewrite !Forall_app|].
    intros Hm Hx.
    destruct (Hn Hm Hx) as [[-> H1] [[-> ->] _]].
    split; [reflexivity|]. now rewrite app_nil_r.
  - exists false, r1, c1.
    split; [exact E|]. split; [exact Hr1|]. split; [exact Hc1|].
    intros Hm Hx. now destruct (Hn Hm Hx) as [H1 _].
Qed.

(** Every node satisfies [walk_facts]. *)
Lemma collect_tags_facts node : walk_facts node.
Proof.
  induction node as [name m|name m|name entries m IH] using fs_node_induction;
    intros root targets mode only.
  - exists false, [], [act_collect_tags root mode].
    split; [intros st _; apply collect_tags_eq|].
    repeat split; auto; repeat constructor.
  - exists false, [], [act_collect_tags root mode].
    split; [intros st _; apply collect_tags_eq|].
    repeat split; auto; repeat constructor.
  - destruct (@enumerate_entries_facts entries root targets mode only IH)
      as [ok [rs [cs [E [Hr [Hc Hn]]]]]].
    exists ok, rs, (act_collect_tags root mode :: cs).
    split; [|split; [|split]]; auto.
    + intros st Hst. rewrite collect_tags_eq.
      rewrite (E (push st [] [act_collect_tags root mode]) Hst).
      now rewrite push_push.
    + constructor; [now left|exact Hc].
    + intros Hm Hx. destruct (Hn Hm Hx) as [-> H]. split; [reflexivity|].
      constructor; [exact I|exact H].
Qed.

(** The walk whatever the configured directory is. *)
Lemma visit_allowed_no_query root a : visit_allowed root a -> no_query a.
Proof. now destruct a. Qed.

Lemma collect_tags_appends node pathname targets mode only :
  exists ok rs cs,
    appends only (collect_tags node pathname targets mode) ok rs cs /\
    Forall (collector_made only) rs /\ Forall no_query cs.
Proof.
  destruct pathname as [root|].
  - destruct (@collect_tags_facts node root targets mode only)
      as [ok [rs [cs [E [Hr [Hc _]]]]]].
    exists ok, rs, cs. split; [exact E|]. split; [exact Hr|].
    eapply Forall_impl; [|exact Hc]. apply visit_allowed_no_query.
  - exists true, [], []. split; [|split; constructor].
    intros st _. destruct node; apply ret_push.
Qed.

Lemma strstr_absent hay needle : ~ occurs needle hay -> strstr hay needle = None.
Proof.
  intros H. destruct (strstr hay needle) as [p|] eqn:E; [|reflexivity].
  apply strstr_some in E as [a [r [-> ->]]]. exfalso. apply H.
  now exists a, r.
Qed.

Lemma sw_locator_collector_record only pathname swid tag :
  sw_locator (collector_record only pathname swid tag)
  = match strstr (c_str pathname) (lit "/swidtag") with
    | Some pos => firstn (length (c_str pathname) - length pos) pathname
    | None => chunk_empty
    end.
Proof. unfold collector_record. now destruct only. Qed.

Lemma skipped_spec p : skipped p = true <-> In (c_str p) skip_directories.
Proof.
  unfold skipped. rewrite existsb_exists. split.
  - intros [d [Hd He]]. apply chunk_equals_eq in He.
    assert (c_str d = d) as Hcd.
    { simpl in Hd. decompose [or] Hd; subst; try reflexivity; contradiction. }
    rewrite He, Hcd. exact Hd.
  - intros H. exists (c_str p). split; [exact H|].
    apply chunk_equals_eq.
    symmetry. apply c_str_nul_free, c_str_is_nul_free.
Qed.

End WalkerMore.

Section Exclusion.

Lemma abs_name_of_eq q name : abs_name_of q name = with_slash q ++ c_str name.
Proof. reflexivity. Qed.

Lemma with_slash_prefix q : prefix_of (with_slash q) (c_str q ++ lit "/").
Proof.
  unfold with_slash. destruct (Ascii.eqb (last (c_str q) NUL) "/").
  - now exists (lit "/").
  - exists []. now rewrite app_nil_r.
Qed.

Lemma with_slash_nul_free q : nul_free (with_slash q) = true.
Proof.
  unfold with_slash. destruct (Ascii.eqb (last (c_str q) NUL) "/").
  - apply c_str_is_nul_free.
  - rewrite nul_free_app, c_str_is_nul_free. reflexivity.
Qed.

Lemma abs_name_of_c_str q name :
  c_str (abs_name_of q name) = abs_name_of q name.
Proof.
  apply c_str_nul_free. rewrite abs_name_of_eq, nul_free_app.
  now rewrite with_slash_nul_free, c_str_is_nul_free.
Qed.

(** A text without [c], followed by [c], is found whole in front of the
    first [c]. *)
Lemma up_to_first c n s t :
  free_of c n = true -> s ++ c :: t = n ++ [c] -> s = n /\ t = [].
Proof.
  revert s. induction n as [|z n IH]; intros s Hn E.
  - destruct s as [|a s]; simpl in E.
    + injection E as ->. auto.
    + injection E as _ E. now destruct s.
  - rewrite free_of_cons in Hn. apply andb_true_iff in Hn as [Hz Hn].
    destruct s as [|a s]; simpl in E.
    + injection E as -> _. rewrite Ascii.eqb_refl in Hz. discriminate.
    + injection E as -> E. destruct (IH s Hn E) as [-> ->]. auto.
Qed.

(** A text that is not empty and ends a text that ends in [c] ends in
    [c]. *)
Lemma ends_with (c : ascii) a s d :
  s <> [] -> a ++ s = d ++ [c] -> exists s', s = s' ++ [c].
Proof.
  intros Hs E. destruct s as [|z s' _] using rev_ind; [contradiction|].
  rewrite app_assoc in E. apply app_inj_tail in E as [_ ->]. now exists s'.
Qed.

Lemma free_of_prefix c h s :
  prefix_of h s -> free_of c s = true -> free_of c h = true.
Proof.
  intros [t ->]. rewrite free_of_app. intros H.
  now apply andb_true_iff in H as [H _].
Qed.

Lemma skipped_directory d : In d skip_directories -> skipped d = true.
Proof.
  intros H. apply skipped_spec.
  assert (c_str d = d) as ->; [|exact H].
  simpl in H. decompose [or] H; subst; try reflexivity; contradiction.
Qed.

(** The two ways [d/] can begin [q/ ++ rest]. *)
Lemma beneath_cases d q rest :
  ~ beneath d (c_str q ++ lit "/") ->
  beneath d (with_slash q ++ rest) ->
  exists s t, s <> [] /\ with_slash q ++ s = d ++ lit "/" /\ rest = s ++ t.
Proof.
  intros Hq [t E].
  symmetry in E. apply app_eq_app in E as [l [[E1 E2]|[E1 E2]]].
  - destruct l as [|z l].
    + exfalso. apply Hq.
      apply prefix_of_trans with (with_slash q); [|apply with_slash_prefix].
      exists []. now rewrite E1, !app_nil_r.
    + exists (z :: l), t. repeat split; auto. discriminate.
  - exfalso. apply Hq.
    apply prefix_of_trans with (with_slash q); [|apply with_slash_prefix].
    now exists l.
Qed.

(** A mapped entry of a directory that is not [d] or below it is not below
    [d]. *)
Lemma entry_outside d q name :
  ~ beneath d (c_str q ++ lit "/") ->
  free_of "/"%char name = true ->
  ~ beneath d (abs_name_of q name).
Proof.
  intros Hq Hname Hb. rewrite abs_name_of_eq in Hb.
  destruct (@beneath_cases d q _ Hq Hb) as [s [t [Hs [E1 E2]]]].
  destruct (@ends_with _ _ _ _ Hs E1) as [s' ->].
  assert (free_of "/"%char (c_str name) = true) as Hn.
  { exact (@free_of_prefix _ _ _ (c_str_prefix name) Hname). }
  rewrite E2, <- app_assoc, !free_of_app in Hn.
  apply andb_true_iff in Hn as [_ Hn].
  apply andb_true_iff in Hn as [Hn _]. discriminate Hn.
Qed.

(** A directory entered from a directory that is not [d] or below it is
    not [d] or below it. *)
Lemma directory_outside d q name :
  In d skip_directories ->
  ~ beneath d (c_str q ++ lit "/") ->
  free_of "/"%char name = true ->
  skipped (abs_name_of q name) = false ->
  ~ beneath d (c_str (abs_name_of q name) ++ lit "/").
Proof.
  intros Hd Hq Hname Hskip Hb.
  rewrite abs_name_of_c_str, abs_name_of_eq, <- app_assoc in Hb.
  destruct (@beneath_cases d q _ Hq Hb) as [s [t [Hs [E1 E2]]]].
  destruct (@ends_with _ _ _ _ Hs E1) as [s' ->].
  assert (free_of "/"%char (c_str name) = true) as Hn.
  { exact (@free_of_prefix _ _ _ (c_str_prefix name) Hname). }
  rewrite <- app_assoc in E2. symmetry in E2.
  destruct (@up_to_first _ _ _ _ Hn E2) as [-> ->].
  rewrite app_assoc in E1. apply app_inj_tail in E1 as [E1 _].
  rewrite <- abs_name_of_eq in E1.
  rewrite E1, (@skipped_directory d Hd) in Hskip. discriminate.
Qed.

(** The loop over the entries, with respect to [d]. *)
Lemma enumerate_entries_outside d entries pathname targets mode only :
  In d skip_directories ->
  Forall (walk_outside d) entries ->
  forallb (fun e => free_of "/"%char (node_name e) && plain_names e) entries
  = true ->
  ~ beneath d (c_str pathname ++ lit "/") ->
  exists ok rs cs,
    appends only
      (enumerate_entries
         (fun entry abs_name m => collect_tags entry (Some abs_name) targets m)
         pathname targets mode entries) ok rs cs /\
    Forall (outside d) cs.
Proof.
  intros Hd Hall. induction Hall as [|entry rest Hentry _ IH];
    intros Hnames Hpath.
  { exists true, [], []. split; [apply appends_ret|constructor]. }
  cbn [forallb] in Hnames. apply andb_true_iff in Hnames as [Hname Hrest].
  apply andb_true_iff in Hname as [Hname Hplain].
  destruct (IH Hrest Hpath) as [ok' [rs' [cs' [E' Hc']]]].
  set (abs_name := abs_name_of pathname (node_name entry)).
  destruct (S_ISDIR entry && skipped abs_name) eqn:Hskip.
  { exists ok', rs', cs'. split; [|exact Hc'].
    intros st Hst. rewrite enumerate_entries_eq. fold abs_name.
    rewrite Hskip. now apply E'. }
  assert (exists ok1 r1 c1,
             appends only
               (if S_ISDIR entry
                then collect_tags entry (Some abs_name) targets
                       (mode || named_swidtag (node_name entry))
                else ret true) ok1 r1 c1 /\
             Forall (outside d) c1)
    as [ok1 [r1 [c1 [E1 Hc1]]]].
  { destruct (S_ISDIR entry) eqn:Hdir.
    - cbn [andb] in Hskip.
      apply (Hentry Hplain abs_name targets
               (mode || named_swidtag (node_name entry)) only).
      now apply directory_outside.
    - exists true, [], []. split; [apply appends_ret|constructor]. }
  destruct (collect_tag_file_facts pathname entry targets mode only)
    as [ok2 [r2 [c2 [E2 [_ [_ [_ Hcalls]]]]]]].
  assert (Forall (outside d) c2) as Hc2.
  { destruct Hcalls as [->| ->]; [constructor|].
    constructor; [|constructor]. now apply entry_outside. }
  assert (forall st, sw_id_only (this st) = only ->
            enumerate_entries
              (fun entry abs_name m =>
                 collect_tags entry (Some abs_name) targets m)
              pathname targets mode (entry :: rest) st
            = if negb ok1 then (false, push st r1 c1)
              else if negb ok2 then (false, push st (r1 ++ r2) (c1 ++ c2))
              else (ok', push st (r1 ++ r2 ++ rs') (c1 ++ c2 ++ cs')))
    as E.
  { intros st Hst. rewrite enumerate_entries_eq. fold abs_name.
    rewrite Hskip. rewrite (E1 st Hst).
    destruct ok1; cbn [negb]; [|reflexivity].
    rewrite (E2 (push st r1 c1) Hst), push_push.
    destruct ok2; cbn [negb]; [|reflexivity].
    rewrite (E' (push st (r1 ++ r2) (c1 ++ c2)) Hst), push_push.
    now rewrite <- !app_assoc. }
  destruct ok1; [destruct ok2|].
  - exists ok', (r1 ++ r2 ++ rs'), (c1 ++ c2 ++ cs').
    split; [exact E|]. now rewrite !Forall_app.
  - exists false, (r1 ++ r2), (c1 ++ c2).
    split; [exact E|]. now rewrite !Forall_app.
  - exists false, r1, c1. split; [exact E|exact Hc1].
Qed.

(** Every node satisfies [walk_outside]. *)
Lemma collect_tags_outside d node :
  In d skip_directories -> walk_outside d node.
Proof.
  intros Hd.
  induction node as [name m|name m|name entries m IH] using fs_node_induction;
    intros Hnames root targets mode only Hroot.
  - exists false, [], [act_collect_tags root mode].
    split; [intros st _; apply collect_tags_eq|].
    constructor; [exact Hroot|constructor].
  - exists false, [], [act_collect_tags root mode].
    split; [intros st _; apply collect_tags_eq|].
    constructor; [exact Hroot|constructor].
  - destruct (@enumerate_entries_outside d entries root targets mode only
                Hd IH Hnames Hroot) as [ok [rs [cs [E Hc]]]].
    exists ok, rs, (act_collect_tags root mode :: cs). split.
    + intros st Hst. rewrite collect_tags_eq.
      rewrite (E (push st [] [act_collect_tags root mode]) Hst).
      now rewrite push_push.
    + constructor; [exact Hroot|exact Hc].
Qed.

End Exclusion.

(** X3: the walk does not touch an excluded directory.  Let [d] be one of
    the four directories of [skip_directories], let no name in the tree
    hold a slash, and let the root of the walk be neither [d] nor a path
    below [d].  Then, whatever the mode and the targets, no call of
    [collect_tags] during the walk is on [d] or on a path below [d], no
    file that is mapped lies below [d], and the walk runs no command and
    no query.  A path is excluded exactly when it is, up to its
    terminator, one of the four. *)
Theorem X3_excluded_directories_not_entered :
  (forall d node root targets mode st,
      In d skip_directories ->
      plain_names node = true ->
      ~ beneath d (c_str root ++ lit "/") ->
      exists ok rs cs,
        collect_tags node (Some root) targets mode st = (ok, push st rs cs) /\
        Forall (outside d) cs) /\
  (forall p, skipped p = true <-> In (c_str p) skip_directories).
Proof.
  split.
  - intros d node root targets mode st Hd Hnames Hroot.
    destruct (@collect_tags_outside d node Hd Hnames root targets mode
                (sw_id_only (this st)) Hroot)
      as [ok [rs [cs [E Hc]]]].
    exists ok, rs, cs. split; [now apply E|exact Hc].
  - apply skipped_spec.
Qed.

(** The statement of X3 at the root [/] and the directory
    [/usr/share/doc], which holds a tag file in a [swidtag] directory. *)
Lemma X3_excluded_witness :
  In (lit "/usr/share/doc") skip_directories /\
  plain_names sample_doc_tree = true /\
  ~ beneath (lit "/usr/share/doc") (c_str (lit "/") ++ lit "/") /\
  exists ok rs cs,
    collect_tags sample_doc_tree (Some (lit "/")) no_targets true fresh
    = (ok, push fresh rs cs) /\
    Forall (outside (lit "/usr/share/doc")) cs.
Proof.
  assert (In (lit "/usr/share/doc") skip_directories) as H1.
  { left. reflexivity. }
  assert (~ beneath (lit "/usr/share/doc") (c_str (lit "/") ++ lit "/"))
    as H2.
  { intros H. apply is_prefix_true in H. discriminate H. }
  split; [exact H1|]. split; [reflexivity|]. split; [exact H2|].
  apply (proj1 X3_excluded_directories_not_entered); auto.
Defined.

(** The walk of that tree from [/] in tag mode: [/usr] and [/usr/share]
    are entered, [/usr/share/doc] is not, and no record is added. *)
Example walk_from_root_skips_doc :
  collect_tags sample_doc_tree (Some (lit "/")) no_targets true fresh
  = (true,
     push fresh []
       [ act_collect_tags (lit "/") true;
         act_collect_tags (lit "/usr") true;
         act_collect_tags (lit "/usr/share") true ]).
Proof. vm_compute. reflexivity. Qed.

(** X5: the locator of a collected record is the part of the directory's
    path in front of the first [/swidtag]: for a path [base/swidtag...]
    whose [base] holds no NUL and in which [/swidtag] does not occur
    earlier, the locator is [base], whatever follows; for a path in which
    [/swidtag] does not occur, the locator is empty. *)
Theorem X5_locator_before_swidtag :
  (forall only base more swid tag,
      nul_free base = true ->
      ~ occurs (lit "/swidtag") (base ++ lit "/swidta") ->
      sw_locator
        (collector_record only (base ++ lit "/swidtag" ++ more) swid tag)
      = base) /\
  (forall only pathname swid tag,
      ~ occurs (lit "/swidtag") pathname ->
      sw_locator (collector_record only pathname swid tag) = chunk_empty).
Proof.
  split.
  - intros only base more swid tag Hbase Hfirst.
    rewrite sw_locator_collector_record.
    rewrite (@c_str_app base (lit "/swidtag" ++ more) Hbase).
    assert (nul_free (lit "/swidtag") = true) as Hn by reflexivity.
    rewrite (@c_str_app (lit "/swidtag") more Hn).
    rewrite (@strstr_first (lit "/swidtag") base (c_str more));
      [|discriminate|exact Hfirst].
    rewrite (length_app base), Nat.add_sub.
    rewrite firstn_app, firstn_all, Nat.sub_diag. simpl firstn.
    apply app_nil_r.
  - intros only pathname swid tag Hno.
    rewrite sw_locator_collector_record.
    rewrite strstr_absent; [reflexivity|].
    intros H. apply Hno.
    exact (@occurs_prefix (lit "/swidtag") (c_str pathname) pathname
             (c_str_prefix pathname) H).
Qed.

(** The statement of X5 at [/usr/share/swidtag/vendor] and at
    [/usr/share]. *)
Lemma X5_locator_witness :
  (nul_free (lit "/usr/share") = true /\
   ~ occurs (lit "/swidtag") (lit "/usr/share" ++ lit "/swidta") /\
   sw_locator
     (collector_record false (lit "/usr/share" ++ lit "/swidtag" ++ lit "/vendor")
        (lit "R__T1") sample_tag_1)
   = lit "/usr/share") /\
  (~ occurs (lit "/swidtag") (lit "/usr/share") /\
   sw_locator (collector_record false (lit "/usr/share") (lit "R__T1")
                 sample_tag_1)
   = chunk_empty).
Proof.
  assert (~ occurs (lit "/swidtag") (lit "/usr/share" ++ lit "/swidta")) as H1.
  { apply occursb_false. reflexivity. }
  assert (~ occurs (lit "/swidtag") (lit "/usr/share")) as H2.
  { apply occursb_false. reflexivity. }
  split; [split; [reflexivity|split; [exact H1|]]|split; [exact H2|]].
  - apply (proj1 X5_locator_before_swidtag); [reflexivity|exact H1].
  - apply (proj2 X5_locator_before_swidtag). exact H2.
Defined.

(** X4: a tree in which no directory is named [swidtag], walked as
    [collect_inventory] starts the walk, gives no record: no file is
    mapped, whatever its name, and the only calls are those of
    [collect_tags] itself. *)
Theorem X4_no_swidtag_directory_no_record node root targets st :
  has_swidtag node = false ->
  exists ok cs,
    collect_tags node (Some root) targets false st = (ok, push st [] cs) /\
    Forall collect_call cs.
Proof.
  intros Hno.
  destruct (@collect_tags_facts node root targets false
              (sw_id_only (this st)))
    as [ok [rs [cs [E [_ [_ Hn]]]]]].
  destruct (Hn eq_refl Hno) as [-> Hc].
  exists ok, cs. split; [now apply E|exact Hc].
Qed.

(** The statement of X4 at a directory that holds a tag file but is not
    below a [swidtag] directory. *)
Lemma X4_no_swidtag_witness :
  let tree :=
    Directory [] (Some [Directory (lit "share")
                          (Some [Regular (lit "a.swidtag")
                                   (Some sample_tag_1)]) None]) None in
  has_swidtag tree = false /\
  exists ok cs,
    collect_tags tree (Some (lit "/usr")) no_targets false fresh
    = (ok, push fresh [] cs) /\
    Forall collect_call cs.
Proof.
  split; [reflexivity|].
  apply X4_no_swidtag_directory_no_record. reflexivity.
Defined.

(** ** The generator and the store, continued *)

Section SourcesMore.

Lemma generator_made_any only r :
  generator_made true r -> generator_made only r.
Proof. intros [H1 [H2 [H3 H4]]]. repeat split; auto. Qed.

Lemma add_swid_tag_facts doc :
  exists status rs,
    (forall only, appends only (add_swid_tag doc) status rs []) /\
    Forall (generator_made false) rs /\
    (status = SUCCESS \/ status = NOT_FOUND).
Proof.
  unfold add_swid_tag. destruct (1 <? length doc).
  2:{ exists SUCCESS, []. split; [intros only; apply appends_ret|]. auto. }
  match goal with
  | |- context [extract_sw_id ?d] => set (doc' := d)
  end.
  destruct (extract_status doc') as [E|[swid E]]; rewrite E.
  - exists NOT_FOUND, []. split; [intros only; apply appends_ret|]. auto.
  - exists SUCCESS, [generator_record swid doc'].
    split; [|split; [|now left]].
    + intros only.
      exact (@appends_bind _ _ only (inventory_add _) (fun _ => ret SUCCESS)
               tt SUCCESS [_] [] [] []
               (@appends_add _ _) (@appends_ret _ _ SUCCESS)).
    + constructor; [|constructor]. repeat split. discriminate.
Qed.

Lemma read_swid_tags_loop_facts host fuel file :
  exists status rs,
    (forall only, appends only (read_swid_tags_loop host fuel file)
                    status rs []) /\
    Forall (generator_made false) rs /\
    (status = SUCCESS \/ status = NOT_FOUND).
Proof.
  revert file. induction fuel as [|fuel IH]; intros file.
  { exists SUCCESS, []. split; [intros only; apply appends_ret|]. auto. }
  cbn [read_swid_tags_loop].
  destruct (read_tag_lines host (length file) true [] file)
    as [[more doc] file'].
  destruct (add_swid_tag_facts doc) as [s1 [r1 [E1 [H1 Hs1]]]].
  destruct Hs1 as [->| ->].
  - destruct more.
    + destruct (IH file') as [s2 [r2 [E2 [H2 Hs2]]]].
      exists s2, (r1 ++ r2). split; [|split; [now rewrite Forall_app|auto]].
      intros only st Hst. unfold bind. rewrite (E1 only st Hst).
      change (status_eqb SUCCESS SUCCESS) with true. cbn [negb].
      rewrite (E2 only) by exact Hst. rewrite push_push.
      reflexivity.
    + exists SUCCESS, r1. split; [|auto].
      intros only st Hst. unfold bind. rewrite (E1 only st Hst).
      reflexivity.
  - exists NOT_FOUND, r1. split; [|auto].
    intros only st Hst. unfold bind. rewrite (E1 only st Hst).
    reflexivity.
Qed.

Lemma read_swid_tag_ids_loop_facts host fuel file :
  exists rs,
    (forall only, appends only (read_swid_tag_ids_loop host fuel file)
                    SUCCESS rs []) /\
    Forall (generator_made true) rs.
Proof.
  revert file. induction fuel as [|fuel IH]; intros file.
  { exists []. split; [intros only; apply appends_ret|]. auto. }
  cbn [read_swid_tag_ids_loop].
  destruct (fgets (BUF_LEN host) file) as [[line file']|].
  2:{ exists []. split; [intros only; apply appends_ret|]. auto. }
  destruct (IH file') as [rs [E H]].
  match goal with
  | |- context [inventory_add ?r] => set (r0 := r)
  end.
  exists (r0 :: rs). split.
  - intros only st Hst. unfold bind. rewrite inventory_add_push.
    rewrite (E only) by exact Hst.
    rewrite push_push. reflexivity.
  - constructor; [|exact H]. repeat split.
Qed.

Lemma generate_target_tags_facts host generator pretty full targets :
  exists status rs cs,
    appends false
      (generate_target_tags host generator pretty full targets)
      status rs cs /\
    generated host false status rs cs.
Proof.
  induction targets as [|target rest IH].
  { exists SUCCESS, [], []. split; [apply appends_ret|].
    repeat split; auto; discriminate. }
  cbn [generate_target_tags].
  fold (target_command host generator pretty full target).
  set (command := target_command host generator pretty full target).
  destruct (popen host command) as [file|] eqn:Hp.
  2:{ exists NOT_SUPPORTED, [], [act_popen command]. split.
      - intros st Hst. unfold bind. rewrite log_push. reflexivity.
      - repeat split; auto; try discriminate.
        exists [], (act_popen command). repeat split; auto.
        now exists command. }
  assert (started host (act_popen command)) as Hstarted.
  { now exists command, file. }
  destruct (read_swid_tags_loop_facts host (S (length file)) file)
    as [s1 [r1 [E1 [H1 Hs1]]]].
  fold (read_swid_tags host file) in E1.
  destruct Hs1 as [->| ->].
  - destruct IH as [s2 [r2 [c2 [E2 [H2 [H3 H4]]]]]].
    exists s2, (r1 ++ r2), (act_popen command :: c2). split.
    + intros st Hst. unfold bind. rewrite log_push.
      rewrite (E1 false) by exact Hst.
      rewrite push_push.
      change (status_eqb SUCCESS SUCCESS) with true. cbn [negb].
      rewrite E2 by exact Hst.
      rewrite push_push. reflexivity.
    + split; [now rewrite Forall_app|]. split; [discriminate|].
      destruct s2; auto.
      destruct H4 as [before [last [-> [Hb Hl]]]].
      exists (act_popen command :: before), last. auto.
  - exists NOT_FOUND, r1, [act_popen command]. split.
    + intros st Hst. unfold bind. rewrite log_push.
      rewrite (E1 false) by exact Hst.
      rewrite push_push. reflexivity.
    + split; [exact H1|]. split; [discriminate|]. auto.
Qed.

(** [generate_tags] in a collector whose mode is [only]. *)
Lemma generate_tags_facts host generator targets pretty full only :
  exists status rs cs,
    appends only (generate_tags host generator targets pretty full)
      status rs cs /\
    generated host only status rs cs.
Proof.
  destruct (inv_get_count targets =? 0) eqn:Hc; destruct only.
  - set (command :=
           snprintf (BUF_LEN host) (fmt_s generator ++ lit " software-id")).
    destruct (popen host command) as [file|] eqn:Hp.
    + destruct (read_swid_tag_ids_loop_facts host (length file) file)
        as [rs [E H]].
      exists SUCCESS, rs, [act_popen command]. split.
      * intros st Hst. unfold generate_tags, bind, get_this.
        rewrite Hc, Hst, log_push. fold command. rewrite Hp.
        unfold read_swid_tag_ids.
        rewrite (E true) by exact Hst. rewrite push_push.
        reflexivity.
      * split; [exact H|]. split; [discriminate|].
        repeat constructor. now exists command, file.
    + exists NOT_SUPPORTED, [], [act_popen command]. split.
      * intros st Hst. unfold generate_tags, bind, get_this.
        rewrite Hc, Hst, log_push. fold command. rewrite Hp. reflexivity.
      * repeat split; auto; try discriminate.
        exists [], (act_popen command). repeat split; auto.
        now exists command.
  - set (command :=
           snprintf (BUF_LEN host)
             (fmt_s generator ++ lit " swid --doc-separator "
                ++ fmt_s doc_separator
                ++ flag pretty (lit " --pretty") ++ flag full (lit " --full"))).
    destruct (popen host command) as [file|] eqn:Hp.
    + destruct (read_swid_tags_loop_facts host (S (length file)) file)
        as [status [rs [E [H Hs]]]].
      exists status, rs, [act_popen command]. split.
      * intros st Hst. unfold generate_tags, bind, get_this.
        rewrite Hc, Hst, log_push. fold command. rewrite Hp.
        unfold read_swid_tags.
        rewrite (E false) by exact Hst. rewrite push_push.
        reflexivity.
      * split; [exact H|]. split; [discriminate|].
        assert (Forall (started host) [act_popen command]) as Hs'.
        { repeat constructor. now exists command, file. }
        destruct Hs as [->| ->]; exact Hs'.
    + exists NOT_SUPPORTED, [], [act_popen command]. split.
      * intros st Hst. unfold generate_tags, bind, get_this.
        rewrite Hc, Hst, log_push. fold command. rewrite Hp. reflexivity.
      * repeat split; auto; try discriminate.
        exists [], (act_popen command). repeat split; auto.
        now exists command.
  - exists SUCCESS, [], []. split.
    + intros st Hst. unfold generate_tags, bind, get_this.
      rewrite Hc, Hst. apply ret_push.
    + repeat split; auto; discriminate.
  - destruct (generate_target_tags_facts host generator pretty full
                (inv_list targets)) as [status [rs [cs [E H]]]].
    exists status, rs, cs. split; [|exact H].
    intros st Hst. unfold generate_tags, bind, get_this.
    rewrite Hc, Hst. now apply E.
Qed.

End SourcesMore.

(** At the store whose identifier has the id [2^32 + 2] and the source
    [2^32 + 3] the record carries the id 2 and the source 3. *)
Example retrieve_inventory_reduces_ids :
  map (fun r => (record_id r, source_id r))
    (inv_list (inventory
       (this (snd (retrieve_inventory sample_db_wide no_targets fresh)))))
  = [(2, 3)]%N.
Proof. vm_compute. reflexivity. Qed.

(** X9: what [generate_tags] can return.  The status is [SUCCESS],
    [NOT_FOUND] or [NOT_SUPPORTED], never [FAILED]; it is never [NOT_FOUND]
    when identifiers only are requested; it is [NOT_SUPPORTED] only when
    the last command of the call could not be started, and every command
    before that one, and every command of a call that returns another
    status, was started.  Whatever the status, the state changes by added
    records and logged commands only, and the records are the generator's:
    not persisted, without locator, and without tag when identifiers only
    are requested. *)
Theorem X9_generate_tags_status host generator targets pretty full st :
  exists status rs cs,
    generate_tags host generator targets pretty full st
    = (status, push st rs cs) /\
    generated host (sw_id_only (this st)) status rs cs.
Proof.
  destruct (generate_tags_facts host generator targets pretty full
              (sw_id_only (this st))) as [status [rs [cs [E H]]]].
  exists status, rs, cs. split; [now apply E|exact H].
Qed.

(** ** [collect_inventory], continued *)

Section InventoryMore.

Lemma installed_total a b :
  installed_leb a b = true \/ installed_leb b a = true.
Proof. apply text_leb_total. Qed.

Lemma retrieve_inventory_rows d targets st :
  retrieve_inventory d targets st
  = match query_installed d with
    | Some rows =>
        (SUCCESS, push st (map installed_record rows) [act_db_query q_installed])
    | None => (FAILED, push st [] [act_db_query q_installed])
    end.
Proof.
  unfold retrieve_inventory, bind. rewrite log_push.
  destruct (query_installed d) as [rows|]; [|reflexivity].
  rewrite enumerate_installed_push, push_push. reflexivity.
Qed.

Lemma installed_record_bare row : record (installed_record row) = chunk_empty.
Proof. now destruct row as [[id name] source]. Qed.

(** Source 1 in a collector whose mode is [only] and whose store is
    [store]. *)
Lemma source_1_facts host only targets store :
  exists status rs cs,
    (forall st, sw_id_only (this st) = only -> db (this st) = store ->
                source_1 host only targets st = (status, push st rs cs)) /\
    (only = true -> Forall (fun r => record r = chunk_empty) rs).
Proof.
  assert (exists status rs cs,
             appends only
               (generate_tags host (generator_of host) targets
                  (conf_swid_pretty host) (conf_swid_full host))
               status rs cs /\
             (only = true -> Forall (fun r => record r = chunk_empty) rs))
    as [gs [grs [gcs [GE GH]]]].
  { destruct (generate_tags_facts host (generator_of host) targets
                (conf_swid_pretty host) (conf_swid_full host) only)
      as [status [rs [cs [E [H _]]]]].
    exists status, rs, cs. split; [exact E|].
    intros Ho. eapply Forall_impl; [|exact H].
    intros r [_ [_ [_ Hr]]]. auto. }
  destruct store as [d|]; [destruct only|].
  - destruct (query_installed d) as [rows|] eqn:Hq.
    + exists SUCCESS, (map installed_record rows), [act_db_query q_installed].
      split.
      * intros st _ Hdb. unfold source_1.
        now rewrite Hdb, retrieve_inventory_rows, Hq.
      * intros _. apply Forall_forall. intros r Hr.
        apply in_map_iff in Hr as [row [<- _]]. apply installed_record_bare.
    + exists FAILED, [], [act_db_query q_installed]. split; [|constructor].
      intros st _ Hdb. unfold source_1.
      now rewrite Hdb, retrieve_inventory_rows, Hq.
  - exists gs, grs, gcs. split; [|exact GH].
    intros st Hst Hdb. unfold source_1. rewrite Hdb. now apply GE.
  - exists gs, grs, gcs. split; [|exact GH].
    intros st Hst Hdb. unfold source_1. rewrite Hdb. now apply GE.
Qed.

(** [collect_inventory] in a collector whose store is [store]: the status
    of source 1, the records and the calls do not depend on anything else
    in the collector. *)
Lemma collect_inventory_facts host only targets store :
  exists status rs cs,
    (forall st, db (this st) = store ->
                collect_inventory host only targets st
                = (if status_eqb status SUCCESS
                   then Some (inventory (this (push (restarted only st) rs cs)))
                   else None,
                   push (restarted only st) rs cs)) /\
    (only = true -> Forall (fun r => record r = chunk_empty) rs).
Proof.
  destruct (source_1_facts host only targets store)
    as [status [rs1 [cs1 [E1 H1]]]].
  destruct (@collect_tags_appends (fs_root host) (conf_swid_directory host)
              targets false only) as [ok [rs2 [cs2 [E2 [H2 _]]]]].
  exists status, (rs1 ++ rs2), (cs1 ++ cs2). split.
  - intros st Hdb. rewrite collect_inventory_eq.
    rewrite (E1 (restarted only st) eq_refl Hdb).
    rewrite (E2 (push (restarted only st) rs1 cs1) eq_refl), push_push.
    reflexivity.
  - intros Ho. apply Forall_app. split; [auto|].
    eapply Forall_impl; [|exact H2]. intros r [_ [_ [Hr _]]]. auto.
Qed.

End InventoryMore.

(** X6: an inventory of identifiers carries no tag.  After
    [collect_inventory] with identifiers only requested, whatever the
    host, the store, the targets and the collector's earlier contents, no
    record of the collector's inventory has a tag payload. *)
Theorem X6_identifiers_only_no_payload host targets st :
  Forall (fun r => record r = chunk_empty)
    (inv_list (inventory (this (snd (collect_inventory host true targets st))))).
Proof.
  destruct (collect_inventory_facts host true targets (db (this st)))
    as [status [rs [cs [E H]]]].
  rewrite (E st eq_refl). exact (H eq_refl).
Qed.

(** X7: [collect_inventory] does not accumulate.  The inventory it leaves
    in the collector, and the one it returns, hold the records of this
    call only: two collectors with the same store give the same list and
    the same result for the same request, whatever their inventories,
    event logs, modes and traces were before. *)
Theorem X7_collect_inventory_starts_empty host only targets st st' :
  db (this st) = db (this st') ->
  inv_list (inventory (this (snd (collect_inventory host only targets st))))
  = inv_list (inventory (this (snd (collect_inventory host only targets st'))))
  /\
  option_map inv_list (fst (collect_inventory host only targets st))
  = option_map inv_list (fst (collect_inventory host only targets st')).
Proof.
  intros Hdb.
  destruct (collect_inventory_facts host only targets (db (this st')))
    as [status [rs [cs [E _]]]].
  rewrite (E st Hdb), (E st' eq_refl).
  split; [reflexivity|]. now destruct (status_eqb status SUCCESS).
Qed.

(** The statement of X7 at a fresh collector and at one that already holds
    a record and a logged call, on a host whose generator prints a tag. *)
Lemma X7_starts_empty_witness :
  let host :=
    {| conf_swid_directory := None; conf_swid_generator := None;
       conf_swid_pretty := false; conf_swid_full := false;
       BUF_LEN := 512; popen := fun _ => Some sample_tag_1;
       fs_root := Directory [] None None; stack_byte := NUL |} in
  let used :=
    push fresh [generator_record (lit "R__T2") sample_tag_2]
      [act_chunk_map (lit "/x")] in
  db (this fresh) = db (this used) /\
  (inv_list (inventory
               (this (snd (collect_inventory host false no_targets fresh))))
   = inv_list (inventory
                 (this (snd (collect_inventory host false no_targets used))))
   /\
   option_map inv_list (fst (collect_inventory host false no_targets fresh))
   = option_map inv_list
       (fst (collect_inventory host false no_targets used))).
Proof.
  split; [reflexivity|].
  apply X7_collect_inventory_starts_empty. reflexivity.
Defined.

(** X8: the inventory query.  When the [sw_identifiers] table exists,
    [retrieve_inventory] returns [SUCCESS] after one query and adds one
    record per row with [installed = 1], each such row once and no other,
    in ascending order of the names; a record carries the low 32 bits
    of the row's id, the name up to a NUL as identifier and the low 32
    bits of the row's source, and neither locator nor tag.  When the table does not exist it returns [FAILED]
    and adds nothing.  The targets are not looked at. *)
Theorem X8_retrieve_inventory d targets st :
  (forall ids,
      tbl_sw_identifiers d = Some ids ->
      exists rows,
        Permutation rows (filter (fun i => N.eqb (i_installed i) 1) ids) /\
        Sorted (ordered_by installed_leb) rows /\
        retrieve_inventory d targets st
        = (SUCCESS,
           push st
             (map (fun i =>
                     {| record_id := uint32_of_db (i_id i);
                        sw_id := c_str (i_name i);
                        sw_locator := chunk_empty;
                        source_id := uint32_of_db (i_source i);
                        record := chunk_empty |}) rows)
             [act_db_query q_installed])) /\
  (tbl_sw_identifiers d = None ->
   retrieve_inventory d targets st
   = (FAILED, push st [] [act_db_query q_installed])) /\
  (forall targets',
      retrieve_inventory d targets' st = retrieve_inventory d targets st).
Proof.
  split; [|split].
  - intros ids Hids.
    exists (order_by installed_leb
              (filter (fun i => N.eqb (i_installed i) 1) ids)).
    split; [apply order_by_perm|].
    split; [exact (@order_by_sorted _ installed_leb installed_total _)|].
    rewrite retrieve_inventory_rows. unfold query_installed. rewrite Hids.
    now rewrite map_map.
  - intros Hids. rewrite retrieve_inventory_rows. unfold query_installed.
    now rewrite Hids.
  - intros targets'. now rewrite !retrieve_inventory_rows.
Qed.

(** The statement of X8 at the sample store and at a store without
    tables. *)
Lemma X8_retrieve_inventory_witness :
  let none :=
    {| tbl_sw_identifiers := None; tbl_events := None;
       tbl_sw_events := None |} in
  (exists ids, tbl_sw_identifiers sample_db = Some ids /\
     exists rows,
       Permutation rows (filter (fun i => N.eqb (i_installed i) 1) ids) /\
       Sorted (ordered_by installed_leb) rows /\
       retrieve_inventory sample_db no_targets fresh
       = (SUCCESS,
          push fresh
            (map (fun i =>
                    {| record_id := uint32_of_db (i_id i);
                       sw_id := c_str (i_name i);
                       sw_locator := chunk_empty;
                       source_id := uint32_of_db (i_source i);
                       record := chunk_empty |}) rows)
            [act_db_query q_installed])) /\
  (tbl_sw_identifiers none = None /\
   retrieve_inventory none no_targets fresh
   = (FAILED, push fresh [] [act_db_query q_installed])).
Proof.
  split.
  - eexists. split; [reflexivity|].
    apply (proj1 (X8_retrieve_inventory sample_db no_targets fresh)).
    reflexivity.
  - split; [reflexivity|].
    apply (proj1 (proj2 (X8_retrieve_inventory _ no_targets fresh))).
    reflexivity.
Defined.

(** ** [swima_collector_create] *)

Section Creation.

Lemma text_leb_trans a b c :
  text_leb a b = true -> text_leb b c = true -> text_leb a c = true.
Proof.
  revert b c. induction a as [|x a IH]; intros [|y b] [|z c]; simpl; auto;
    try discriminate.
  destruct (Ascii.eqb_spec x y) as [->|Hxy];
    destruct (Ascii.eqb_spec y z) as [->|Hyz].
  - apply IH.
  - auto.
  - destruct (Ascii.eqb_spec x z); [contradiction|]. auto.
  - intros H1 H2. apply Nat.ltb_lt in H1. apply Nat.ltb_lt in H2.
    destruct (Ascii.eqb_spec x z) as [->|Hxz]; [lia|].
    apply Nat.ltb_lt. lia.
Qed.

Variable row : Type.
Variable leb : row -> row -> bool.
Hypothesis leb_total : forall a b, leb a b = true \/ leb b a = true.
Hypothesis leb_trans :
  forall a b c, leb a b = true -> leb b c = true -> leb a c = true.

(** The first row of an ordered result comes before every row. *)
Lemma order_by_head rows h t :
  order_by leb rows = h :: t ->
  In h rows /\ forall r, In r rows -> leb h r = true.
Proof.
  intros E.
  pose proof (@order_by_perm _ leb rows) as Hperm.
  pose proof (@order_by_sorted _ leb leb_total rows) as Hsorted.
  rewrite E in Hperm, Hsorted. split.
  - apply (Permutation_in _ Hperm). now left.
  - intros r Hr.
    apply (Permutation_in _ (Permutation_sym Hperm)) in Hr.
    destruct Hr as [<-|Hr].
    + now destruct (leb_total h h).
    + apply Sorted_StronglySorted in Hsorted.
      * apply StronglySorted_inv in Hsorted as [_ Hall].
        rewrite Forall_forall in Hall. now apply Hall.
      * intros a b c. apply leb_trans.
Qed.

Lemma order_by_nil rows : order_by leb rows = [] -> rows = [].
Proof.
  intros E. pose proof (@order_by_perm _ leb rows) as Hperm.
  rewrite E in Hperm. now apply Permutation_nil in Hperm.
Qed.

End Creation.

Section CreationMore.

Lemma latest_first_total a b :
  latest_first a b = true \/ latest_first b a = true.
Proof. apply text_leb_total. Qed.

Lemma latest_first_trans a b c :
  latest_first a b = true -> latest_first b c = true ->
  latest_first a c = true.
Proof.
  unfold latest_first. intros H1 H2.
  now apply text_leb_trans with (e_timestamp b).
Qed.

(** The two ways [attach_database] can end. *)
Lemma attach_database_cases env :
  (exists uri d es e t,
      conf_swid_database env = Some uri /\ db_create env uri = Some d /\
      tbl_events d = Some es /\ order_by latest_first es = e :: t /\
      attach_database env
      = (Some d, uint32_of_db (e_id e), uint32_of_db (e_epoch e))) \/
  (attach_database env = (None, 1%N, 287454020%N) /\
   ~ exists uri d es,
       conf_swid_database env = Some uri /\ db_create env uri = Some d /\
       tbl_events d = Some es /\ es <> []).
Proof.
  unfold attach_database, query_last_event.
  destruct (conf_swid_database env) as [uri|] eqn:Huri.
  2:{ right. split; [reflexivity|]. intros [u [d [es [H _]]]]. discriminate. }
  destruct (db_create env uri) as [d|] eqn:Hd.
  2:{ right. split; [reflexivity|].
      intros [u [d [es [[= <-] [H _]]]]]. congruence. }
  destruct (tbl_events d) as [es|] eqn:Hes.
  2:{ right. split; [reflexivity|].
      intros [u [d' [es [[= <-] [H1 [H2 _]]]]]]. congruence. }
  destruct (order_by latest_first es) as [|e t] eqn:Ho.
  - right. split; [reflexivity|].
    intros [u [d' [es' [[= <-] [H1 [H2 H3]]]]]].
    assert (d' = d) as -> by congruence.
    assert (es' = es) as -> by congruence.
    apply H3. now apply order_by_nil with latest_first.
  - left. exists uri, d, es, e, t. repeat split; auto.
Qed.

Lemma uint32_of_int_bound z : (uint32_of_int z < 2 ^ 32)%N.
Proof.
  unfold uint32_of_int.
  pose proof (Z.mod_pos_bound z (2 ^ 32) eq_refl) as [H1 H2].
  apply N2Z.inj_lt. rewrite Z2N.id by exact H1. exact H2.
Qed.

End CreationMore.

(** X10: the collector [swima_collector_create] returns.  Its inventory
    and its event log are empty and carry the same watermark, and its mode
    is not identifiers only.  It keeps a store exactly when a connection
    string is configured, the connection is made and the [events] table
    exists and has a row.  Without a store the last event id is 1 and the
    epoch is the configured one, reduced to 32 bits, or [0x11223344] when
    none is configured. *)
Theorem X10_create_watermark env :
  let c := swima_collector_create env in
  sw_id_only c = false /\
  inv_list (inventory c) = [] /\ evs_list (events c) = [] /\
  evs_last_eid (events c) = inv_last_eid (inventory c) /\
  evs_eid_epoch (events c) = inv_eid_epoch (inventory c) /\
  (forall d,
      db c = Some d <->
      exists uri es,
        conf_swid_database env = Some uri /\ db_create env uri = Some d /\
        tbl_events d = Some es /\ es <> []) /\
  (db c = None ->
   inv_last_eid (inventory c) = 1%N /\
   inv_eid_epoch (inventory c)
   = match conf_eid_epoch env with
     | Some z => uint32_of_int z
     | None => 287454020%N
     end /\
   (inv_eid_epoch (inventory c) < 2 ^ 32)%N).
Proof.
  cbv zeta. unfold swima_collector_create.
  destruct (attach_database_cases env)
    as [[uri [d [es [e [t [Huri [Hd [Hes [Ho ->]]]]]]]]]|[-> Hno]];
    cbn [sw_id_only db inventory events inv_list evs_list inv_last_eid
         inv_eid_epoch evs_last_eid evs_eid_epoch inv_set_eid evs_set_eid
         swima_inventory_create swima_events_create].
  - repeat split; try discriminate.
    + intros [= <-]. exists uri, es. repeat split; auto.
      intros ->. discriminate.
    + intros [u [es' [Hu [Hd' _]]]]. congruence.
  - repeat split; auto.
    + discriminate.
    + intros [u [es [Hu [Hd [Hes Hne]]]]]. exfalso. apply Hno.
      now exists u, d, es.
    + destruct (conf_eid_epoch env); [apply uint32_of_int_bound|reflexivity].
Qed.

(** The statement of X10 where no database is configured and the epoch is
    set to -1. *)
Lemma X10_create_witness :
  let c := swima_collector_create sample_env_bare in
  db c = None /\
  inv_last_eid (inventory c) = 1%N /\
  inv_eid_epoch (inventory c) = 4294967295%N /\
  (inv_eid_epoch (inventory c) < 2 ^ 32)%N.
Proof.
  split; [reflexivity|].
  apply (proj2 (proj2 (proj2 (proj2 (proj2 (proj2
           (X10_create_watermark sample_env_bare))))))).
  reflexivity.
Defined.

(** X12: with a store, the watermark is that of the latest event: the
    last event id and the epoch of the collector are the low 32 bits of
    the id and of the epoch of a row of the [events] table whose timestamp
    no other row's comes after; they are the id and the epoch themselves
    when these are below [2^32]. *)
Theorem X12_create_latest_event env d :
  db (swima_collector_create env) = Some d ->
  exists es e,
    tbl_events d = Some es /\ In e es /\
    (forall e', In e' es ->
                text_leb (e_timestamp e') (e_timestamp e) = true) /\
    inv_last_eid (inventory (swima_collector_create env))
    = uint32_of_db (e_id e) /\
    inv_eid_epoch (inventory (swima_collector_create env))
    = uint32_of_db (e_epoch e) /\
    (fits_uint32 (e_id e) ->
     inv_last_eid (inventory (swima_collector_create env)) = e_id e) /\
    (fits_uint32 (e_epoch e) ->
     inv_eid_epoch (inventory (swima_collector_create env)) = e_epoch e).
Proof.
  unfold swima_collector_create.
  destruct (attach_database_cases env)
    as [[uri [d' [es [e [t [Huri [Hd [Hes [Ho ->]]]]]]]]]|[-> Hno]];
    cbn [db inventory inv_last_eid inv_eid_epoch inv_set_eid]; [|discriminate].
  intros [= <-].
  destruct (@order_by_head _ latest_first latest_first_total
              latest_first_trans es e t Ho) as [Hin Hfirst].
  exists es, e. repeat split; auto; apply uint32_of_db_fits.
Qed.

(** The statement of X12 at the sample store: the latest event is the
    third. *)
Lemma X12_create_latest_witness :
  db (swima_collector_create sample_env_store) = Some sample_db /\
  exists es e,
    tbl_events sample_db = Some es /\ In e es /\
    (forall e', In e' es ->
                text_leb (e_timestamp e') (e_timestamp e) = true) /\
    inv_last_eid (inventory (swima_collector_create sample_env_store))
    = uint32_of_db (e_id e) /\
    inv_eid_epoch (inventory (swima_collector_create sample_env_store))
    = uint32_of_db (e_epoch e) /\
    (fits_uint32 (e_id e) ->
     inv_last_eid (inventory (swima_collector_create sample_env_store))
     = e_id e) /\
    (fits_uint32 (e_epoch e) ->
     inv_eid_epoch (inventory (swima_collector_create sample_env_store))
     = e_epoch e).
Proof.
  split; [reflexivity|].
  apply X12_create_latest_event. reflexivity.
Defined.

(** At the store whose event has the id [2^32 + 1] and the epoch
    [2^32 + 7] the collector holds the watermark 1 and 7. *)
Example create_reduces_watermark :
  inv_last_eid (inventory (swima_collector_create sample_env_wide)) = 1%N /\
  inv_eid_epoch (inventory (swima_collector_create sample_env_wide)) = 7%N.
Proof. split; reflexivity. Qed.

(** X11: a collector created without a store only discovers.  Whatever is
    requested, [collect_events] returns the failure result and changes
    nothing, and [collect_inventory] makes no query: the calls it adds are
    commands of the generator and steps of the walk. *)
Theorem X11_no_store_discovery_only env calls host only targets :
  db (swima_collector_create env) = None ->
  collect_events only targets (created env calls)
  = (None, created env calls) /\
  exists cs,
    trace (snd (collect_inventory host only targets (created env calls)))
    = calls ++ cs /\
    Forall no_query cs.
Proof.
  intros Hdb. split.
  - unfold collect_events, bind, get_this, created.
    cbn [this]. rewrite Hdb. now destruct only.
  - rewrite collect_inventory_eq.
    destruct (source_1_pushes host only targets
                (restarted only (created env calls)))
      as [status [rs1 [cs1 [-> Hcs1]]]].
    assert (store_connected (restarted only (created env calls)) = false)
      as Hstore.
    { unfold store_connected, restarted, created. cbn [this db].
      now rewrite Hdb. }
    rewrite Hstore, andb_false_r in Hcs1.
    destruct (@collect_tags_appends (fs_root host) (conf_swid_directory host)
                targets false only) as [ok [rs2 [cs2 [E2 [_ Hcs2]]]]].
    rewrite (E2 (push (restarted only (created env calls)) rs1 cs1) eq_refl).
    rewrite push_push. exists (cs1 ++ cs2). split; [reflexivity|].
    apply Forall_app. split; [|exact Hcs2].
    eapply Forall_impl; [|exact Hcs1]. intros a. now destruct a.
Qed.

(** The statement of X11 where no database is configured. *)
Lemma X11_no_store_witness :
  db (swima_collector_create sample_env_bare) = None /\
  collect_events true no_targets (created sample_env_bare [])
  = (None, created sample_env_bare []) /\
  exists cs,
    trace (snd (collect_inventory bare_host true no_targets
                  (created sample_env_bare [])))
    = [] ++ cs /\
    Forall no_query cs.
Proof.
  split; [reflexivity|].
  apply X11_no_store_discovery_only. reflexivity.
Defined.

(** ** The key exchange *)

Section KeyExchangeMore.

Variable ECCref_MAX_LEN : nat.
Variable CURVE_SM2 : N.
Variable handle_t : Type.
Variable GMALG_OpenDevice : handle_t.
Variable GMALG_GenerateKeyPair_ECC :
  handle_t -> Gmalg.ECCrefPublicKey -> Gmalg.ECCrefPrivateKey ->
  Gmalg.ECCrefPublicKey * Gmalg.ECCrefPrivateKey.
Variable GMALG_pointMul_ECC :
  handle_t -> Gmalg.ECCrefPublicKey -> Gmalg.ECCrefPrivateKey ->
  Gmalg.ECCrefPublicKey.

Lemma length_read_array a n : length (Gmalg.read_array a n) = n.
Proof. unfold Gmalg.read_array. now rewrite length_map, length_seq. Qed.

Lemma read_array_all a : Gmalg.read_array a (length a) = a.
Proof.
  unfold Gmalg.read_array. induction a as [|c a IH]; [reflexivity|].
  cbn [length seq map nth]. f_equal.
  rewrite <- seq_shift, map_map. exact IH.
Qed.

Lemma length_encoded k : length (encoded ECCref_MAX_LEN k) = 2 * ECCref_MAX_LEN.
Proof. unfold encoded. rewrite length_app, !length_read_array. lia. Qed.

Lemma memcpy_whole dst src n :
  length dst = n -> Gmalg.memcpy dst src n = map src (seq 0 n).
Proof.
  intros H. unfold Gmalg.memcpy. rewrite skipn_all2 by lia.
  apply app_nil_r.
Qed.

(** The first half and the second half of an encoded point. *)
Lemma encoded_halves k :
  public_sized ECCref_MAX_LEN k ->
  map (Gmalg.ptr (chunk_of (encoded ECCref_MAX_LEN k)))
    (seq 0 ECCref_MAX_LEN) = Gmalg.x k /\
  map (fun i => Gmalg.ptr (chunk_of (encoded ECCref_MAX_LEN k))
                  (ECCref_MAX_LEN + i))
    (seq 0 ECCref_MAX_LEN) = Gmalg.y k.
Proof.
  intros [Hx Hy]. unfold encoded, chunk_of. cbn [Gmalg.ptr].
  assert (Gmalg.read_array (Gmalg.x k) ECCref_MAX_LEN = Gmalg.x k) as ->.
  { rewrite <- Hx. apply read_array_all. }
  assert (Gmalg.read_array (Gmalg.y k) ECCref_MAX_LEN = Gmalg.y k) as ->.
  { rewrite <- Hy. apply read_array_all. }
  split.
  - apply eq_trans
      with (map (fun i => nth i (Gmalg.x k) "000"%char) (seq 0 ECCref_MAX_LEN)).
    + apply map_ext_in. intros i Hi. apply in_seq in Hi.
      apply app_nth1. lia.
    + rewrite <- Hx. exact (read_array_all (Gmalg.x k)).
  - apply eq_trans
      with (map (fun i => nth i (Gmalg.y k) "000"%char) (seq 0 ECCref_MAX_LEN)).
    + apply map_ext_in. intros i Hi. rewrite <- Hx. apply app_nth2_plus.
    + rewrite <- Hy. exact (read_array_all (Gmalg.y k)).
Qed.

Lemma set_public_key_eq (this : Gmalg.ke_t handle_t) value :
  Gmalg.set_public_key ECCref_MAX_LEN GMALG_pointMul_ECC this value
  = (let other :=
       {| Gmalg.x :=
            Gmalg.memcpy (Gmalg.x (Gmalg.otherPubKey (Gmalg.fields this)))
              (Gmalg.ptr value) ECCref_MAX_LEN;
          Gmalg.y :=
            Gmalg.memcpy (Gmalg.y (Gmalg.otherPubKey (Gmalg.fields this)))
              (fun i => Gmalg.ptr value (ECCref_MAX_LEN + i))
              ECCref_MAX_LEN |} in
     (true,
      Gmalg.with_fields this
        {| Gmalg.shared_secret :=
             encoded ECCref_MAX_LEN
               (GMALG_pointMul_ECC (Gmalg.hDeviceHandle this) other
                  (Gmalg.priKey (Gmalg.fields this)));
           Gmalg.pubKey := Gmalg.pubKey (Gmalg.fields this);
           Gmalg.priKey := Gmalg.priKey (Gmalg.fields this);
           Gmalg.otherPubKey := other;
           Gmalg.computed := true |})).
Proof. reflexivity. Qed.

(** What a peer holds after it has been given the public key of [A] as
    [get_public_key] encodes it. *)
Lemma public_key_received (A B : Gmalg.ke_t handle_t) :
  public_sized ECCref_MAX_LEN (Gmalg.pubKey (Gmalg.fields A)) ->
  public_sized ECCref_MAX_LEN (Gmalg.otherPubKey (Gmalg.fields B)) ->
  Gmalg.set_public_key ECCref_MAX_LEN GMALG_pointMul_ECC B
    (chunk_of (snd (Gmalg.get_public_key ECCref_MAX_LEN A)))
  = (true,
     Gmalg.with_fields B
       {| Gmalg.shared_secret :=
            encoded ECCref_MAX_LEN
              (GMALG_pointMul_ECC (Gmalg.hDeviceHandle B)
                 (Gmalg.pubKey (Gmalg.fields A))
                 (Gmalg.priKey (Gmalg.fields B)));
          Gmalg.pubKey := Gmalg.pubKey (Gmalg.fields B);
          Gmalg.priKey := Gmalg.priKey (Gmalg.fields B);
          Gmalg.otherPubKey := Gmalg.pubKey (Gmalg.fields A);
          Gmalg.computed := true |}).
Proof.
  intros HA [HBx HBy]. rewrite set_public_key_eq. cbv zeta.
  change (snd (Gmalg.get_public_key ECCref_MAX_LEN A))
    with (encoded ECCref_MAX_LEN (Gmalg.pubKey (Gmalg.fields A))).
  rewrite (@memcpy_whole _ _ _ HBx), (@memcpy_whole _ _ _ HBy).
  destruct (encoded_halves HA) as [-> ->].
  now destruct (Gmalg.pubKey (Gmalg.fields A)).
Qed.

(** X13: the life of the shared secret.  The constructor returns NULL
    exactly for a group other than [CURVE_SM2].  The object it returns
    reports that group, holds the key pair the device generated, and has no
    secret: [get_shared_secret] returns [FALSE].  [set_public_key] then
    returns [TRUE] whatever the value is, and afterwards
    [get_shared_secret] returns [TRUE] with the [2 * ECCref_MAX_LEN] bytes
    that encode the point the device computed from the stored peer key
    and the generated private key. *)
Theorem X13_secret_after_public_key g :
  (Gmalg.gmalg_ec_diffie_hellman_create ECCref_MAX_LEN CURVE_SM2
     GMALG_OpenDevice GMALG_GenerateKeyPair_ECC g = None
   <-> g <> CURVE_SM2) /\
  forall this,
    Gmalg.gmalg_ec_diffie_hellman_create ECCref_MAX_LEN CURVE_SM2
      GMALG_OpenDevice GMALG_GenerateKeyPair_ECC g = Some this ->
    Gmalg.get_method this = CURVE_SM2 /\
    (Gmalg.pubKey (Gmalg.fields this), Gmalg.priKey (Gmalg.fields this))
    = GMALG_GenerateKeyPair_ECC GMALG_OpenDevice
        (Gmalg.zeroed_public ECCref_MAX_LEN)
        (Gmalg.zeroed_private ECCref_MAX_LEN) /\
    Gmalg.get_shared_secret this = (false, []) /\
    forall value,
      let this' :=
        snd (Gmalg.set_public_key ECCref_MAX_LEN GMALG_pointMul_ECC
               this value) in
      fst (Gmalg.set_public_key ECCref_MAX_LEN GMALG_pointMul_ECC this value)
      = true /\
      Gmalg.get_shared_secret this'
      = (true,
         encoded ECCref_MAX_LEN
           (GMALG_pointMul_ECC GMALG_OpenDevice
              (Gmalg.otherPubKey (Gmalg.fields this'))
              (snd (GMALG_GenerateKeyPair_ECC GMALG_OpenDevice
                      (Gmalg.zeroed_public ECCref_MAX_LEN)
                      (Gmalg.zeroed_private ECCref_MAX_LEN))))) /\
      length (snd (Gmalg.get_shared_secret this')) = 2 * ECCref_MAX_LEN.
Proof.
  unfold Gmalg.gmalg_ec_diffie_hellman_create.
  destruct (N.eqb_spec g CURVE_SM2) as [->|Hg]; cbn [negb].
  - destruct (GMALG_GenerateKeyPair_ECC GMALG_OpenDevice
                (Gmalg.zeroed_public ECCref_MAX_LEN)
                (Gmalg.zeroed_private ECCref_MAX_LEN)) as [pub pri].
    split; [split; [discriminate|congruence]|].
    intros this [= <-]. repeat split.
    cbv zeta. rewrite set_public_key_eq. cbv zeta.
    cbn [snd Gmalg.get_shared_secret Gmalg.fields Gmalg.with_fields
         Gmalg.computed Gmalg.shared_secret negb].
    apply length_encoded.
  - split; [tauto|]. discriminate.
Qed.

(** X14: a public key survives the wire.  When the key structures hold
    [ECCref_MAX_LEN] bytes per coordinate, giving [set_public_key] of [B]
    the chunk [get_public_key] of [A] returned stores the public key of
    [A] as the peer key of [B], and the secret of [B] is then the encoded
    point the device computes from the public key of [A] and the private
    key of [B]. *)
Theorem X14_public_key_round_trip (A B : Gmalg.ke_t handle_t) :
  public_sized ECCref_MAX_LEN (Gmalg.pubKey (Gmalg.fields A)) ->
  public_sized ECCref_MAX_LEN (Gmalg.otherPubKey (Gmalg.fields B)) ->
  let B' :=
    snd (Gmalg.set_public_key ECCref_MAX_LEN GMALG_pointMul_ECC B
           (chunk_of (snd (Gmalg.get_public_key ECCref_MAX_LEN A)))) in
  Gmalg.otherPubKey (Gmalg.fields B') = Gmalg.pubKey (Gmalg.fields A) /\
  Gmalg.get_shared_secret B'
  = (true,
     encoded ECCref_MAX_LEN
       (GMALG_pointMul_ECC (Gmalg.hDeviceHandle B)
          (Gmalg.pubKey (Gmalg.fields A)) (Gmalg.priKey (Gmalg.fields B)))).
Proof.
  intros HA HB. cbv zeta. rewrite (@public_key_received A B HA HB).
  split; reflexivity.
Qed.

(** X16: [set_public_key] does not look at the length of the value.  It
    reads [2 * ECCref_MAX_LEN] bytes from the pointer and returns [TRUE]:
    two values with the same bytes there leave the same object, whatever
    their lengths. *)
Theorem X16_public_key_length_unchecked (this : Gmalg.ke_t handle_t) v v' :
  (forall i, i < 2 * ECCref_MAX_LEN -> Gmalg.ptr v i = Gmalg.ptr v' i) ->
  Gmalg.set_public_key ECCref_MAX_LEN GMALG_pointMul_ECC this v
  = Gmalg.set_public_key ECCref_MAX_LEN GMALG_pointMul_ECC this v' /\
  fst (Gmalg.set_public_key ECCref_MAX_LEN GMALG_pointMul_ECC this v) = true.
Proof.
  intros H. split; [|reflexivity].
  rewrite !set_public_key_eq. unfold Gmalg.memcpy.
  assert (map (Gmalg.ptr v) (seq 0 ECCref_MAX_LEN)
          = map (Gmalg.ptr v') (seq 0 ECCref_MAX_LEN)) as ->.
  { apply map_ext_in. intros i Hi. apply in_seq in Hi. apply H. lia. }
  assert (map (fun i => Gmalg.ptr v (ECCref_MAX_LEN + i))
            (seq 0 ECCref_MAX_LEN)
          = map (fun i => Gmalg.ptr v' (ECCref_MAX_LEN + i))
              (seq 0 ECCref_MAX_LEN)) as ->.
  { apply map_ext_in. intros i Hi. apply in_seq in Hi. apply H. lia. }
  reflexivity.
Qed.

(** X17: [set_private_key] replaces the private key and nothing else.
    After a secret has been computed, the call returns [FALSE], stores the
    value as the private key, and leaves the public key and the secret as
    they were: [get_shared_secret] goes on returning the secret computed
    with the key that has been replaced. *)
Theorem X17_private_key_leaves_secret (this : Gmalg.ke_t handle_t) v k :
  let this1 :=
    snd (Gmalg.set_public_key ECCref_MAX_LEN GMALG_pointMul_ECC this v) in
  let this2 := snd (Gmalg.set_private_key_of ECCref_MAX_LEN this1 k) in
  fst (Gmalg.set_private_key_of ECCref_MAX_LEN this1 k) = false /\
  Gmalg.K (Gmalg.priKey (Gmalg.fields this2))
  = Gmalg.memcpy (Gmalg.K (Gmalg.priKey (Gmalg.fields this)))
      (Gmalg.ptr k) ECCref_MAX_LEN /\
  Gmalg.get_public_key ECCref_MAX_LEN this2
  = Gmalg.get_public_key ECCref_MAX_LEN this /\
  Gmalg.get_shared_secret this2 = Gmalg.get_shared_secret this1 /\
  fst (Gmalg.get_shared_secret this2) = true.
Proof. cbv zeta. rewrite set_public_key_eq. repeat split. Qed.

End KeyExchangeMore.

(** The statement of X13 at the sample device, whose curve is group 1. *)
Lemma X13_secret_witness :
  Gmalg.gmalg_ec_diffie_hellman_create 32 1 tt sample_generate 1
  = Some sample_exchange /\
  Gmalg.get_method sample_exchange = 1%N /\
  Gmalg.get_shared_secret sample_exchange = (false, []) /\
  fst (Gmalg.set_public_key 32 sample_point_mul sample_exchange
         Gmalg.sample_key) = true.
Proof.
  split; [reflexivity|].
  destruct (proj2 (X13_secret_after_public_key 32 1 tt sample_generate
                     sample_point_mul 1) sample_exchange eq_refl)
    as [H1 [_ [H2 H3]]].
  split; [exact H1|]. split; [exact H2|].
  exact (proj1 (H3 Gmalg.sample_key)).
Defined.

(** The statement of X14 at the two sample ends. *)
Lemma X14_round_trip_witness :
  public_sized 32 (Gmalg.pubKey (Gmalg.fields sample_exchange)) /\
  public_sized 32 (Gmalg.otherPubKey (Gmalg.fields sample_peer)) /\
  Gmalg.otherPubKey
    (Gmalg.fields
       (snd (Gmalg.set_public_key 32 sample_point_mul sample_peer
               (chunk_of (snd (Gmalg.get_public_key 32 sample_exchange))))))
  = Gmalg.pubKey (Gmalg.fields sample_exchange).
Proof.
  assert (public_sized 32 (Gmalg.pubKey (Gmalg.fields sample_exchange)))
    as H1 by (split; reflexivity).
  assert (public_sized 32 (Gmalg.otherPubKey (Gmalg.fields sample_peer)))
    as H2 by (split; reflexivity).
  split; [exact H1|]. split; [exact H2|].
  exact (proj1 (@X14_public_key_round_trip 32 unit sample_point_mul
                  sample_exchange sample_peer H1 H2)).
Defined.

(** The statement of X16 at the sample key and at the same pointer with
    the length 0. *)
Lemma X16_length_unchecked_witness :
  let short := {| Gmalg.ptr := Gmalg.ptr Gmalg.sample_key; Gmalg.len := 0 |} in
  (forall i, i < 2 * 32 -> Gmalg.ptr Gmalg.sample_key i = Gmalg.ptr short i) /\
  Gmalg.set_public_key 32 sample_point_mul sample_exchange Gmalg.sample_key
  = Gmalg.set_public_key 32 sample_point_mul sample_exchange short /\
  fst (Gmalg.set_public_key 32 sample_point_mul sample_exchange
         Gmalg.sample_key) = true.
Proof.
  cbv zeta. split; [reflexivity|].
  apply X16_public_key_length_unchecked. reflexivity.
Defined.
